(** * AdaptiveVolumeControl: a shallow embedding of the volume decision engine

    The embedded code is [AdaptiveVolumeControl.h] and
    [AdaptiveVolumeControl.cpp].  The engine is one C++ object; here it is a
    record that every operation takes and returns.

    - [int] fields are [Z]; the only [int] arithmetic of the class, the
      subtraction [previousSpeed - speed], has its 32-bit wrap-around
      written out ([wrap32]).
    - [float] fields and locals are values of a carrier [F] with the
      operations of the class [Arith].  Two carriers are given:
      [Binary32], IEEE 754 single precision as specified by the Standard
      Library's [SpecFloat], every operation rounded to nearest even on
      its own (what the compiled code computes), and [Exact], the
      rationals (the same program text read without rounding).
    - [std::chrono::system_clock::now()] is an explicit argument [now], a
      tick count in nanoseconds; the elapsed time is a binary64 [double]
      as in the source.
    - Console output ([std::cout]) and [sleep_for] are left out: no field
      of the object depends on them. *)

From Stdlib Require Import ZArith QArith Qabs Qround Bool List Lia Lqa.
From Stdlib Require Import Floats.SpecFloat.
From Stdlib Require Import Qminmax.
From Stdlib Require String.

Local Open Scope Z_scope.

(** ** Machine integers *)

Module Int32.

Definition min_int : Z := - 2 ^ 31.
Definition max_int : Z := 2 ^ 31 - 1.

Definition in_range (z : Z) : Prop := min_int <= z <= max_int.

(** Two's complement wrap-around of a 32-bit signed result. *)
Definition wrap32 (z : Z) : Z := (z + 2 ^ 31) mod 2 ^ 32 - 2 ^ 31.

End Int32.

(** ** Arithmetic of [float] *)

(** The operations the class performs on [float] values.  [fltb a b] is the
    C++ test [a < b]; [a > b] is written [fltb b a].  [of_int] is the
    implicit conversion of an [int] operand, [lit n d] the literal whose
    decimal value is [n / d] ([0.6f] is [lit 6 10]). *)
Class Arith (F : Type) : Type := {
  fadd : F -> F -> F;
  fsub : F -> F -> F;
  fmul : F -> F -> F;
  fabs : F -> F;
  fltb : F -> F -> bool;
  of_int : Z -> F;
  lit : Z -> positive -> F
}.

(** IEEE 754 binary32: 24 bits of precision, exponent of infinity 128. *)
Module Binary32.

Definition prec : Z := 24.
Definition emax : Z := 128.

Definition float : Type := spec_float.

Definition conv (z : Z) : float := binary_normalize prec emax z 0 false.

#[export] Instance arith : Arith float := {
  fadd := SFadd prec emax;
  fsub := SFsub prec emax;
  fmul := SFmul prec emax;
  fabs := SFabs;
  fltb := SFltb;
  of_int := conv;
  lit := fun n d => SFdiv prec emax (conv n) (conv (Zpos d))
}.

Definition fleb : float -> float -> bool := SFleb.

Definition is_nan (x : float) : bool :=
  match x with S754_nan => true | _ => false end.

End Binary32.

(** The rationals: the same operations without rounding. *)
Module Exact.

Definition qltb (a b : Q) : bool := negb (Qle_bool b a).

#[export] Instance arith : Arith Q := {
  fadd := Qplus;
  fsub := Qminus;
  fmul := Qmult;
  fabs := Qabs;
  fltb := qltb;
  of_int := inject_Z;
  lit := fun n d => Qmake n d
}.

End Exact.

(** ** The clock *)

(** [system_clock::time_point] counts nanoseconds.  The source converts the
    difference of two time points to [duration<double>], in seconds, and
    compares it with the [double] constant [HORN_DUCK_DURATION]. *)
Module Clock.

Definition time_point : Type := Z.

Definition to_double (z : Z) : spec_float := binary_normalize 53 1024 z 0 false.

Definition ticks_per_second : Z := 1000000000.

(** [duration<double> elapsed = now - start; elapsed.count()] *)
Definition elapsed (start now : time_point) : spec_float :=
  SFdiv 53 1024 (to_double (now - start)) (to_double ticks_per_second).

(** [0.5] *)
Definition HORN_DUCK_DURATION : spec_float :=
  SFdiv 53 1024 (to_double 1) (to_double 2).

(** [elapsed.count() >= HORN_DUCK_DURATION] *)
Definition expired (start now : time_point) : bool :=
  SFleb HORN_DUCK_DURATION (elapsed start now).

(** A time point [n] milliseconds after the epoch. *)
Definition ms (n : Z) : time_point := n * 1000000.

End Clock.

(** ** The engine *)

Inductive Mode : Type := ECO | COMFORT | SPORTS.

Inductive VolumeControlType : Type := ADAPTIVE | MANUAL.

Record AdaptiveVolumeControl (F : Type) : Type := mkAVC {
  speed : Z;
  previousSpeed : Z;
  cabinNoise : Z;
  reverseGear : bool;
  hornActive : bool;
  navSpeaking : bool;
  mode : Mode;
  controlType : VolumeControlType;
  manualVolume : Z;
  targetVolume : F;
  currentVolume : F;
  hornDuckStartTime : Clock.time_point;
  hornDuckActive : bool
}.

Arguments mkAVC {F}.
Arguments speed {F}.
Arguments previousSpeed {F}.
Arguments cabinNoise {F}.
Arguments reverseGear {F}.
Arguments hornActive {F}.
Arguments navSpeaking {F}.
Arguments mode {F}.
Arguments controlType {F}.
Arguments manualVolume {F}.
Arguments targetVolume {F}.
Arguments currentVolume {F}.
Arguments hornDuckStartTime {F}.
Arguments hornDuckActive {F}.

Section Engine.

Context {F : Type} {A : Arith F}.

Local Abbreviation State := (AdaptiveVolumeControl F).

Definition DEFAULT_VOLUME : F := lit 25 1.
Definition MAX_VOLUME : F := lit 100 1.
Definition MAX_ADAPTIVE_VOLUME : F := lit 80 1.
Definition MIN_VOLUME : F := lit 0 1.
Definition SMOOTH_FACTOR : F := lit 3 10.
Definition HORN_DUCK_MULTIPLIER : F := lit 6 10.

(** The constructor; [now] is the clock at construction. *)
Definition init (now : Clock.time_point) : State :=
  {| speed := 0; previousSpeed := 0; cabinNoise := 30;
     reverseGear := false; hornActive := false; navSpeaking := false;
     mode := COMFORT; controlType := ADAPTIVE; manualVolume := 25;
     targetVolume := DEFAULT_VOLUME; currentVolume := DEFAULT_VOLUME;
     hornDuckStartTime := now; hornDuckActive := false |}.

Definition set_horn_duck (s : State) (start : Clock.time_point) (active : bool) : State :=
  {| speed := speed s; previousSpeed := previousSpeed s; cabinNoise := cabinNoise s;
     reverseGear := reverseGear s; hornActive := hornActive s;
     navSpeaking := navSpeaking s; mode := mode s; controlType := controlType s;
     manualVolume := manualVolume s; targetVolume := targetVolume s;
     currentVolume := currentVolume s;
     hornDuckStartTime := start; hornDuckActive := active |}.

Definition set_navSpeaking (s : State) (b : bool) : State :=
  {| speed := speed s; previousSpeed := previousSpeed s; cabinNoise := cabinNoise s;
     reverseGear := reverseGear s; hornActive := hornActive s;
     navSpeaking := b; mode := mode s; controlType := controlType s;
     manualVolume := manualVolume s; targetVolume := targetVolume s;
     currentVolume := currentVolume s;
     hornDuckStartTime := hornDuckStartTime s; hornDuckActive := hornDuckActive s |}.

Definition set_targetVolume (s : State) (v : F) : State :=
  {| speed := speed s; previousSpeed := previousSpeed s; cabinNoise := cabinNoise s;
     reverseGear := reverseGear s; hornActive := hornActive s;
     navSpeaking := navSpeaking s; mode := mode s; controlType := controlType s;
     manualVolume := manualVolume s; targetVolume := v;
     currentVolume := currentVolume s;
     hornDuckStartTime := hornDuckStartTime s; hornDuckActive := hornDuckActive s |}.

Definition set_currentVolume (s : State) (v : F) : State :=
  {| speed := speed s; previousSpeed := previousSpeed s; cabinNoise := cabinNoise s;
     reverseGear := reverseGear s; hornActive := hornActive s;
     navSpeaking := navSpeaking s; mode := mode s; controlType := controlType s;
     manualVolume := manualVolume s; targetVolume := targetVolume s;
     currentVolume := v;
     hornDuckStartTime := hornDuckStartTime s; hornDuckActive := hornDuckActive s |}.

(** [handleHornDucking]: the three branches in the order of the source.
    The second one reads the member [hornActive] of the object. *)
Definition handleHornDucking (s : State) (newHornActive : bool)
    (now : Clock.time_point) : State :=
  if newHornActive then set_horn_duck s now true
  else if hornActive s then set_horn_duck s now true
  else if hornDuckActive s then
    if Clock.expired (hornDuckStartTime s) now
    then set_horn_duck s (hornDuckStartTime s) false
    else s
  else s.

Definition handleNavigationDucking (s : State) (newNavSpeaking : bool) : State :=
  set_navSpeaking s newNavSpeaking.

(** [std::min<float>(a, b)] is [(b < a) ? b : a]. *)
Definition fmin (a b : F) : F := if fltb b a then b else a.

(** [applyVolumeModifiers]: every [let] is one statement of the source,
    rebinding the parameter [baseVolume]. *)
Definition applyVolumeModifiers (s : State) (baseVolume : F) : F :=
  let baseVolume :=
    if hornDuckActive s then fmul baseVolume HORN_DUCK_MULTIPLIER else baseVolume in
  let baseVolume :=
    if navSpeaking s then fmul baseVolume (lit 5 10) else baseVolume in
  let baseVolume :=
    if reverseGear s then fmul baseVolume (lit 25 100) else baseVolume in
  let baseVolume :=
    if negb (reverseGear s) then
      let speedDiff := Int32.wrap32 (previousSpeed s - speed s) in
      if 10 <? speedDiff then fmul baseVolume (lit 5 10)
      else if speed s <? previousSpeed s then fmul baseVolume (lit 9 10)
      else baseVolume
    else baseVolume in
  let baseVolume :=
    if fltb baseVolume MIN_VOLUME then MIN_VOLUME else baseVolume in
  let baseVolume :=
    if fltb MAX_ADAPTIVE_VOLUME baseVolume then MAX_ADAPTIVE_VOLUME else baseVolume in
  baseVolume.

(** The value of the local [baseVolume] of [calculateTargetVolume] when
    [applyVolumeModifiers] is called. *)
Definition baseVolumeOf (s : State) : F :=
  let baseVolume := lit 25 1 in
  let baseVolume :=
    if 70 <? speed s then fadd baseVolume (of_int 15)
    else if 30 <? speed s then fadd baseVolume (of_int 10)
    else if 0 <? speed s then fadd baseVolume (of_int 5)
    else baseVolume in
  let baseVolume := fadd baseVolume (fmul (of_int (cabinNoise s)) (lit 2 10)) in
  match mode s with
  | ECO => fmul baseVolume (lit 8 10)
  | COMFORT => baseVolume
  | SPORTS => fmul baseVolume (lit 12 10)
  end.

Definition calculateTargetVolume (s : State) : State :=
  match controlType s with
  | MANUAL => set_targetVolume s (fmin (of_int (manualVolume s)) MAX_VOLUME)
  | ADAPTIVE => set_targetVolume s (applyVolumeModifiers s (baseVolumeOf s))
  end.

(** The assignments of [update] before its three calls. *)
Definition store_inputs (s : State) (newSpeed newNoise : Z)
    (newReverseGear newHornActive newNavSpeaking : bool) (newMode : Mode)
    (newControlType : VolumeControlType) (newManualVolume : Z) : State :=
  {| previousSpeed := speed s;
     speed := newSpeed;
     cabinNoise := newNoise;
     reverseGear := newReverseGear;
     hornActive := newHornActive;
     navSpeaking := newNavSpeaking;
     mode := newMode;
     controlType := newControlType;
     manualVolume :=
       match newControlType with
       | MANUAL => newManualVolume
       | ADAPTIVE => manualVolume s
       end;
     targetVolume := targetVolume s;
     currentVolume := currentVolume s;
     hornDuckStartTime := hornDuckStartTime s;
     hornDuckActive := hornDuckActive s |}.

(** [update]; [now] is the value [system_clock::now()] returns inside
    [handleHornDucking]. *)
Definition update (s : State) (newSpeed newNoise : Z)
    (newReverseGear newHornActive newNavSpeaking : bool) (newMode : Mode)
    (newControlType : VolumeControlType) (newManualVolume : Z)
    (now : Clock.time_point) : State :=
  let s := store_inputs s newSpeed newNoise newReverseGear newHornActive
             newNavSpeaking newMode newControlType newManualVolume in
  let s := handleHornDucking s newHornActive now in
  let s := handleNavigationDucking s newNavSpeaking in
  calculateTargetVolume s.

Definition smoothVolumeTransition (s : State) : State :=
  let diff := fsub (targetVolume s) (currentVolume s) in
  set_currentVolume s (fadd (currentVolume s) (fmul diff SMOOTH_FACTOR)).

(** The loop condition of [printAndSmooth]:
    [std::abs(currentVolume - targetVolume) > 0.5f]. *)
Definition far_from_target (s : State) : bool :=
  fltb (lit 5 10) (fabs (fsub (currentVolume s) (targetVolume s))).

(** The [while] loop of [printAndSmooth], with fuel: [None] when the fuel
    runs out before the condition turns false. *)
Fixpoint smooth_loop (fuel : nat) (s : State) : option State :=
  if far_from_target s then
    match fuel with
    | O => None
    | S fuel' => smooth_loop fuel' (smoothVolumeTransition s)
    end
  else Some s.

Definition printAndSmooth (fuel : nat) (s : State) : option State :=
  match smooth_loop fuel s with
  | Some s' => Some (set_currentVolume s' (targetVolume s'))
  | None => None
  end.

Definition getCurrentVolume (s : State) : F := currentVolume s.
Definition getTargetVolume (s : State) : F := targetVolume s.

End Engine.

(** ** Stages of the modifier pipeline

    [applyVolumeModifiers] is a sequence of six statements.  The three
    functions below name its three stages, so that statements about one
    stage can be written down; [applyVolumeModifiers_stages] shows that
    their composition is the function itself. *)

Section Stages.

Context {F : Type} {A : Arith F}.

(** Statements 1 and 2: horn ducking, then navigation. *)
Definition hornNavDucking (s : AdaptiveVolumeControl F) (baseVolume : F) : F :=
  let baseVolume :=
    if hornDuckActive s then fmul baseVolume HORN_DUCK_MULTIPLIER else baseVolume in
  if navSpeaking s then fmul baseVolume (lit 5 10) else baseVolume.

(** Statements 3 and 4: reverse gear, and the braking checks under
    [!reverseGear]. *)
Definition gearOrBraking (s : AdaptiveVolumeControl F) (baseVolume : F) : F :=
  let baseVolume :=
    if reverseGear s then fmul baseVolume (lit 25 100) else baseVolume in
  if negb (reverseGear s) then
    let speedDiff := Int32.wrap32 (previousSpeed s - speed s) in
    if 10 <? speedDiff then fmul baseVolume (lit 5 10)
    else if speed s <? previousSpeed s then fmul baseVolume (lit 9 10)
    else baseVolume
  else baseVolume.

(** Statements 5 and 6: the clamp. *)
Definition clampAdaptive (baseVolume : F) : F :=
  let baseVolume :=
    if fltb baseVolume MIN_VOLUME then MIN_VOLUME else baseVolume in
  if fltb MAX_ADAPTIVE_VOLUME baseVolume then MAX_ADAPTIVE_VOLUME else baseVolume.

(** The object as it would be with ducking inactive and navigation
    silent, everything else the same. *)
Definition quiet (s : AdaptiveVolumeControl F) : AdaptiveVolumeControl F :=
  set_navSpeaking (set_horn_duck s (hornDuckStartTime s) false) false.

(** The object with another remembered speed. *)
Definition with_speed (s : AdaptiveVolumeControl F) (v : Z) : AdaptiveVolumeControl F :=
  {| speed := v; previousSpeed := previousSpeed s; cabinNoise := cabinNoise s;
     reverseGear := reverseGear s; hornActive := hornActive s;
     navSpeaking := navSpeaking s; mode := mode s; controlType := controlType s;
     manualVolume := manualVolume s; targetVolume := targetVolume s;
     currentVolume := currentVolume s;
     hornDuckStartTime := hornDuckStartTime s; hornDuckActive := hornDuckActive s |}.

(** [n] convergence steps in a row. *)
Fixpoint steps (n : nat) (s : AdaptiveVolumeControl F) : AdaptiveVolumeControl F :=
  match n with
  | O => s
  | S n' => steps n' (smoothVolumeTransition s)
  end.

(** States the engine can be in: constructed, then any sequence of
    [update], single convergence steps and completed [printAndSmooth]
    loops. *)
Inductive reachable : AdaptiveVolumeControl F -> Prop :=
| reach_init : forall now, reachable (init now)
| reach_update : forall s newSpeed newNoise newReverseGear newHornActive
      newNavSpeaking newMode newControlType newManualVolume now,
    reachable s ->
    reachable (update s newSpeed newNoise newReverseGear newHornActive
                 newNavSpeaking newMode newControlType newManualVolume now)
| reach_step : forall s, reachable s -> reachable (smoothVolumeTransition s)
| reach_smooth : forall fuel s s',
    reachable s -> printAndSmooth fuel s = Some s' -> reachable s'.

End Stages.

(** [|currentVolume - targetVolume|], the distance the loop of
    [printAndSmooth] tests, over the rationals. *)
Definition gap (s : AdaptiveVolumeControl Q) : Q :=
  Qabs (currentVolume s - targetVolume s).

(** ** The scenario of [test.cpp]

    The first states of the test program, on the binary32 engine.  The
    clock values are chosen as the sleeps of the test dictate: 600 ms pass
    between tests 8 and 9. *)

Module UnitTests.
Import Binary32.

(** [std::abs(x - y) <= 1] *)
Definition near (x y : float) : bool :=
  fleb (fabs (fsub x y)) (lit 1 1).

Definition avc1 : AdaptiveVolumeControl float := init 0.
Definition avc2 := update avc1 0 30 false false false ECO MANUAL 50 (Clock.ms 1).
Definition avc3 := update avc2 0 30 false false false ECO MANUAL 100 (Clock.ms 2).
Definition avc4 := update avc3 0 30 false false false ECO MANUAL 150 (Clock.ms 3).
Definition avc5 := update avc4 50 50 false false false COMFORT ADAPTIVE 0 (Clock.ms 4).
Definition avc6 := update avc5 200 300 false false false SPORTS ADAPTIVE 0 (Clock.ms 5).
Definition avc7 := update avc6 (-100) (-100) false false false ECO ADAPTIVE 0 (Clock.ms 6).
Definition avc8 := update avc7 50 50 false true false COMFORT ADAPTIVE 0 (Clock.ms 7).
Definition avc9 := update avc8 50 50 false false false COMFORT ADAPTIVE 0 (Clock.ms 607).
Definition avc10 := update avc9 50 50 false false true COMFORT ADAPTIVE 0 (Clock.ms 608).

End UnitTests.

(** ** Vocabulary of the statements *)

Import Binary32 Exact.

(** The value of the local [baseVolume] just before the two clamp
    statements of [applyVolumeModifiers], under automatic policy. *)
Definition beforeClamp {F} {A : Arith F} (s : AdaptiveVolumeControl F) : F :=
  gearOrBraking s (hornNavDucking s (baseVolumeOf s)).

(** Binary32 values with the sign [sx] (NaN has none). *)
Definition signed_as (sx : bool) (x : spec_float) : Prop :=
  match x with
  | S754_zero s | S754_infinity s | S754_finite s _ _ => s = sx
  | S754_nan => False
  end.

(** Positive binary32 values with exponent at least [b], and [+inf]. *)
Definition large_as (b : Z) (x : spec_float) : Prop :=
  match x with
  | S754_finite s _ e => s = false /\ b <= e
  | S754_infinity s => s = false
  | _ => False
  end.

(** [100 < (float) n] in binary32 agrees with [100 < n] on integers. *)
Definition agrees_at (n : nat) : bool :=
  Bool.eqb (SFltb (S754_finite false 13107200 (-17)) (conv (Z.of_nat n)))
           (100 <? Z.of_nat n).

(** Binary32: the target is a number within the range of the policy in
    force. *)
Definition target_bounded_binary32 (s : AdaptiveVolumeControl float) : Prop :=
  is_nan (targetVolume s) = false /\
  match controlType s with
  | ADAPTIVE => fleb MIN_VOLUME (targetVolume s) = true /\
                fleb (targetVolume s) MAX_ADAPTIVE_VOLUME = true
  | MANUAL => fleb (targetVolume s) MAX_VOLUME = true
  end.

(** The first [k] states of the loop all satisfy the loop condition. *)
Fixpoint all_far {F} {A : Arith F} (k : nat) (s : AdaptiveVolumeControl F) : bool :=
  match k with
  | O => true
  | S k' => far_from_target s && all_far k' (smoothVolumeTransition s)
  end.

(** Binary32: the distance the loop tests, and [b] lying between [a] and
    [c]. *)
Definition gap32 (s : AdaptiveVolumeControl float) : float :=
  fabs (fsub (currentVolume s) (targetVolume s)).

Definition between32 (a b c : float) : bool :=
  (fleb a b && fleb b c) || (fleb c b && fleb b a).

(** Binary32: the loop ends within [fuel] steps, and every step it takes
    strictly reduces the distance and keeps the current level between its
    old value and the target. *)
Fixpoint descends (fuel : nat) (s : AdaptiveVolumeControl float) : bool :=
  if far_from_target s then
    match fuel with
    | O => false
    | S fuel' =>
        let s' := smoothVolumeTransition s in
        fltb (gap32 s') (gap32 s) &&
        between32 (currentVolume s) (currentVolume s') (targetVolume s) &&
        descends fuel' s'
    end
  else true.

(** An engine whose current and target levels are the integers [c] and
    [t]. *)
Definition level_pair (c t : Z) : AdaptiveVolumeControl float :=
  set_currentVolume (set_targetVolume (init 0) (of_int t)) (of_int c).

(** The levels 0, 5, ..., 100. *)
Definition sample_levels : list Z := map (fun n => 5 * Z.of_nat n) (seq 0 21).

(** ** Scenarios *)

(** A manual level far below zero, and the state sixty convergence steps
    later (binary32). *)
Definition far_manual : AdaptiveVolumeControl float :=
  update (init 0) 0 30 false false false COMFORT MANUAL (-10000000) 0.

Definition stalled : AdaptiveVolumeControl float := steps 60 far_manual.

(** * Traces, the driver loop and the demo *)

Import String.StringSyntax.
Import ListNotations.
Delimit Scope string_scope with string.

(** One call of [update]: its eight arguments and the clock reading. *)
Record Inputs : Type := mkInputs {
  in_speed : Z;
  in_noise : Z;
  in_reverse : bool;
  in_horn : bool;
  in_nav : bool;
  in_mode : Mode;
  in_control : VolumeControlType;
  in_manual : Z;
  in_now : Clock.time_point
}.

Definition update_with {F} {A : Arith F} (s : AdaptiveVolumeControl F) (i : Inputs)
    : AdaptiveVolumeControl F :=
  update s (in_speed i) (in_noise i) (in_reverse i) (in_horn i) (in_nav i)
    (in_mode i) (in_control i) (in_manual i) (in_now i).

(** A sequence of [update] calls, as [test.cpp] makes them. *)
Definition run {F} {A : Arith F} (s : AdaptiveVolumeControl F) (l : list Inputs)
    : AdaptiveVolumeControl F :=
  fold_left update_with l s.

(** Every later call came less than 500 000 000 ticks after [start]. *)
Definition within_window (start : Clock.time_point) (l : list Inputs) : bool :=
  forallb (fun j => in_now j - start <? 500000000) l.

(** The [for] loop of [main]: every event is an [update] followed by
    [printAndSmooth]; [None] when a convergence loop runs out of fuel. *)
Fixpoint main_loop {F} {A : Arith F} (fuel : nat) (s : AdaptiveVolumeControl F)
    (l : list Inputs) : option (AdaptiveVolumeControl F) :=
  match l with
  | [] => Some s
  | i :: l' =>
      match printAndSmooth fuel (update_with s i) with
      | Some s' => main_loop fuel s' l'
      | None => None
      end
  end.

(** Clock readings at least 500 000 000 ticks apart, starting after [t]:
    what the one-second sleep of [main] guarantees between two events. *)
Fixpoint spaced (t : Clock.time_point) (l : list Inputs) : bool :=
  match l with
  | [] => true
  | i :: l' => (t + 500000000 <=? in_now i) && spaced (in_now i) l'
  end.

(** Manual requests that are not negative. *)
Definition manual_nonneg (i : Inputs) : Prop :=
  in_control i = MANUAL -> 0 <= in_manual i.

(** The start of the ducking window is no later than [t] while ducking is
    active. *)
Definition window_before {F} (s : AdaptiveVolumeControl F) (t : Clock.time_point)
    : Prop :=
  hornDuckActive s = true -> hornDuckStartTime s <= t.

(** ** Constants of the expiry test *)

(** The significand of 10^9 in binary64 and the value of 0.5. *)
Definition billion_mantissa : positive := 8388608000000000.
Definition half_double : spec_float := S754_finite false 4503599627370496 (-53).

(** ** The demo of [main.cpp] *)

(** [struct Event]: the arguments of one [update] call and a label. *)
Record Event : Type := mkEvent {
  ev_speed : Z;
  ev_noise : Z;
  ev_reverseGear : bool;
  ev_hornActive : bool;
  ev_navSpeaking : bool;
  ev_mode : Mode;
  ev_controlType : VolumeControlType;
  ev_manualVolume : Z;
  ev_name : String.string
}.

Definition events : list Event :=
  [ mkEvent 0 30 false false false ECO ADAPTIVE 0 "Engine Started"%string;
    mkEvent 50 55 false false false COMFORT ADAPTIVE 0 "Acceleration to 50 km/h"%string;
    mkEvent 50 55 false true false COMFORT ADAPTIVE 0 "Horn Pressed"%string;
    mkEvent 50 55 false false false COMFORT ADAPTIVE 0 "Horn Released"%string;
    mkEvent 50 60 false false true SPORTS ADAPTIVE 0 "Navigation Speaking Started"%string;
    mkEvent 50 60 false false false SPORTS ADAPTIVE 0 "Navigation Speaking Ended"%string;
    mkEvent 50 60 false false false COMFORT MANUAL 90 "User sets Manual Volume 90"%string;
    mkEvent 50 60 false false false COMFORT ADAPTIVE 0 "Switch back to Adaptive"%string;
    mkEvent 0 40 true false false SPORTS ADAPTIVE 0 "Reverse Gear Engaged"%string;
    mkEvent 30 40 false false false SPORTS ADAPTIVE 0 "Reverse to Drive"%string;
    mkEvent 20 35 false false false ECO ADAPTIVE 0 "Speed Decreased"%string;
    mkEvent 5 30 false false false ECO ADAPTIVE 0 "Sudden Brake"%string ].

(** The [update] call made for event [e] when the clock reads [t]. *)
Definition at_time (e : Event) (t : Clock.time_point) : Inputs :=
  mkInputs (ev_speed e) (ev_noise e) (ev_reverseGear e) (ev_hornActive e)
    (ev_navSpeaking e) (ev_mode e) (ev_controlType e) (ev_manualVolume e) t.

(** The calls of a list of events, the [k]-th of them made when the clock
    reads [clock k]. *)
Fixpoint timed (clock : nat -> Clock.time_point) (k : nat) (es : list Event)
    : list Inputs :=
  match es with
  | [] => []
  | e :: es' => at_time e (clock k) :: timed clock (S k) es'
  end.

(** [main]: the engine is constructed when the clock reads [c0], then the
    loop runs over [events]. *)
Definition main {F} {A : Arith F} (fuel : nat) (c0 : Clock.time_point)
    (clock : nat -> Clock.time_point) : option (AdaptiveVolumeControl F) :=
  main_loop fuel (init c0) (timed clock 0 events).

(** A clock that reads [4 k] seconds at the [k]-th event. *)
Definition every_four_seconds (k : nat) : Clock.time_point :=
  Clock.ms (4000 * Z.of_nat k).

(** ** Sample inputs *)

(** Two calls without the horn, 300 ms and 599 ms after the epoch. *)
Definition no_horn_run : list Inputs :=
  [ mkInputs 50 50 false false false COMFORT MANUAL 40 (Clock.ms 300);
    mkInputs 50 50 false false false COMFORT ADAPTIVE 0 (Clock.ms 599) ].

(** The horn pressed 100 ms after the epoch, between other calls. *)
Definition horn_press : Inputs :=
  mkInputs 50 50 false true false COMFORT ADAPTIVE 0 (Clock.ms 100).

Definition sample_run : list Inputs :=
  mkInputs 50 50 false false false COMFORT ADAPTIVE 0 (Clock.ms 0)
    :: horn_press :: no_horn_run.

(** The calls of the demo under the clock [every_four_seconds]. *)
Definition engine_started : Inputs :=
  mkInputs 0 30 false false false ECO ADAPTIVE 0 (every_four_seconds 0).

Definition later_calls : list Inputs := timed every_four_seconds 1 (tl events).

Definition demo_inputs : list Inputs := timed every_four_seconds 0 events.

(** A manual level above the current level (binary32). *)
Definition raised32 : AdaptiveVolumeControl float :=
  update (init 0) 0 30 false false false COMFORT MANUAL 50 0.

(** * Vocabulary of the binary32 statements *)

(** ** Values of binary32 numbers

    The value of a finite binary32 number as an integer, in units of
    [2 ^ -400] (small enough for every exact sum and product of two
    binary32 numbers). *)
Definition scaled (m e : Z) : Z := m * 2 ^ (e + 400).

Definition fval (x : float) : Z :=
  match x with
  | S754_finite s m e => cond_Zopp s (scaled (Zpos m) e)
  | _ => 0
  end.

(** Zeros and the finite numbers of the format (normal and subnormal). *)
Definition good (x : float) : bool :=
  match x with
  | S754_zero _ => true
  | S754_finite _ m e => bounded prec emax m e
  | _ => false
  end.

(** The power of two [2 ^ j] as a binary32 number, for [-149 <= j <= 127]. *)
Definition pow2f (j : Z) : float :=
  if j <? -126 then S754_finite false (Z.to_pos (2 ^ (j + 149))) (-149)
  else S754_finite false 8388608 (j - 23).

(** Levels of magnitude at most [2 ^ 125]: far from overflow. *)
Definition moderate (x : float) : Prop :=
  good x = true /\ - 2 ^ 525 <= fval x <= 2 ^ 525.

(** The numbers of the format, the infinities and NaN: what the
    operations return. *)
Definition valid (x : float) : bool := valid_binary prec emax x.

(** Zero, or a number of the format of magnitude between [2 ^ L] and
    [2 ^ U]. *)
Definition band (L U : Z) (x : float) : Prop :=
  good x = true /\
  (fval x = 0 \/ 2 ^ (L + 400) <= Z.abs (fval x) <= 2 ^ (U + 400)).

(** [y] is a number of the format between 0 and the value of [b], on the
    side of [b]: what is left of [b] after factors between 0 and 1. *)
Definition attenuated (b y : float) : Prop :=
  good y = true /\
  (0 <= fval b -> 0 <= fval y <= fval b) /\
  (fval b <= 0 -> fval b <= fval y <= 0).

(** ** Runs with manual levels bounded below *)

(** The states of the binary32 engine after any sequence of [update]
    calls, convergence steps and completed [printAndSmooth] loops in which
    every manual level passed under manual policy is at least [lo].  With
    [lo = Int32.min_int] these are all the runs an [int] argument allows. *)
Inductive reachable_above (lo : Z) : AdaptiveVolumeControl float -> Prop :=
| above_init : forall now, reachable_above lo (init now)
| above_update : forall s newSpeed newNoise rev horn nav md ct m now,
    reachable_above lo s ->
    (ct = MANUAL -> lo <= m) ->
    reachable_above lo (update s newSpeed newNoise rev horn nav md ct m now)
| above_step : forall s,
    reachable_above lo s -> reachable_above lo (smoothVolumeTransition s)
| above_smooth : forall fuel s s',
    reachable_above lo s -> printAndSmooth fuel s = Some s' ->
    reachable_above lo s'.

(** Both levels are numbers of the format between the value of [b] and
    100, and the target is within [0, 80] under automatic policy. *)
Definition levels_between (b : float) (s : AdaptiveVolumeControl float) : Prop :=
  good (currentVolume s) = true /\ good (targetVolume s) = true /\
  fval b <= fval (currentVolume s) <= 100 * 2 ^ 400 /\
  fval b <= fval (targetVolume s) <= 100 * 2 ^ 400 /\
  (controlType s = ADAPTIVE -> 0 <= fval (targetVolume s) <= 80 * 2 ^ 400).

(** Binary32: the current level is a number at most the manual ceiling,
    and the target is within the range of the policy in force, except for
    the floor under manual policy. *)
Definition levels_bounded_binary32 (s : AdaptiveVolumeControl float) : Prop :=
  target_bounded_binary32 s /\
  is_nan (currentVolume s) = false /\
  fleb (currentVolume s) MAX_VOLUME = true.

(** Binary32: neither level is below the integer [lo]. *)
Definition levels_floor_binary32 (lo : Z) (s : AdaptiveVolumeControl float) : Prop :=
  fleb (of_int lo) (targetVolume s) = true /\
  fleb (of_int lo) (currentVolume s) = true.

(** ** The ducking factors, and further scenarios *)

(** The two ducking factors of [applyVolumeModifiers], in the order the
    code applies them: horn ducking, then navigation. *)
Definition ducked {F} {A : Arith F} (x : F) : F :=
  fmul (fmul x HORN_DUCK_MULTIPLIER) (lit 5 10).

(** The branch of the mild deceleration factor: reverse gear off, a
    speed difference (as the code computes it) of at most 10, and a new
    speed below the stored one. *)
Definition mild_deceleration {F} (s : AdaptiveVolumeControl F) : bool :=
  negb (reverseGear s)
  && negb (10 <? Int32.wrap32 (previousSpeed s - speed s))
  && (speed s <? previousSpeed s).

(** Speed 55, then a drop to 50 with horn and navigation, cabin noise 1. *)
Definition slowing_with_horn : AdaptiveVolumeControl float :=
  update (update (init 0) 55 1 false false false COMFORT ADAPTIVE 0 0)
    50 1 false true true COMFORT ADAPTIVE 0 0.

(** Reverse gear with horn and navigation (binary32). *)
Definition reversing_with_horn : AdaptiveVolumeControl float :=
  update (init 0) 50 50 true true true COMFORT ADAPTIVE 0 0.

(** The stored speed [INT_MAX], and the stored speed [INT_MIN]. *)
Definition fastest : AdaptiveVolumeControl float :=
  update (init 0) Int32.max_int 30 false false false COMFORT ADAPTIVE 0 0.

Definition slowest : AdaptiveVolumeControl float :=
  update (init 0) Int32.min_int 30 false false false COMFORT ADAPTIVE 0 0.

(** * Properties *)

(** ** Integers *)

Lemma wrap32_in_range (z : Z) : Int32.in_range z -> Int32.wrap32 z = z.
Proof.
  unfold Int32.in_range, Int32.min_int, Int32.max_int, Int32.wrap32.
  intros Hz. rewrite Z.mod_small; lia.
Qed.

(** ** Structure of [update], for any arithmetic *)

(** Reduce field accesses and setters, and nothing else. *)
Ltac fields :=
  cbn [speed previousSpeed cabinNoise reverseGear hornActive navSpeaking mode
       controlType manualVolume targetVolume currentVolume hornDuckStartTime
       hornDuckActive set_horn_duck set_navSpeaking set_targetVolume
       set_currentVolume].

Ltac open_update :=
  unfold update, handleNavigationDucking, handleHornDucking, store_inputs,
    calculateTargetVolume; fields.

Section Structure.

Context {F : Type} {A : Arith F}.

Implicit Types s : AdaptiveVolumeControl F.

Lemma applyVolumeModifiers_stages s (b : F) :
  applyVolumeModifiers s b = clampAdaptive (gearOrBraking s (hornNavDucking s b)).
Proof. reflexivity. Qed.

(** Inside [update] the member [hornActive] already holds the new flag
    when [handleHornDucking] runs, so with the new flag false the second
    branch cannot be taken: the window start is never touched. *)
Lemma update_horn_false_start s newSpeed newNoise rev nav md ct m now :
  hornDuckStartTime (update s newSpeed newNoise rev false nav md ct m now)
    = hornDuckStartTime s.
Proof.
  open_update.
  destruct ct, (hornDuckActive s), (Clock.expired (hornDuckStartTime s) now);
    reflexivity.
Qed.

Lemma update_horn_false_active s newSpeed newNoise rev nav md ct m now :
  hornDuckActive (update s newSpeed newNoise rev false nav md ct m now)
    = hornDuckActive s && negb (Clock.expired (hornDuckStartTime s) now).
Proof.
  open_update.
  destruct ct, (hornDuckActive s), (Clock.expired (hornDuckStartTime s) now);
    reflexivity.
Qed.

Lemma update_horn_true s newSpeed newNoise rev nav md ct m now :
  let s' := update s newSpeed newNoise rev true nav md ct m now in
  hornDuckActive s' = true /\ hornDuckStartTime s' = now.
Proof.
  open_update.
  destruct ct; fields; auto.
Qed.

(** The fields [update] stores. *)
Lemma update_fields s newSpeed newNoise rev horn nav md ct m now :
  let s' := update s newSpeed newNoise rev horn nav md ct m now in
  speed s' = newSpeed /\ previousSpeed s' = speed s /\
  cabinNoise s' = newNoise /\ reverseGear s' = rev /\
  hornActive s' = horn /\ navSpeaking s' = nav /\ mode s' = md /\
  controlType s' = ct /\
  manualVolume s' =
    match ct with MANUAL => m | ADAPTIVE => manualVolume s end /\
  currentVolume s' = currentVolume s.
Proof.
  open_update.
  destruct ct, horn, (hornDuckActive s),
    (Clock.expired (hornDuckStartTime s) now); fields; repeat split; reflexivity.
Qed.

(** The target [update] computes, by policy. *)
Lemma update_target_manual s newSpeed newNoise rev horn nav md m now :
  targetVolume (update s newSpeed newNoise rev horn nav md MANUAL m now)
    = fmin (of_int m) MAX_VOLUME.
Proof.
  open_update.
  destruct horn, (hornDuckActive s),
    (Clock.expired (hornDuckStartTime s) now); reflexivity.
Qed.

Lemma update_target_adaptive s newSpeed newNoise rev horn nav md m now :
  let s' := update s newSpeed newNoise rev horn nav md ADAPTIVE m now in
  targetVolume s' = applyVolumeModifiers s' (baseVolumeOf s').
Proof.
  open_update.
  destruct horn, (hornDuckActive s),
    (Clock.expired (hornDuckStartTime s) now); reflexivity.
Qed.

End Structure.

(** The loop of [printAndSmooth], unfolded once. *)
Lemma smooth_loop_O {F} {A : Arith F} (s : AdaptiveVolumeControl F) :
  smooth_loop 0 s = if far_from_target s then None else Some s.
Proof. reflexivity. Qed.

Lemma smooth_loop_S {F} {A : Arith F} n (s : AdaptiveVolumeControl F) :
  smooth_loop (S n) s =
    if far_from_target s then smooth_loop n (smoothVolumeTransition s) else Some s.
Proof. reflexivity. Qed.

(** The loop is a number of convergence steps: it touches nothing but the
    current level, and stops only where the loop condition is false. *)
Lemma smooth_loop_steps {F} {A : Arith F} n :
  forall s s' : AdaptiveVolumeControl F,
    smooth_loop n s = Some s' ->
    far_from_target s' = false /\ exists k, (k <= n)%nat /\ s' = steps k s.
Proof.
  induction n as [|n IH]; intros s s'.
  - rewrite smooth_loop_O. destruct (far_from_target s) eqn:E; [discriminate|].
    intros [= <-]. split; [exact E | exists 0%nat; split; [lia | reflexivity]].
  - rewrite smooth_loop_S. destruct (far_from_target s) eqn:E.
    + intros H. destruct (IH _ _ H) as [Hf [k [Hk ->]]].
      split; [exact Hf | exists (S k); split; [lia | reflexivity]].
    + intros [= <-]. split; [exact E | exists 0%nat; split; [lia | reflexivity]].
Qed.

Lemma printAndSmooth_close {F} {A : Arith F} fuel (s : AdaptiveVolumeControl F) :
  far_from_target s = false ->
  printAndSmooth fuel s = Some (set_currentVolume s (targetVolume s)).
Proof.
  intros H. unfold printAndSmooth.
  destruct fuel; [rewrite smooth_loop_O | rewrite smooth_loop_S]; rewrite H; reflexivity.
Qed.

(** A loop that stays far from the target for [k] steps has not ended
    by then. *)
Lemma smooth_loop_all_far {F} {A : Arith F} k :
  forall (s : AdaptiveVolumeControl F) n,
    all_far k s = true -> smooth_loop (k + n) s = smooth_loop n (steps k s).
Proof.
  induction k as [|k IH]; intros s n H; [reflexivity|].
  simpl in H. apply andb_true_iff in H as [H1 H2].
  change (S k + n)%nat with (S (k + n)). rewrite smooth_loop_S, H1.
  apply IH, H2.
Qed.

Lemma smooth_loop_too_short {F} {A : Arith F} k :
  forall (s : AdaptiveVolumeControl F) j,
    all_far k s = true -> (j < k)%nat -> smooth_loop j s = None.
Proof.
  induction k as [|k IH]; intros s j H Hj; [lia|].
  simpl in H. apply andb_true_iff in H as [H1 H2].
  destruct j as [|j]; [rewrite smooth_loop_O, H1; reflexivity|].
  rewrite smooth_loop_S, H1. apply IH; [exact H2 | lia].
Qed.

(** ** Binary32: no NaN, and the clamp *)

(** Rounding a non-negative mantissa never produces NaN. *)
Section Rounding.
Variables p e : Z.

Lemma shr_1_nonneg mrs : 0 <= shr_m mrs -> 0 <= shr_m (shr_1 mrs).
Proof.
  destruct mrs as [m r s0]; simpl.
  destruct m as [|q|q]; [ | destruct q | ]; simpl; lia.
Qed.

Lemma iter_shr_1_nonneg n mrs :
  0 <= shr_m mrs -> 0 <= shr_m (iter_pos shr_1 n mrs).
Proof.
  revert mrs; induction n as [n IH|n IH|]; intros mrs H; simpl.
  - apply IH, IH, shr_1_nonneg, H.
  - apply IH, IH, H.
  - apply shr_1_nonneg, H.
Qed.

Lemma shr_nonneg mrs ex n : 0 <= shr_m mrs -> 0 <= shr_m (fst (shr mrs ex n)).
Proof.
  intros H; destruct n; simpl; auto using iter_shr_1_nonneg.
Qed.

Lemma shr_fexp_nonneg m ex l :
  0 <= m -> 0 <= shr_m (fst (shr_fexp p e m ex l)).
Proof.
  intros H; unfold shr_fexp; apply shr_nonneg.
  destruct l as [|[ | | ]]; exact H.
Qed.

Lemma round_nearest_even_nonneg m l : 0 <= m -> 0 <= round_nearest_even m l.
Proof.
  intros H; destruct l as [|[ | | ]]; simpl; try lia.
  destruct (Z.even m); lia.
Qed.

Lemma binary_round_aux_not_nan sx m ex l :
  0 <= m -> is_nan (binary_round_aux p e sx m ex l) = false.
Proof.
  intros H; unfold binary_round_aux.
  pose proof (shr_fexp_nonneg m ex l H) as H1.
  destruct (shr_fexp p e m ex l) as [mrs' e'] eqn:E1; simpl in H1.
  pose proof (shr_fexp_nonneg _ e' loc_Exact
                (round_nearest_even_nonneg _ (loc_of_shr_record mrs') H1)) as H2.
  destruct (shr_fexp p e (round_nearest_even (shr_m mrs') (loc_of_shr_record mrs')) e' loc_Exact)
    as [mrs'' e''] eqn:E2; simpl in H2.
  destruct (shr_m mrs'') as [|q|q]; try reflexivity.
  - destruct (e'' <=? e - p); reflexivity.
  - lia.
Qed.

Lemma binary_normalize_not_nan m ex sz :
  is_nan (binary_normalize p e m ex sz) = false.
Proof.
  destruct m as [|q|q]; simpl; try reflexivity; unfold binary_round;
    destruct (shl_align _ _ _) as [mz ez]; apply binary_round_aux_not_nan; lia.
Qed.
End Rounding.

Lemma SFmul_not_nan x s m e :
  is_nan x = false -> is_nan (SFmul prec emax x (S754_finite s m e)) = false.
Proof.
  destruct x as [sx|sx| |sx mx ex]; simpl; try reflexivity; try discriminate.
  intros _. apply binary_round_aux_not_nan. lia.
Qed.

Lemma SFadd_not_nan s m e y :
  is_nan y = false -> is_nan (SFadd prec emax (S754_finite s m e) y) = false.
Proof.
  destruct y as [sy|sy| |sy my ey]; simpl; try reflexivity; try discriminate.
  intros _. apply binary_normalize_not_nan.
Qed.

Lemma conv_not_nan z : is_nan (conv z) = false.
Proof. apply binary_normalize_not_nan. Qed.

(** Comparison of two values that are not NaN is total and antisymmetric. *)
Lemma SFcompare_antisym x y c :
  SFcompare x y = Some c -> SFcompare y x = Some (CompOpp c).
Proof.
  destruct x as [sx|sx| |sx mx ex], y as [sy|sy| |sy my ey]; simpl;
    try discriminate; intros H; injection H as <-;
    try (destruct sx; reflexivity); try (destruct sy; reflexivity);
    try (destruct sx, sy; reflexivity); try reflexivity.
  destruct sx, sy; try reflexivity;
    rewrite (Z.compare_antisym ey ex);
    destruct (ey ?= ex); simpl; try reflexivity;
    change (Pos.compare_cont Eq mx my) with (Pos.compare_cont (CompOpp Eq) mx my);
    rewrite <- (Pos.compare_cont_antisym my mx Eq);
    destruct (Pos.compare_cont Eq my mx); reflexivity.
Qed.

Lemma SFcompare_total x y :
  is_nan x = false -> is_nan y = false -> exists c, SFcompare x y = Some c.
Proof.
  destruct x, y; simpl; try discriminate; eauto.
Qed.

Lemma not_ltb_leb x y :
  is_nan x = false -> is_nan y = false -> SFltb x y = false -> SFleb y x = true.
Proof.
  intros Hx Hy; unfold SFltb, SFleb.
  destruct (SFcompare_total x y Hx Hy) as [c Hc].
  rewrite Hc, (SFcompare_antisym _ _ _ Hc).
  destruct c; simpl; congruence.
Qed.

(** The literals of the class, as binary32 values. *)
Lemma lit_0_1 : @lit float _ 0 1 = S754_zero false.
Proof. reflexivity. Qed.
Lemma lit_80_1 : @lit float _ 80 1 = S754_finite false 10485760 (-17).
Proof. reflexivity. Qed.
Lemma lit_100_1 : @lit float _ 100 1 = S754_finite false 13107200 (-17).
Proof. reflexivity. Qed.
Lemma lit_25_1 : @lit float _ 25 1 = S754_finite false 13107200 (-19).
Proof. reflexivity. Qed.
Lemma lit_6_10 : @lit float _ 6 10 = S754_finite false 10066330 (-24).
Proof. reflexivity. Qed.
Lemma lit_5_10 : @lit float _ 5 10 = S754_finite false 8388608 (-24).
Proof. reflexivity. Qed.
Lemma lit_25_100 : @lit float _ 25 100 = S754_finite false 8388608 (-25).
Proof. reflexivity. Qed.
Lemma lit_9_10 : @lit float _ 9 10 = S754_finite false 15099494 (-24).
Proof. reflexivity. Qed.
Lemma lit_2_10 : @lit float _ 2 10 = S754_finite false 13421773 (-26).
Proof. reflexivity. Qed.
Lemma lit_8_10 : @lit float _ 8 10 = S754_finite false 13421773 (-24).
Proof. reflexivity. Qed.
Lemma lit_12_10 : @lit float _ 12 10 = S754_finite false 10066330 (-23).
Proof. reflexivity. Qed.
Lemma lit_3_10 : @lit float _ 3 10 = S754_finite false 10066330 (-25).
Proof. reflexivity. Qed.

Lemma fmul_lit_not_nan (x : float) n d s m e :
  @lit float _ n d = S754_finite s m e ->
  is_nan x = false -> is_nan (fmul x (lit n d)) = false.
Proof. intros -> H. apply SFmul_not_nan, H. Qed.

Lemma clampAdaptive_bounds (x : float) :
  is_nan x = false ->
  is_nan (clampAdaptive x) = false /\
  fleb MIN_VOLUME (clampAdaptive x) = true /\
  fleb (clampAdaptive x) MAX_ADAPTIVE_VOLUME = true.
Proof.
  intros Hx. unfold clampAdaptive, MIN_VOLUME, MAX_ADAPTIVE_VOLUME, fleb.
  rewrite lit_0_1, lit_80_1. cbv [fltb Binary32.arith].
  destruct (SFltb x (S754_zero false)) eqn:E1.
  - repeat split; reflexivity.
  - destruct (SFltb (S754_finite false 10485760 (-17)) x) eqn:E2.
    + repeat split; reflexivity.
    + repeat split; [exact Hx | | ]; apply not_ltb_leb; auto.
Qed.

Lemma hornNavDucking_not_nan (s : AdaptiveVolumeControl float) x :
  is_nan x = false -> is_nan (hornNavDucking s x) = false.
Proof.
  intros Hx. unfold hornNavDucking, HORN_DUCK_MULTIPLIER.
  destruct (hornDuckActive s), (navSpeaking s);
    repeat first [ exact Hx | eapply fmul_lit_not_nan; [ first [apply lit_6_10 | apply lit_5_10] | ] ].
Qed.

Lemma gearOrBraking_not_nan (s : AdaptiveVolumeControl float) x :
  is_nan x = false -> is_nan (gearOrBraking s x) = false.
Proof.
  intros Hx. unfold gearOrBraking.
  destruct (reverseGear s); cbn [negb].
  - eapply fmul_lit_not_nan; [apply lit_25_100 | exact Hx].
  - destruct (10 <? _); [ eapply fmul_lit_not_nan; [apply lit_5_10 | exact Hx] | ].
    destruct (speed s <? previousSpeed s);
      [ eapply fmul_lit_not_nan; [apply lit_9_10 | exact Hx] | exact Hx ].
Qed.

Lemma baseVolumeOf_not_nan (s : AdaptiveVolumeControl float) :
  is_nan (baseVolumeOf s) = false.
Proof.
  unfold baseVolumeOf.
  assert (H : forall b sb mb eb, b = S754_finite sb mb eb ->
            is_nan (fadd b (fmul (of_int (cabinNoise s)) (lit 2 10))) = false).
  { intros b sb mb eb ->. apply SFadd_not_nan.
    eapply fmul_lit_not_nan; [apply lit_2_10 | apply conv_not_nan]. }
  assert (H' : is_nan
      (fadd (if 70 <? speed s then fadd (lit 25 1) (of_int 15)
             else if 30 <? speed s then fadd (lit 25 1) (of_int 10)
             else if 0 <? speed s then fadd (lit 25 1) (of_int 5) else lit 25 1)
         (fmul (of_int (cabinNoise s)) (lit 2 10))) = false).
  { destruct (70 <? speed s); [ eapply H; reflexivity | ].
    destruct (30 <? speed s); [ eapply H; reflexivity | ].
    destruct (0 <? speed s); eapply H; reflexivity. }
  cbv zeta.
  destruct (mode s); [ eapply fmul_lit_not_nan; [apply lit_8_10 | exact H']
                     | exact H'
                     | eapply fmul_lit_not_nan; [apply lit_12_10 | exact H'] ].
Qed.

Lemma adaptive_target_bounds (s : AdaptiveVolumeControl float) :
  let t := applyVolumeModifiers s (baseVolumeOf s) in
  is_nan t = false /\ fleb MIN_VOLUME t = true /\ fleb t MAX_ADAPTIVE_VOLUME = true.
Proof.
  cbv zeta. rewrite applyVolumeModifiers_stages.
  apply clampAdaptive_bounds, gearOrBraking_not_nan, hornNavDucking_not_nan,
    baseVolumeOf_not_nan.
Qed.

Lemma manual_target_bound m :
  let t := fmin (of_int m) (@MAX_VOLUME float _) in
  is_nan t = false /\ fleb t MAX_VOLUME = true.
Proof.
  cbv zeta. unfold fmin, MAX_VOLUME, fleb. rewrite lit_100_1. cbv [fltb of_int Binary32.arith].
  destruct (SFltb (S754_finite false 13107200 (-17)) (conv m)) eqn:E.
  - split; reflexivity.
  - split; [apply conv_not_nan | apply not_ltb_leb; auto using conv_not_nan].
Qed.

(** ** Binary32: conversion of an [int], compared with 100 *)

Section Sign.
Variables p e : Z.

Lemma binary_round_aux_sign sx m ex l :
  0 <= m -> signed_as sx (binary_round_aux p e sx m ex l).
Proof.
  intros H; unfold binary_round_aux.
  pose proof (shr_fexp_nonneg p e m ex l H) as H1.
  destruct (shr_fexp p e m ex l) as [mrs' e'] eqn:E1; simpl in H1.
  pose proof (shr_fexp_nonneg p e _ e' loc_Exact
                (round_nearest_even_nonneg _ (loc_of_shr_record mrs') H1)) as H2.
  destruct (shr_fexp p e (round_nearest_even (shr_m mrs') (loc_of_shr_record mrs')) e' loc_Exact)
    as [mrs'' e''] eqn:E2; simpl in H2.
  destruct (shr_m mrs'') as [|q|q]; simpl; try reflexivity.
  - destruct (e'' <=? e - p); reflexivity.
  - lia.
Qed.
End Sign.

Lemma conv_neg_sign q : signed_as true (conv (Zneg q)).
Proof.
  unfold conv, binary_normalize, binary_round.
  destruct (shl_align _ _ _) as [mz ez]. apply binary_round_aux_sign. lia.
Qed.

Lemma ltb_100_negative x :
  signed_as true x -> SFltb (S754_finite false 13107200 (-17)) x = false.
Proof.
  destruct x as [s|s| |s m e]; simpl; try (intros ->; reflexivity). intros [].
Qed.

(** Shifting a mantissa right is division by a power of two. *)
Lemma shr_1_div2 mrs : 0 <= shr_m mrs -> shr_m (shr_1 mrs) = shr_m mrs / 2.
Proof.
  destruct mrs as [m r s0]; simpl.
  destruct m as [|q|q]; [reflexivity| |lia].
  intros _. destruct q as [q|q|]; simpl.
  - rewrite Pos2Z.inj_xI. apply Z.div_unique with 1; lia.
  - rewrite Pos2Z.inj_xO. apply Z.div_unique with 0; lia.
  - reflexivity.
Qed.

Lemma pow2_xI n : 2 ^ Zpos n~1 = 2 * (2 ^ Zpos n * 2 ^ Zpos n).
Proof.
  rewrite (Pos2Z.inj_xI n). change (2 * Zpos n + 1) with (Z.succ (2 * Zpos n)).
  rewrite Z.pow_succ_r by lia. rewrite Z.pow_twice_r. reflexivity.
Qed.

Lemma pow2_xO n : 2 ^ Zpos n~0 = 2 ^ Zpos n * 2 ^ Zpos n.
Proof. rewrite (Pos2Z.inj_xO n). apply Z.pow_twice_r. Qed.

Lemma iter_shr_1_div n : forall mrs,
  0 <= shr_m mrs -> shr_m (iter_pos shr_1 n mrs) = shr_m mrs / 2 ^ Zpos n.
Proof.
  assert (Hp : forall k, 0 < 2 ^ Zpos k) by (intros; apply Z.pow_pos_nonneg; lia).
  induction n as [n IH|n IH|]; intros mrs H; simpl iter_pos.
  - rewrite IH by (apply iter_shr_1_nonneg, shr_1_nonneg, H).
    rewrite IH by (apply shr_1_nonneg, H).
    rewrite shr_1_div2 by exact H.
    pose proof (Hp n).
    rewrite !Z.div_div by lia. rewrite pow2_xI. f_equal; ring.
  - rewrite IH by (apply iter_shr_1_nonneg, H).
    rewrite IH by exact H.
    pose proof (Hp n).
    rewrite !Z.div_div by lia. rewrite pow2_xO. reflexivity.
  - rewrite shr_1_div2 by exact H. reflexivity.
Qed.

Lemma digits2_pos_bounds q :
  2 ^ (Zpos (digits2_pos q) - 1) <= Zpos q < 2 ^ Zpos (digits2_pos q).
Proof.
  induction q as [q IH|q IH|]; simpl digits2_pos; [ | |simpl; lia].
  - rewrite Pos2Z.inj_succ, (Pos2Z.inj_xI q).
    replace (Z.succ (Zpos (digits2_pos q)) - 1) with (Z.succ (Zpos (digits2_pos q) - 1)) by lia.
    rewrite !Z.pow_succ_r by lia. lia.
  - rewrite Pos2Z.inj_succ, (Pos2Z.inj_xO q).
    replace (Z.succ (Zpos (digits2_pos q)) - 1) with (Z.succ (Zpos (digits2_pos q) - 1)) by lia.
    rewrite !Z.pow_succ_r by lia. lia.
Qed.

Section Magnitude.
Variables p emx : Z.
Hypothesis p_pos : 0 < p.

Lemma round_nearest_even_ge m l : m <= round_nearest_even m l.
Proof.
  destruct l as [|[ | | ]]; simpl; try lia. destruct (Z.even m); lia.
Qed.

Lemma shr_record_of_loc_m m l : shr_m (shr_record_of_loc m l) = m.
Proof. destruct l as [|[ | | ]]; reflexivity. Qed.

Lemma shr_fexp_positive m ex l :
  0 < m -> emin p emx <= ex ->
  0 < shr_m (fst (shr_fexp p emx m ex l)) /\
  ex <= snd (shr_fexp p emx m ex l) /\
  Zdigits2 m + ex - p <= snd (shr_fexp p emx m ex l).
Proof.
  intros Hm He. unfold shr_fexp, shr, fexp.
  destruct m as [|q|q]; try lia. simpl Zdigits2.
  pose proof (digits2_pos_bounds q) as [Hlo _].
  set (d := Zpos (digits2_pos q)) in *.
  destruct (Z.max (d + ex - p) (emin p emx) - ex) as [|n|n] eqn:En; simpl fst; simpl snd.
  - rewrite shr_record_of_loc_m. lia.
  - rewrite iter_shr_1_div by (rewrite shr_record_of_loc_m; lia).
    rewrite shr_record_of_loc_m.
    assert (Hn : Zpos n = d - p) by lia.
    repeat split; try lia.
    rewrite Hn.
    assert (0 < 2 ^ (d - p)) by (apply Z.pow_pos_nonneg; lia).
    apply Z.div_str_pos. split; [assumption|].
    apply Z.le_trans with (2 ^ (d - 1)); [|exact Hlo].
    apply Z.pow_le_mono_r; lia.
  - rewrite shr_record_of_loc_m. lia.
Qed.

Lemma binary_round_aux_large m ex l :
  0 < m -> emin p emx <= ex ->
  large_as (Z.max ex (Zdigits2 m + ex - p)) (binary_round_aux p emx false m ex l).
Proof.
  intros Hm He. unfold binary_round_aux.
  destruct (shr_fexp_positive m ex l Hm He) as (H1 & H2 & H3).
  destruct (shr_fexp p emx m ex l) as [mrs' e'] eqn:E1; simpl in H1, H2, H3.
  pose proof (round_nearest_even_ge (shr_m mrs') (loc_of_shr_record mrs')) as Hr.
  destruct (shr_fexp_positive (round_nearest_even (shr_m mrs') (loc_of_shr_record mrs'))
              e' loc_Exact) as (H4 & H5 & _); try lia.
  destruct (shr_fexp p emx (round_nearest_even (shr_m mrs') (loc_of_shr_record mrs')) e' loc_Exact)
    as [mrs'' e''] eqn:E2; simpl in H4, H5.
  destruct (shr_m mrs'') as [|q|q]; try lia.
  destruct (e'' <=? emx - p); simpl; [split; [reflexivity | lia] | reflexivity].
Qed.
End Magnitude.

Lemma digits2_pos_shift q k :
  Zpos (digits2_pos (Pos.iter xO q k)) = Zpos (digits2_pos q) + Zpos k.
Proof.
  induction k as [|k IH] using Pos.peano_ind.
  - simpl. lia.
  - rewrite Pos.iter_succ. simpl digits2_pos. rewrite Pos2Z.inj_succ, IH. lia.
Qed.

Lemma conv_large q :
  large_as (Zpos (digits2_pos q) - 24) (conv (Zpos q)).
Proof.
  unfold conv, binary_normalize, binary_round, shl_align, fexp.
  set (d := Zpos (digits2_pos q)).
  assert (Hd : 1 <= d) by (unfold d; lia).
  replace (Z.max (d + 0 - prec) (emin prec emax)) with (d - 24)
    by (unfold prec, emin, emax; lia).
  destruct (d - 24 - 0) as [|n|n] eqn:En.
  - pose proof (binary_round_aux_large prec emax eq_refl (Zpos q) 0 loc_Exact) as H.
    simpl Zdigits2 in H. fold d in H.
    replace (Z.max 0 (d + 0 - prec)) with (d - 24) in H by (unfold prec; lia).
    apply H; [lia | unfold emin, prec, emax; lia].
  - pose proof (binary_round_aux_large prec emax eq_refl (Zpos q) 0 loc_Exact) as H.
    simpl Zdigits2 in H. fold d in H.
    replace (Z.max 0 (d + 0 - prec)) with (d - 24) in H by (unfold prec; lia).
    apply H; [lia | unfold emin, prec, emax; lia].
  - pose proof (binary_round_aux_large prec emax eq_refl (Zpos (Pos.iter xO q n)) (d - 24)
                  loc_Exact) as H.
    simpl Zdigits2 in H. rewrite digits2_pos_shift in H. fold d in H.
    replace (Z.max (d - 24) (d + Zpos n + (d - 24) - prec)) with (d - 24) in H
      by (unfold prec; lia).
    apply H; [lia | unfold emin, prec, emax; lia].
Qed.

Lemma ltb_100_large x :
  large_as (-16) x -> SFltb (S754_finite false 13107200 (-17)) x = true.
Proof.
  destruct x as [s|s| |s m e]; simpl; try (intros []; fail).
  - intros ->. reflexivity.
  - intros [-> He]. unfold SFltb, SFcompare.
    rewrite (proj2 (Z.compare_lt_iff (-17) e)) by lia. reflexivity.
Qed.

Lemma large_as_weaken a b x : a <= b -> large_as b x -> large_as a x.
Proof. destruct x; simpl; intuition lia. Qed.

Lemma agrees_below_128 : forallb agrees_at (seq 1 127) = true.
Proof. vm_compute. reflexivity. Qed.

Lemma ltb_100_small q :
  Zpos q < 128 ->
  SFltb (S754_finite false 13107200 (-17)) (conv (Zpos q)) = (100 <? Zpos q).
Proof.
  intros H.
  pose proof (proj1 (forallb_forall agrees_at (seq 1 127)) agrees_below_128
                (Pos.to_nat q)) as Hq.
  unfold agrees_at in Hq. rewrite positive_nat_Z in Hq.
  apply eqb_prop, Hq, in_seq. lia.
Qed.

Lemma ltb_100_conv z :
  SFltb (S754_finite false 13107200 (-17)) (conv z) = (100 <? z).
Proof.
  destruct z as [|q|q].
  - reflexivity.
  - destruct (Z_lt_le_dec (Zpos q) 128) as [H|H]; [apply ltb_100_small, H|].
    rewrite (proj2 (Z.ltb_lt 100 (Zpos q))) by lia.
    apply ltb_100_large. apply large_as_weaken with (Zpos (digits2_pos q) - 24);
      [|apply conv_large].
    pose proof (digits2_pos_bounds q) as [_ Hhi].
    assert (7 < Zpos (digits2_pos q)); [|lia].
    apply (Z.pow_lt_mono_r_iff 2); [lia | lia |].
    change (2 ^ 7) with 128. lia.
  - rewrite ltb_100_negative by apply conv_neg_sign. reflexivity.
Qed.

Lemma fmin_binary32 (m : Z) :
  fmin (of_int m) (@MAX_VOLUME float _) = of_int (Z.min m 100).
Proof.
  unfold fmin, MAX_VOLUME. rewrite lit_100_1. cbv [fltb of_int Binary32.arith].
  rewrite ltb_100_conv.
  destruct (100 <? m) eqn:E.
  - apply Z.ltb_lt in E. rewrite Z.min_r by lia. reflexivity.
  - apply Z.ltb_ge in E. rewrite Z.min_l by lia. reflexivity.
Qed.

(** ** Exact arithmetic: the convergence step *)

Section ExactFacts.

Local Open Scope Q_scope.

Lemma qltb_true a b : qltb a b = true <-> a < b.
Proof.
  unfold qltb. rewrite negb_true_iff, <- not_true_iff_false, Qle_bool_iff.
  split; [apply Qnot_le_lt | apply Qlt_not_le].
Qed.

Lemma qltb_false a b : qltb a b = false <-> b <= a.
Proof.
  unfold qltb. rewrite negb_false_iff. apply Qle_bool_iff.
Qed.

Lemma far_from_target_false (s : AdaptiveVolumeControl Q) :
  far_from_target s = false <-> gap s <= (1 # 2).
Proof.
  unfold far_from_target, gap. simpl. rewrite qltb_false.
  setoid_replace (5 # 10) with (1 # 2) by reflexivity. reflexivity.
Qed.

End ExactFacts.

(** ** Bounds in exact arithmetic *)

Section ExactBounds.

Local Open Scope Q_scope.

Lemma clampAdaptive_exact (x : Q) : 0 <= clampAdaptive x <= 80.
Proof.
  unfold clampAdaptive, MIN_VOLUME, MAX_ADAPTIVE_VOLUME. cbv [fltb lit Exact.arith].
  destruct (qltb x (0 # 1)) eqn:E1;
    [ destruct (qltb (80 # 1) (0 # 1)) eqn:E2 | destruct (qltb (80 # 1) x) eqn:E2 ];
    rewrite ?qltb_true, ?qltb_false in *; split; lra.
Qed.

Lemma fmin_exact (m : Z) :
  fmin (of_int m) (@MAX_VOLUME Q _) = inject_Z (Z.min m 100).
Proof.
  unfold fmin, MAX_VOLUME. cbv [fltb lit of_int Exact.arith].
  change (100 # 1) with (inject_Z 100).
  destruct (qltb (inject_Z 100) (inject_Z m)) eqn:E.
  - apply qltb_true in E. rewrite <- Zlt_Qlt in E. rewrite Z.min_r by lia. reflexivity.
  - apply qltb_false in E. rewrite <- Zle_Qle in E. rewrite Z.min_l by lia. reflexivity.
Qed.

End ExactBounds.

(** ** The modifier pipeline, for any arithmetic *)

Section Pipeline.

Context {F : Type} {A : Arith F}.

Implicit Types s : AdaptiveVolumeControl F.

Lemma calculateTargetVolume_adaptive s :
  controlType s = ADAPTIVE ->
  targetVolume (calculateTargetVolume s) = clampAdaptive (beforeClamp s).
Proof. unfold calculateTargetVolume. intros ->. reflexivity. Qed.

Lemma gearOrBraking_reverse s (x : F) :
  reverseGear s = true -> gearOrBraking s x = fmul x (lit 25 100).
Proof. unfold gearOrBraking. intros ->. reflexivity. Qed.

Lemma gearOrBraking_forward s (x : F) :
  reverseGear s = false ->
  Int32.in_range (previousSpeed s - speed s) ->
  gearOrBraking s x =
    if 10 <? previousSpeed s - speed s then fmul x (lit 5 10)
    else if speed s <? previousSpeed s then fmul x (lit 9 10)
    else x.
Proof.
  unfold gearOrBraking. intros -> Hr. rewrite (wrap32_in_range _ Hr). reflexivity.
Qed.

Lemma update_before_clamp s newSpeed newNoise rev horn nav md m now :
  let s' := update s newSpeed newNoise rev horn nav md ADAPTIVE m now in
  targetVolume s' = clampAdaptive (beforeClamp s').
Proof.
  cbv zeta. rewrite (update_target_adaptive s newSpeed newNoise rev horn nav md m now).
  apply applyVolumeModifiers_stages.
Qed.

Lemma beforeClamp_quiet s : beforeClamp (quiet s) = gearOrBraking s (baseVolumeOf s).
Proof. reflexivity. Qed.

Lemma beforeClamp_ducked s :
  hornDuckActive s = true -> navSpeaking s = true ->
  beforeClamp s =
    gearOrBraking s (fmul (fmul (baseVolumeOf s) HORN_DUCK_MULTIPLIER) (lit 5 10)).
Proof. unfold beforeClamp, hornNavDucking. intros -> ->. reflexivity. Qed.

Lemma hornNavDucking_ext s1 s2 (x : F) :
  hornDuckActive s1 = hornDuckActive s2 -> navSpeaking s1 = navSpeaking s2 ->
  hornNavDucking s1 x = hornNavDucking s2 x.
Proof. unfold hornNavDucking. intros -> ->. reflexivity. Qed.

Lemma baseVolumeOf_ext s1 s2 :
  speed s1 = speed s2 -> cabinNoise s1 = cabinNoise s2 -> mode s1 = mode s2 ->
  baseVolumeOf s1 = baseVolumeOf s2.
Proof. unfold baseVolumeOf. intros -> -> ->. reflexivity. Qed.

Lemma update_duck_active s newSpeed newNoise rev horn nav md ct m now :
  hornDuckActive (update s newSpeed newNoise rev horn nav md ct m now)
    = if horn then true
      else hornDuckActive s && negb (Clock.expired (hornDuckStartTime s) now).
Proof.
  destruct horn; [|apply update_horn_false_active].
  apply (update_horn_true s newSpeed newNoise rev nav md ct m now).
Qed.

End Pipeline.

(** ** A stalled convergence in binary32 *)

Lemma stalled_far : far_from_target stalled = true.
Proof. vm_compute. reflexivity. Qed.

Lemma stalled_fixed : smoothVolumeTransition stalled = stalled.
Proof. vm_compute. reflexivity. Qed.

Lemma stalled_loop fuel : smooth_loop fuel stalled = None.
Proof.
  induction fuel as [|fuel IH].
  - rewrite smooth_loop_O, stalled_far. reflexivity.
  - rewrite smooth_loop_S, stalled_far, stalled_fixed. exact IH.
Qed.

Lemma far_manual_all_far : all_far 60 far_manual = true.
Proof. vm_compute. reflexivity. Qed.

Lemma far_manual_loop fuel : smooth_loop fuel far_manual = None.
Proof.
  destruct (le_lt_dec 60 fuel) as [H|H].
  - assert (E : fuel = (60 + (fuel - 60))%nat) by lia.
    rewrite E, (smooth_loop_all_far 60 far_manual _ far_manual_all_far).
    apply stalled_loop.
  - apply smooth_loop_too_short with 60%nat; [exact far_manual_all_far | exact H].
Qed.

Lemma steps_reachable {F} {A : Arith F} k : forall s : AdaptiveVolumeControl F,
  reachable s -> reachable (steps k s).
Proof.
  induction k as [|k IH]; intros s H; [exact H|].
  apply IH, reach_step, H.
Qed.

(** ** The scenario of [test.cpp], evaluated *)

(** Test 1. *)
Example test_1_initial_values :
  getCurrentVolume UnitTests.avc1 = of_int 25 /\ getTargetVolume UnitTests.avc1 = of_int 25.
Proof. vm_compute. split; reflexivity. Qed.

(** Tests 2 to 4: manual levels 50, 100 and 150. *)
Example test_2_to_4_manual :
  getTargetVolume UnitTests.avc2 = of_int 50 /\
  getTargetVolume UnitTests.avc3 = of_int 100 /\
  getTargetVolume UnitTests.avc4 = of_int 100.
Proof. vm_compute. repeat split. Qed.

(** Tests 5 to 7: automatic policy, with both clamps. *)
Example test_5_to_7_adaptive :
  UnitTests.near (getTargetVolume UnitTests.avc5) (of_int 45) = true /\
  getTargetVolume UnitTests.avc6 = of_int 80 /\
  UnitTests.near (getTargetVolume UnitTests.avc7) (of_int 2) = true.
Proof. vm_compute. repeat split. Qed.

(** Tests 8 to 10: horn pressed; horn released 600 ms later, where the
    test expects the unducked level; navigation. *)
Example test_8_to_10_events :
  UnitTests.near (getTargetVolume UnitTests.avc8) (of_int 27) = true /\
  UnitTests.near (getTargetVolume UnitTests.avc9) (of_int 45) = true /\
  UnitTests.near (getTargetVolume UnitTests.avc10) (fmul (of_int 45) (lit 5 10)) = true.
Proof. vm_compute. repeat split. Qed.

(** The ducking window ends at 0.5 s exactly. *)
Example horn_duck_window_boundary :
  Clock.expired 0 499999999 = false /\ Clock.expired 0 500000000 = true.
Proof.
  vm_compute. split; reflexivity.
Qed.

(** Beyond the range of [int] the subtraction wraps: a remembered speed of
    [INT_MAX] and a new speed of [-1] give a negative [speedDiff], and the
    mild factor is applied.  In C++ this subtraction is undefined. *)
Example speed_difference_wraps :
  let s : AdaptiveVolumeControl float :=
    update (init 0) Int32.max_int 30 false false false COMFORT ADAPTIVE 0 0 in
  Int32.wrap32 (speed s - (-1)) = Int32.min_int /\
  targetVolume (update s (-1) 30 false false false COMFORT ADAPTIVE 0 0)
    = clampAdaptive (fmul (lit 31 1) (lit 9 10)).
Proof.
  vm_compute. split; reflexivity.
Qed.

(** A run that [descends] accepts is a run of the loop that ends. *)
Lemma descends_terminates fuel : forall s,
  descends fuel s = true -> exists s', printAndSmooth fuel s = Some s'.
Proof.
  unfold printAndSmooth.
  induction fuel as [|fuel IH]; intros s.
  - rewrite smooth_loop_O. cbn [descends].
    destruct (far_from_target s); [discriminate | eauto].
  - rewrite smooth_loop_S. cbn [descends].
    destruct (far_from_target s); [|eauto].
    intros H. apply andb_true_iff in H as [_ H]. apply IH, H.
Qed.

(** Binary32, on a sample of ordinary levels: from every pair of levels
    among 0, 5, ..., 100 the loop ends within 20 steps, each step strictly
    reducing the distance without passing the target. *)
Example sampled_levels_converge (c t : Z) :
  In c sample_levels -> In t sample_levels ->
  descends 20 (level_pair c t) = true /\
  exists s', printAndSmooth 20 (level_pair c t) = Some s'.
Proof.
  intros Hc Ht.
  assert (H : forallb (fun c => forallb (fun t => descends 20 (level_pair c t))
                                  sample_levels) sample_levels = true)
    by (vm_compute; reflexivity).
  pose proof (proj1 (forallb_forall _ _) (proj1 (forallb_forall _ _) H c Hc) t Ht) as Hd.
  split; [exact Hd | apply descends_terminates, Hd].
Qed.

(** * Rounding, runs and the driver loop *)

(** ** Conversion to [double] and the expiry test *)

Section Digits.

Lemma Zdigits2_le m n : 0 < m -> m < 2 ^ n -> Zdigits2 m <= n.
Proof.
  intros Hm H. destruct m as [|q|q]; try lia. simpl.
  pose proof (digits2_pos_bounds q) as [Hlo _].
  destruct (Z_lt_le_dec n (Zpos (digits2_pos q))) as [Hc|Hc]; [|exact Hc].
  exfalso. assert (2 ^ n <= 2 ^ (Zpos (digits2_pos q) - 1)).
  { destruct (Z_lt_le_dec n 0) as [Hn|Hn].
    - rewrite Z.pow_neg_r in H by exact Hn. lia.
    - apply Z.pow_le_mono_r; lia. }
  lia.
Qed.

Lemma Zdigits2_ge m n : 2 ^ (n - 1) <= m -> 0 < n -> n <= Zdigits2 m.
Proof.
  intros H Hn.
  assert (0 < 2 ^ (n - 1)) by (apply Z.pow_pos_nonneg; lia).
  destruct m as [|q|q]; try lia. simpl.
  pose proof (digits2_pos_bounds q) as [_ Hhi].
  destruct (Z_lt_le_dec (Zpos (digits2_pos q)) n) as [Hc|Hc]; [|exact Hc].
  exfalso. assert (2 ^ Zpos (digits2_pos q) <= 2 ^ (n - 1))
    by (apply Z.pow_le_mono_r; lia).
  lia.
Qed.

Lemma Zdigits2_eq m n : 0 < n -> 2 ^ (n - 1) <= m < 2 ^ n -> Zdigits2 m = n.
Proof.
  intros Hn [H1 H2].
  assert (0 < 2 ^ (n - 1)) by (apply Z.pow_pos_nonneg; lia).
  pose proof (Zdigits2_le m n ltac:(lia) H2).
  pose proof (Zdigits2_ge m n H1 Hn). lia.
Qed.

End Digits.

Section RoundAux.
Variables p emx : Z.
Hypothesis p_pos : 0 < p.

Lemma loc_of_shr_record_of_loc m l : loc_of_shr_record (shr_record_of_loc m l) = l.
Proof. destruct l as [|[ | | ]]; reflexivity. Qed.

Lemma round_nearest_even_le m l : round_nearest_even m l <= m + 1.
Proof.
  destruct l as [|[ | | ]]; simpl; try lia. destruct (Z.even m); lia.
Qed.

(** no shift *)
Lemma shr_fexp_fits m ex l :
  0 < m -> m < 2 ^ p -> emin p emx <= ex ->
  shr_fexp p emx m ex l = (shr_record_of_loc m l, ex).
Proof.
  intros Hm Hp He. unfold shr_fexp, shr, fexp.
  pose proof (Zdigits2_le m p Hm Hp).
  destruct (Z.max (Zdigits2 m + ex - p) (emin p emx) - ex) eqn:E; try reflexivity. lia.
Qed.

(** one shift *)
Lemma shr_fexp_one m ex l :
  2 ^ p <= m < 2 ^ (p + 1) -> emin p emx <= ex ->
  shr_fexp p emx m ex l = (shr_1 (shr_record_of_loc m l), ex + 1).
Proof.
  intros Hm He. unfold shr_fexp, shr, fexp.
  assert (Hd : Zdigits2 m = p + 1).
  { apply Zdigits2_eq; [lia|]. replace (p + 1 - 1) with p by lia. exact Hm. }
  rewrite Hd.
  replace (Z.max (p + 1 + ex - p) (emin p emx) - ex) with 1 by lia.
  reflexivity.
Qed.

(** A mantissa that fits, and still fits once rounded, keeps its
    exponent. *)
Lemma binary_round_aux_fits sx m ex l :
  0 < m -> round_nearest_even m l < 2 ^ p ->
  emin p emx <= ex -> ex <= emx - p ->
  binary_round_aux p emx sx m ex l
    = S754_finite sx (Z.to_pos (round_nearest_even m l)) ex.
Proof.
  intros Hm Hr He Hx. unfold binary_round_aux.
  pose proof (round_nearest_even_ge m l) as Hge.
  rewrite shr_fexp_fits by lia.
  rewrite shr_record_of_loc_m, loc_of_shr_record_of_loc.
  rewrite shr_fexp_fits by lia.
  simpl shr_m.
  destruct (round_nearest_even m l) as [|r|r] eqn:Er; try lia.
  rewrite (proj2 (Z.leb_le ex (emx - p))) by exact Hx. reflexivity.
Qed.

(** What [shr_fexp] computes, in the normal range. *)
Lemma shr_fexp_value m ex l :
  0 < m -> emin p emx <= ex ->
  shr_m (fst (shr_fexp p emx m ex l)) = m / 2 ^ Z.max 0 (Zdigits2 m - p) /\
  snd (shr_fexp p emx m ex l) = ex + Z.max 0 (Zdigits2 m - p).
Proof.
  intros Hm He. unfold shr_fexp, shr, fexp.
  destruct (Z.max (Zdigits2 m + ex - p) (emin p emx) - ex) as [|n|n] eqn:En;
    simpl fst; simpl snd.
  - replace (Z.max 0 (Zdigits2 m - p)) with 0 by lia.
    rewrite shr_record_of_loc_m, Z.pow_0_r, Z.div_1_r. lia.
  - replace (Z.max 0 (Zdigits2 m - p)) with (Zpos n) by lia.
    rewrite iter_shr_1_div by (rewrite shr_record_of_loc_m; lia).
    rewrite shr_record_of_loc_m. lia.
  - replace (Z.max 0 (Zdigits2 m - p)) with 0 by lia.
    rewrite shr_record_of_loc_m, Z.pow_0_r, Z.div_1_r. lia.
Qed.

(** The mantissa kept by the shift has at most [p] digits, and exactly
    [p] when the input had at least [p]. *)
Lemma shifted_mantissa m :
  0 < m ->
  let n := Z.max 0 (Zdigits2 m - p) in
  0 < m / 2 ^ n < 2 ^ p /\
  (2 ^ (p - 1) <= m -> 2 ^ (p - 1) <= m / 2 ^ n).
Proof.
  intros Hm n.
  destruct m as [|q|q]; try lia.
  pose proof (digits2_pos_bounds q) as [Hlo Hhi].
  change (Zpos (digits2_pos q)) with (Zdigits2 (Zpos q)) in Hlo, Hhi.
  set (d := Zdigits2 (Zpos q)) in *.
  assert (Hd : 1 <= d) by (unfold d; simpl; lia).
  assert (Hn : 0 < 2 ^ n) by (apply Z.pow_pos_nonneg; lia).
  destruct (Z_le_gt_dec d p) as [Hc|Hc].
  - replace n with 0 by lia. rewrite Z.pow_0_r, Z.div_1_r.
    split; [|auto]. split; [lia|].
    apply Z.lt_le_trans with (2 ^ d); [exact Hhi|]. apply Z.pow_le_mono_r; lia.
  - assert (En : n = d - p) by lia.
    assert (E1 : 2 ^ d = 2 ^ p * 2 ^ n)
      by (rewrite <- Z.pow_add_r by lia; f_equal; lia).
    assert (E2 : 2 ^ (d - 1) = 2 ^ (p - 1) * 2 ^ n)
      by (rewrite <- Z.pow_add_r by lia; f_equal; lia).
    assert (H1 : 2 ^ (p - 1) <= Zpos q / 2 ^ n)
      by (apply Z.div_le_lower_bound; [exact Hn | lia]).
    assert (0 < 2 ^ (p - 1)) by (apply Z.pow_pos_nonneg; lia).
    split; [|auto]. split; [lia|].
    apply Z.div_lt_upper_bound; [exact Hn | lia].
Qed.

(** [binary_round_aux] on a positive mantissa in the normal range: shift,
    round to nearest even, shift again. *)
Lemma binary_round_aux_spec sx m ex l :
  0 < m -> emin p emx <= ex ->
  exists m1 : Z,
    let n := Z.max 0 (Zdigits2 m - p) in
    let n2 := Z.max 0 (Zdigits2 m1 - p) in
    m / 2 ^ n <= m1 <= m / 2 ^ n + 1 /\
    0 < m1 / 2 ^ n2 /\
    binary_round_aux p emx sx m ex l =
      if ex + n + n2 <=? emx - p
      then S754_finite sx (Z.to_pos (m1 / 2 ^ n2)) (ex + n + n2)
      else S754_infinity sx.
Proof.
  intros Hm He. unfold binary_round_aux.
  destruct (shr_fexp_value m ex l Hm He) as [V1 V2].
  destruct (shifted_mantissa m Hm) as [[S1 S2] _].
  destruct (shr_fexp p emx m ex l) as [mrs' e'] eqn:E1. simpl in V1, V2.
  set (m1 := round_nearest_even (shr_m mrs') (loc_of_shr_record mrs')).
  pose proof (round_nearest_even_ge (shr_m mrs') (loc_of_shr_record mrs')) as R1.
  pose proof (round_nearest_even_le (shr_m mrs') (loc_of_shr_record mrs')) as R2.
  fold m1 in R1, R2.
  assert (Hm1 : 0 < m1) by lia.
  destruct (shr_fexp_value m1 e' loc_Exact Hm1 ltac:(lia)) as [V3 V4].
  destruct (shifted_mantissa m1 Hm1) as [[S3 S4] _].
  destruct (shr_fexp p emx m1 e' loc_Exact) as [mrs'' e''] eqn:E2. simpl in V3, V4.
  exists m1. cbv zeta. rewrite <- V1.
  split; [lia|]. split; [exact S3|].
  rewrite V3, V4, V2.
  destruct (m1 / 2 ^ Z.max 0 (Zdigits2 m1 - p)) as [|r|r] eqn:Er; try lia.
  reflexivity.
Qed.

End RoundAux.

Lemma half_double_eq : Clock.HORN_DUCK_DURATION = half_double.
Proof. vm_compute. reflexivity. Qed.

Lemma billion_eq :
  Clock.to_double Clock.ticks_per_second = S754_finite false billion_mantissa (-23).
Proof. vm_compute. reflexivity. Qed.

Lemma Zpos_iter_xO q n : Zpos (Pos.iter xO q n) = Zpos q * 2 ^ Zpos n.
Proof.
  induction n as [|n IH] using Pos.peano_ind.
  - simpl. lia.
  - rewrite Pos.iter_succ, Pos2Z.inj_xO, IH, Pos2Z.inj_succ, Z.pow_succ_r by lia. ring.
Qed.

(** The conversion of a positive integer to [double]: exact when the
    integer has at most 53 bits. *)
Lemma to_double_exact q :
  let k := Zpos (digits2_pos q) in
  k <= 53 ->
  exists mx,
    Clock.to_double (Zpos q) = S754_finite false mx (k - 53) /\
    Zpos mx = Zpos q * 2 ^ (53 - k) /\ 2 ^ 52 <= Zpos mx < 2 ^ 53.
Proof.
  intros k Hk53. pose proof (digits2_pos_bounds q) as [Hlo Hhi]. fold k in Hlo, Hhi.
  assert (Hk : 1 <= k) by (unfold k; lia).
  assert (Hp : 0 < 2 ^ (53 - k)) by (apply Z.pow_pos_nonneg; lia).
  assert (E1 : 2 ^ 53 = 2 ^ k * 2 ^ (53 - k))
    by (rewrite <- Z.pow_add_r by lia; f_equal; lia).
  assert (E2 : 2 ^ 52 = 2 ^ (k - 1) * 2 ^ (53 - k))
    by (rewrite <- Z.pow_add_r by lia; f_equal; lia).
  unfold Clock.to_double, binary_normalize, binary_round, shl_align, fexp.
  fold k.
  replace (Z.max (k + 0 - 53) (emin 53 1024)) with (k - 53) by (unfold emin; lia).
  destruct (k - 53 - 0) as [|n|n] eqn:En; try lia.
  - exists q.
    assert (E0 : 53 - k = 0) by lia. rewrite E0, Z.pow_0_r in *.
    rewrite (binary_round_aux_fits 53 1024 eq_refl false (Zpos q) 0 loc_Exact);
      try (unfold emin; simpl round_nearest_even; lia).
    simpl round_nearest_even. simpl Z.to_pos.
    replace (k - 53) with 0 by lia. repeat split; lia.
  - exists (Pos.iter xO q n).
    assert (En' : Zpos n = 53 - k) by lia.
    assert (Hv : Zpos (Pos.iter xO q n) = Zpos q * 2 ^ (53 - k))
      by (rewrite Zpos_iter_xO, En'; reflexivity).
    rewrite (binary_round_aux_fits 53 1024 eq_refl false _ (k - 53) loc_Exact);
      try (unfold emin; simpl round_nearest_even; lia).
    + simpl round_nearest_even. simpl Z.to_pos. repeat split; try lia; nia.
    + simpl round_nearest_even. nia.
Qed.

(** Beyond 53 bits the conversion rounds to a 53-bit mantissa with a
    positive exponent, or overflows. *)
Lemma to_double_big q :
  let k := Zpos (digits2_pos q) in
  53 < k ->
  Clock.to_double (Zpos q) = S754_infinity false \/
  exists mx ex,
    Clock.to_double (Zpos q) = S754_finite false mx ex /\
    2 ^ 52 <= Zpos mx < 2 ^ 53 /\ k - 53 <= ex.
Proof.
  intros k Hk53. pose proof (digits2_pos_bounds q) as [Hlo Hhi]. fold k in Hlo, Hhi.
  unfold Clock.to_double, binary_normalize, binary_round, shl_align, fexp.
  fold k.
  replace (Z.max (k + 0 - 53) (emin 53 1024)) with (k - 53) by (unfold emin; lia).
  destruct (k - 53 - 0) as [|n|n] eqn:En; try lia.
  destruct (binary_round_aux_spec 53 1024 eq_refl false (Zpos q) 0 loc_Exact)
    as (m1 & B1 & B2 & ->); [lia | unfold emin; lia |].
  cbv zeta in B1. change (Zdigits2 (Zpos q)) with k in *.
  destruct (shifted_mantissa 53 eq_refl (Zpos q) ltac:(lia)) as [[S1 S2] S3].
  cbv zeta in S1, S2, S3. change (Zdigits2 (Zpos q)) with k in *.
  assert (H52 : 2 ^ 52 <= Zpos q).
  { apply Z.le_trans with (2 ^ (k - 1)); [apply Z.pow_le_mono_r; lia | exact Hlo]. }
  specialize (S3 H52).
  assert (Hm1 : 0 < m1) by lia.
  destruct (shifted_mantissa 53 eq_refl m1 Hm1) as [[T1 T2] T3]. cbv zeta in T1, T2, T3.
  specialize (T3 ltac:(change (53 - 1) with 52 in *; lia)).
  destruct (0 + Z.max 0 (k - 53) + Z.max 0 (Zdigits2 m1 - 53) <=? 1024 - 53);
    [right | left; reflexivity].
  eexists _, _. split; [reflexivity|].
  rewrite Z2Pos.id by lia. change (53 - 1) with 52 in *. repeat split; lia.
Qed.

Lemma div_eucl_div_mod a b : Z.div_eucl a b = (a / b, a mod b).
Proof. unfold Z.div, Z.modulo. destruct (Z.div_eucl a b). reflexivity. Qed.

(** Division of a [double] with a 53-bit mantissa by 10^9. *)
Lemma div_by_billion mx ex :
  2 ^ 52 <= Zpos mx < 2 ^ 53 -> -1000 <= ex ->
  exists l,
    SFdiv 53 1024 (S754_finite false mx ex) (S754_finite false billion_mantissa (-23))
      = binary_round_aux 53 1024 false
          (Zpos mx * 2 ^ 53 / Zpos billion_mantissa) (ex - 30) l.
Proof.
  intros Hm He. unfold SFdiv, SFdiv_core_binary.
  rewrite (Zdigits2_eq (Zpos mx) 53) by (change (53 - 1) with 52; lia).
  change (Zdigits2 (Zpos billion_mantissa)) with 53.
  unfold fexp.
  replace (Z.min (Z.max (53 + ex - (53 + -23) - 53) (emin 53 1024)) (ex - -23))
    with (ex - 30) by (unfold emin; lia).
  replace (ex - -23 - (ex - 30)) with 53 by lia.
  rewrite Z.shiftl_mul_pow2 by lia.
  rewrite div_eucl_div_mod. eexists. reflexivity.
Qed.

(** Comparison of 0.5 with a rounded positive value. *)
Lemma leb_half_round m ex l :
  2 ^ 52 <= m -> emin 53 1024 <= ex ->
  exists m1 : Z,
    let n := Z.max 0 (Zdigits2 m - 53) in
    let n2 := Z.max 0 (Zdigits2 m1 - 53) in
    m / 2 ^ n <= m1 <= m / 2 ^ n + 1 /\
    SFleb half_double (binary_round_aux 53 1024 false m ex l)
      = (-53 <=? ex + n + n2).
Proof.
  intros Hm He.
  destruct (binary_round_aux_spec 53 1024 eq_refl false m ex l) as (m1 & B1 & B2 & ->);
    [lia | exact He |].
  exists m1. cbv zeta in *. split; [exact B1|].
  destruct (shifted_mantissa 53 eq_refl m ltac:(lia)) as [_ S3]. cbv zeta in S3.
  specialize (S3 Hm).
  destruct (shifted_mantissa 53 eq_refl m1 ltac:(lia)) as [_ T3]. cbv zeta in T3.
  specialize (T3 ltac:(change (53 - 1) with 52 in *; lia)).
  change (53 - 1) with 52 in *.
  set (E := ex + Z.max 0 (Zdigits2 m - 53) + Z.max 0 (Zdigits2 m1 - 53)) in *.
  destruct (E <=? 1024 - 53) eqn:Ef.
  - unfold SFleb, SFcompare, half_double.
    destruct (Z.compare_spec (-53) E) as [Hc|Hc|Hc].
    + rewrite (proj2 (Z.leb_le (-53) E)) by lia.
      destruct (Pos.compare_cont Eq 4503599627370496
                  (Z.to_pos (m1 / 2 ^ Z.max 0 (Zdigits2 m1 - 53)))) eqn:Ec;
        try reflexivity.
      exfalso. change (Pos.compare_cont Eq ?a ?b) with (Pos.compare a b) in Ec.
      apply Pos.compare_gt_iff, Pos2Z.pos_lt_pos in Ec. rewrite Z2Pos.id in Ec by lia.
      change (2 ^ 52) with 4503599627370496 in T3. lia.
    + rewrite (proj2 (Z.leb_le (-53) E)) by lia. reflexivity.
    + rewrite (proj2 (Z.leb_gt (-53) E)) by lia. reflexivity.
  - apply Z.leb_gt in Ef. rewrite (proj2 (Z.leb_le (-53) E)) by lia. reflexivity.
Qed.

(** The exponent the two shifts add, for a quotient between 2^52 and
    2^54. *)
Lemma quotient_shifts m m1 :
  2 ^ 52 <= m < 2 ^ 54 - 2 ->
  let n := Z.max 0 (Zdigits2 m - 53) in
  let n2 := Z.max 0 (Zdigits2 m1 - 53) in
  m / 2 ^ n <= m1 <= m / 2 ^ n + 1 ->
  0 <= n + n2 <= 1 /\ (2 ^ 53 <= m -> n = 1) /\ (m + 1 < 2 ^ 53 -> n + n2 = 0).
Proof.
  intros Hm n n2. subst n n2.
  change (2 ^ 52) with 4503599627370496 in *.
  change (2 ^ 54) with 18014398509481984 in *.
  destruct (Z_lt_le_dec m (2 ^ 53)) as [Hc|Hc].
  - rewrite (Zdigits2_eq m 53) by (change (53 - 1) with 52;
      change (2 ^ 52) with 4503599627370496; lia).
    change (Z.max 0 (53 - 53)) with 0. rewrite Z.pow_0_r, Z.div_1_r. intros Hm1.
    change (2 ^ 53) with 9007199254740992 in *.
    pose proof (Zdigits2_le m1 54 ltac:(lia)
                  ltac:(change (2 ^ 54) with 18014398509481984; lia)).
    assert (0 < Zdigits2 m1) by (destruct m1; simpl; lia).
    split; [lia|]. split; [lia|]. intros Hs.
    pose proof (Zdigits2_le m1 53 ltac:(lia)
                  ltac:(change (2 ^ 53) with 9007199254740992; lia)). lia.
  - rewrite (Zdigits2_eq m 54) by (change (54 - 1) with 53;
      change (2 ^ 54) with 18014398509481984; lia).
    change (Z.max 0 (54 - 53)) with 1. rewrite Z.pow_1_r. intros Hm1.
    change (2 ^ 53) with 9007199254740992 in *.
    assert (9007199254740992 / 2 <= m / 2) by (apply Z.div_le_mono; lia).
    assert (m / 2 <= 18014398509481981 / 2) by (apply Z.div_le_mono; lia).
    change (9007199254740992 / 2) with 4503599627370496 in *.
    change (18014398509481981 / 2) with 9007199254740990 in *.
    pose proof (Zdigits2_le m1 53 ltac:(lia)
                  ltac:(change (2 ^ 53) with 9007199254740992; lia)).
    assert (0 < Zdigits2 m1) by (destruct m1; simpl; lia).
    split; [lia|]. split; lia.
Qed.

Lemma leb_half_negative x :
  signed_as true x -> SFleb half_double x = false.
Proof.
  destruct x as [s|s| |s m e]; simpl; try (intros ->; reflexivity). intros [].
Qed.

Lemma to_double_neg_sign q : signed_as true (Clock.to_double (Zneg q)).
Proof.
  unfold Clock.to_double, binary_normalize, binary_round.
  destruct (shl_align _ _ _) as [mz ez]. apply binary_round_aux_sign. lia.
Qed.

Lemma div_negative_sign x :
  signed_as true x ->
  signed_as true (SFdiv 53 1024 x (S754_finite false billion_mantissa (-23))).
Proof.
  destruct x as [s|s| |s m e]; simpl;
    [intros ->; reflexivity | intros ->; reflexivity | intros [] | ].
  intros ->. unfold SFdiv_core_binary.
  destruct (Z.div_eucl _ _) as [qz r] eqn:E.
  apply binary_round_aux_sign.
  rewrite div_eucl_div_mod in E. injection E as <- _.
  apply Z.div_pos; [|reflexivity].
  destruct (_ - _ - _); try lia. rewrite Z.shiftl_mul_pow2 by lia.
  apply Z.mul_nonneg_nonneg; [lia | apply Z.pow_nonneg; lia].
Qed.

(** The ducking window ends exactly 500 000 000 ticks after its start. *)
Lemma expired_iff start now :
  Clock.expired start now = (500000000 <=? now - start).
Proof.
  unfold Clock.expired, Clock.elapsed. rewrite half_double_eq, billion_eq.
  destruct (now - start) as [|q|q].
  - vm_compute. reflexivity.
  - pose proof (digits2_pos_bounds q) as [Hlo Hhi].
    set (k := Zpos (digits2_pos q)) in *.
    assert (Hk : 1 <= k) by (unfold k; lia).
    destruct (Z_le_gt_dec k 53) as [Hc|Hc].
    + destruct (to_double_exact q Hc) as (mx & -> & Hv & Hmx). fold k in Hv |- *.
      destruct (div_by_billion mx (k - 53) Hmx ltac:(lia)) as [l ->].
      set (Q := Zpos mx * 2 ^ 53 / Zpos billion_mantissa) in *.
      assert (HQ : 2 ^ 52 <= Q < 2 ^ 54 - 2).
      { unfold Q, billion_mantissa.
        change (2 ^ 52) with 4503599627370496 in *.
        change (2 ^ 53) with 9007199254740992 in *.
        change (2 ^ 54) with 18014398509481984 in *.
        split; [apply Z.div_le_lower_bound | apply Z.div_lt_upper_bound]; lia. }
      destruct (leb_half_round Q (k - 53 - 30) l (proj1 HQ) ltac:(unfold emin; lia))
        as (m1 & B1 & ->).
      cbv zeta in B1.
      destruct (quotient_shifts Q m1 HQ B1) as (R1 & R2 & R3).
      destruct (Z_le_gt_dec 31 k) as [H31|H31].
      { assert (2 ^ 30 <= 2 ^ (k - 1)) by (apply Z.pow_le_mono_r; lia).
        change (2 ^ 30) with 1073741824 in *.
        rewrite (proj2 (Z.leb_le _ _)) by lia.
        rewrite (proj2 (Z.leb_le _ _)) by lia. reflexivity. }
      destruct (Z_le_gt_dec k 28) as [H28|H28].
      { assert (2 ^ k <= 2 ^ 28) by (apply Z.pow_le_mono_r; lia).
        change (2 ^ 28) with 268435456 in *.
        rewrite (proj2 (Z.leb_gt _ _)) by lia.
        rewrite (proj2 (Z.leb_gt _ _)) by lia. reflexivity. }
      destruct (Z.eq_dec k 30) as [H30|H30].
      { rewrite H30 in Hlo. change (2 ^ (30 - 1)) with 536870912 in Hlo.
        rewrite (proj2 (Z.leb_le _ _)) by lia.
        rewrite (proj2 (Z.leb_le _ _)) by lia. reflexivity. }
      assert (H29 : k = 29) by lia.
      rewrite H29 in *. change (2 ^ (53 - 29)) with 16777216 in Hv.
      change (2 ^ 52) with 4503599627370496 in *.
      change (2 ^ 53) with 9007199254740992 in *.
      change (2 ^ 54) with 18014398509481984 in *.
      destruct (Z_le_gt_dec 500000000 (Zpos q)) as [Hd|Hd].
      * assert (9007199254740992 <= Q).
        { unfold Q, billion_mantissa. apply Z.div_le_lower_bound; lia. }
        rewrite (proj2 (Z.leb_le _ _)) by lia.
        rewrite (proj2 (Z.leb_le _ _)) by lia. reflexivity.
      * assert (Q + 1 < 9007199254740992).
        { assert (Q < 9007199254740991); [|lia].
          unfold Q, billion_mantissa. apply Z.div_lt_upper_bound; lia. }
        rewrite (proj2 (Z.leb_gt _ _)) by lia.
        rewrite (proj2 (Z.leb_gt _ _)) by lia. reflexivity.
    + assert (2 ^ 53 <= 2 ^ (k - 1)) by (apply Z.pow_le_mono_r; lia).
      change (2 ^ 53) with 9007199254740992 in *.
      rewrite (proj2 (Z.leb_le 500000000 (Zpos q))) by lia.
      destruct (to_double_big q ltac:(fold k; lia)) as [-> | (mx & ex & -> & Hmx & Hex)];
        [reflexivity|].
      fold k in Hex.
      destruct (div_by_billion mx ex Hmx ltac:(lia)) as [l ->].
      set (Q := Zpos mx * 2 ^ 53 / Zpos billion_mantissa) in *.
      assert (HQ : 2 ^ 52 <= Q).
      { unfold Q, billion_mantissa.
        change (2 ^ 52) with 4503599627370496 in *.
        change (2 ^ 53) with 9007199254740992 in *.
        apply Z.div_le_lower_bound; lia. }
      destruct (leb_half_round Q (ex - 30) l HQ ltac:(unfold emin; lia))
        as (m1 & B1 & ->).
      apply Z.leb_le. lia.
  - rewrite leb_half_negative
      by (apply div_negative_sign, to_double_neg_sign).
    reflexivity.
Qed.
Section Runs.
Context {F : Type} {A : Arith F}.
Implicit Types s : AdaptiveVolumeControl F.

Lemma update_with_horn_false s i :
  in_horn i = false ->
  hornDuckStartTime (update_with s i) = hornDuckStartTime s /\
  hornDuckActive (update_with s i)
    = hornDuckActive s && (in_now i - hornDuckStartTime s <? 500000000).
Proof.
  unfold update_with. intros ->.
  rewrite update_horn_false_start, update_horn_false_active, expired_iff.
  split; [reflexivity|]. f_equal.
  rewrite Z.leb_antisym. apply negb_involutive.
Qed.

Lemma run_without_horn l : forall s,
  (forall j, In j l -> in_horn j = false) ->
  hornDuckStartTime (run s l) = hornDuckStartTime s /\
  hornDuckActive (run s l)
    = hornDuckActive s && within_window (hornDuckStartTime s) l.
Proof.
  induction l as [|i l IH]; intros s H.
  - simpl. rewrite andb_true_r. auto.
  - destruct (update_with_horn_false s i (H i (or_introl eq_refl))) as [H1 H2].
    destruct (IH (update_with s i) (fun j Hj => H j (or_intror Hj))) as [H3 H4].
    change (run s (i :: l)) with (run (update_with s i) l).
    rewrite H3, H4, H1, H2. split; [reflexivity|].
    simpl. rewrite andb_assoc. reflexivity.
Qed.

Lemma run_app s l1 l2 : run s (l1 ++ l2) = run (run s l1) l2.
Proof. apply fold_left_app. Qed.

Lemma run_current l : forall s, currentVolume (run s l) = currentVolume s.
Proof.
  induction l as [|i l IH]; intros s; [reflexivity|].
  change (run s (i :: l)) with (run (update_with s i) l). rewrite IH.
  apply (update_fields s).
Qed.

Lemma steps_shape k : forall s,
  steps k s = s \/ exists v, steps k s = set_currentVolume s v.
Proof.
  induction k as [|k IH]; intros s; [left; reflexivity|].
  right. simpl steps. destruct (IH (smoothVolumeTransition s)) as [-> | [v ->]].
  - eexists. reflexivity.
  - eexists. reflexivity.
Qed.

Lemma printAndSmooth_final fuel s s' :
  printAndSmooth fuel s = Some s' -> s' = set_currentVolume s (targetVolume s).
Proof.
  unfold printAndSmooth. destruct (smooth_loop fuel s) as [s1|] eqn:E; [|discriminate].
  intros [= <-]. destruct (smooth_loop_steps _ _ _ E) as [_ [k [_ ->]]].
  destruct (steps_shape k s) as [-> | [v ->]]; reflexivity.
Qed.

End Runs.

(** In binary32 a level is never far from itself. *)
Lemma SFsub_diag_not_far (x : float) :
  SFltb (@lit float _ 5 10) (SFabs (SFsub prec emax x x)) = false.
Proof.
  rewrite lit_5_10.
  destruct x as [s|s| |s m e]; try (destruct s; reflexivity); try reflexivity.
  unfold SFsub. rewrite Z.sub_diag. reflexivity.
Qed.

Lemma settled_not_far_binary32 (s : AdaptiveVolumeControl float) :
  currentVolume s = targetVolume s -> far_from_target s = false.
Proof.
  unfold far_from_target. intros ->. apply SFsub_diag_not_far.
Qed.

Lemma settled_not_far_exact (s : AdaptiveVolumeControl Q) :
  currentVolume s = targetVolume s -> far_from_target s = false.
Proof.
  intros H. apply far_from_target_false. unfold gap. rewrite H.
  setoid_replace (targetVolume s - targetVolume s)%Q with 0%Q by ring.
  discriminate.
Qed.

(** ** The driver loop *)

Section Driver.
Context {F : Type} {A : Arith F}.
Implicit Types s : AdaptiveVolumeControl F.

Lemma update_set_current s c newSpeed newNoise rev horn nav md ct m now :
  update (set_currentVolume s c) newSpeed newNoise rev horn nav md ct m now
    = set_currentVolume (update s newSpeed newNoise rev horn nav md ct m now) c.
Proof.
  destruct s as [sp ps cn rg ha ns mo co mv tv cv st act]. open_update.
  destruct ct, horn, act, (Clock.expired st now); reflexivity.
Qed.

Lemma run_set_current l : forall s c,
  run (set_currentVolume s c) l = set_currentVolume (run s l) c.
Proof.
  induction l as [|i l IH]; intros s c; [reflexivity|].
  change (run ?x (i :: l)) with (run (update_with x i) l).
  unfold update_with at 1. rewrite update_set_current. apply IH.
Qed.

Lemma main_loop_run fuel l : forall s i s',
  main_loop fuel s (i :: l) = Some s' ->
  s' = set_currentVolume (run s (i :: l)) (targetVolume (run s (i :: l))).
Proof.
  induction l as [|j l IH]; intros s i s'; cbn [main_loop].
  - destruct (printAndSmooth fuel (update_with s i)) as [s1|] eqn:E; [|discriminate].
    intros [= <-]. apply (printAndSmooth_final _ _ _ E).
  - destruct (printAndSmooth fuel (update_with s i)) as [s1|] eqn:E; [|discriminate].
    intros H. apply (IH s1 j) in H. rewrite H.
    rewrite (printAndSmooth_final _ _ _ E).
    change (run s (i :: j :: l)) with (run (update_with s i) (j :: l)).
    rewrite run_set_current. destruct (run (update_with s i) (j :: l)). reflexivity.
Qed.

Lemma last_cons (l : list Inputs) : forall i j, last (j :: l) i = last l j.
Proof.
  induction l as [|k l IH]; intros i j; [reflexivity|].
  change (last (j :: k :: l) i) with (last (k :: l) i).
  rewrite (IH i k), (IH j k). reflexivity.
Qed.

Lemma run_last l : forall s i,
  exists s0, run s (i :: l) = update_with s0 (last l i).
Proof.
  induction l as [|j l IH]; intros s i; [exists s; reflexivity|].
  change (run s (i :: j :: l)) with (run (update_with s i) (j :: l)).
  destruct (IH (update_with s i) j) as [s0 E]. exists s0.
  rewrite E, last_cons. reflexivity.
Qed.

Lemma update_with_spaced s t i :
  window_before s t -> t + 500000000 <= in_now i ->
  hornDuckActive (update_with s i) = in_horn i /\
  window_before (update_with s i) (in_now i).
Proof.
  intros Hw Ht. unfold update_with, window_before.
  destruct (in_horn i) eqn:Eh.
  - destruct (update_horn_true s (in_speed i) (in_noise i) (in_reverse i) (in_nav i)
                (in_mode i) (in_control i) (in_manual i) (in_now i)) as [H1 H2].
    rewrite H1, H2. split; [reflexivity | lia].
  - rewrite update_horn_false_active, expired_iff.
    assert (E : hornDuckActive s
                && negb (500000000 <=? in_now i - hornDuckStartTime s) = false).
    { destruct (hornDuckActive s) eqn:Ea; [|reflexivity].
      specialize (Hw Ea). cbn [andb]. apply negb_false_iff, Z.leb_le. lia. }
    rewrite E. split; [reflexivity | discriminate].
Qed.

Lemma run_spaced l : forall s t i,
  window_before s t -> spaced t (i :: l) = true ->
  hornDuckActive (run s (i :: l)) = in_horn (last l i).
Proof.
  induction l as [|j l IH]; intros s t i Hw Hs;
    cbn [spaced] in Hs; apply andb_prop in Hs; destruct Hs as [H1 H2];
    apply Z.leb_le in H1;
    destruct (update_with_spaced s t i Hw H1) as [Ha Hw'].
  - exact Ha.
  - change (run s (i :: j :: l)) with (run (update_with s i) (j :: l)).
    rewrite last_cons. exact (IH _ (in_now i) j Hw' H2).
Qed.

Lemma update_with_first s i :
  hornDuckActive s = false ->
  hornDuckActive (update_with s i) = in_horn i /\
  window_before (update_with s i) (in_now i).
Proof.
  intros Hs. unfold update_with, window_before.
  destruct (in_horn i) eqn:Eh.
  - destruct (update_horn_true s (in_speed i) (in_noise i) (in_reverse i) (in_nav i)
                (in_mode i) (in_control i) (in_manual i) (in_now i)) as [H1 H2].
    rewrite H1, H2. split; [reflexivity | lia].
  - rewrite update_horn_false_active, Hs. split; [reflexivity | discriminate].
Qed.

Lemma run_spaced_first l s i :
  hornDuckActive s = false -> spaced (in_now i) l = true ->
  hornDuckActive (run s (i :: l)) = in_horn (last l i).
Proof.
  intros Hs Hl. destruct (update_with_first s i Hs) as [Ha Hw].
  destruct l as [|j l]; [exact Ha|].
  change (run s (i :: j :: l)) with (run (update_with s i) (j :: l)).
  rewrite last_cons. exact (run_spaced l _ (in_now i) j Hw Hl).
Qed.

End Driver.

(** ** Bounds after every event, binary32 *)

Lemma leb_80_100 (x : float) :
  fleb x (@MAX_ADAPTIVE_VOLUME float _) = true -> fleb x (@MAX_VOLUME float _) = true.
Proof.
  unfold MAX_ADAPTIVE_VOLUME, MAX_VOLUME, fleb. rewrite lit_80_1, lit_100_1.
  destruct x as [s|s| |s m e]; try (destruct s; intros H; exact H).
  - intros H; exact H.
  - destruct s; [intros _; reflexivity|].
    unfold SFleb, SFcompare.
    destruct (Z.compare e (-17)); try (intros H; exact H).
    rewrite !Pos.compare_cont_spec. cbn [Pos.switch_Eq].
    destruct (Pos.compare m 10485760) eqn:E1; try discriminate; intros _.
    + apply Pos.compare_eq in E1. subst m. reflexivity.
    + rewrite (Pos.lt_trans m 10485760 13107200 E1 eq_refl). reflexivity.
Qed.

Lemma conv_nonneg_sign z : 0 <= z -> signed_as false (conv z).
Proof.
  destruct z as [|q|q]; intros H; [reflexivity | | lia].
  unfold conv, binary_normalize, binary_round.
  destruct (shl_align _ _ _) as [mz ez]. apply binary_round_aux_sign. lia.
Qed.

Lemma leb_0_nonneg (x : float) :
  signed_as false x -> fleb (@MIN_VOLUME float _) x = true.
Proof.
  unfold MIN_VOLUME, fleb. rewrite lit_0_1.
  destruct x as [s|s| |s m e]; simpl; try (intros ->; reflexivity). intros [].
Qed.

Lemma update_with_bounded (s : AdaptiveVolumeControl float) (i : Inputs) :
  let s' := update_with s i in
  is_nan (targetVolume s') = false /\
  fleb (targetVolume s') MAX_VOLUME = true /\
  (in_control i = ADAPTIVE ->
   fleb MIN_VOLUME (targetVolume s') = true /\
   fleb (targetVolume s') MAX_ADAPTIVE_VOLUME = true) /\
  (in_control i = MANUAL -> 0 <= in_manual i ->
   fleb MIN_VOLUME (targetVolume s') = true).
Proof.
  cbv zeta. unfold update_with. destruct (in_control i) eqn:Ec.
  - rewrite (update_target_adaptive s).
    destruct (adaptive_target_bounds
                (update s (in_speed i) (in_noise i) (in_reverse i) (in_horn i)
                   (in_nav i) (in_mode i) ADAPTIVE (in_manual i) (in_now i)))
      as (H1 & H2 & H3).
    split; [exact H1|]. split; [apply leb_80_100, H3|].
    split; [intros _; split; assumption | discriminate].
  - rewrite update_target_manual.
    destruct (manual_target_bound (in_manual i)) as [H1 H2].
    split; [exact H1|]. split; [exact H2|]. split; [discriminate|].
    intros _ Hm. rewrite fmin_binary32. apply leb_0_nonneg, conv_nonneg_sign. lia.
Qed.

Example demo_binary32 :
  match @main float _ 15 0 every_four_seconds with
  | Some s => currentVolume s = targetVolume s /\ hornDuckActive s = false
              /\ is_nan (currentVolume s) = false
  | None => False
  end.
Proof. vm_compute. repeat split. Qed.

(** * Binary32 arithmetic on values *)

(** ** What [binary_round_aux] computes *)

Section Exactness.

(** A right shift of a multiple of [2 ^ n] loses nothing. *)
Lemma shr_1_flags mrs :
  0 <= shr_m mrs ->
  Z.even (shr_m mrs) = true -> shr_r mrs = false -> shr_s mrs = false ->
  shr_r (shr_1 mrs) = false /\ shr_s (shr_1 mrs) = false.
Proof.
  destruct mrs as [m r s0]; simpl. intros Hm He -> ->.
  destruct m as [|q|q]; [auto| |lia].
  destruct q as [q|q|]; simpl in *; try discriminate; auto.
Qed.

Lemma iter_shr_1_flags n : forall mrs,
  0 <= shr_m mrs ->
  shr_m mrs mod 2 ^ Zpos n = 0 -> shr_r mrs = false -> shr_s mrs = false ->
  shr_r (iter_pos shr_1 n mrs) = false /\ shr_s (iter_pos shr_1 n mrs) = false.
Proof.
  assert (Hp : forall k, 0 < 2 ^ Zpos k) by (intros; apply Z.pow_pos_nonneg; lia).
  assert (Hev : forall m k, 0 < k -> m mod (2 * k) = 0 -> Z.even m = true).
  { intros m k Hk H. apply Z.mod_divide in H; [|lia]. destruct H as [c ->].
    replace (c * (2 * k)) with (2 * (c * k)) by ring. rewrite Z.even_mul. reflexivity. }
  assert (Hdv : forall m a b, 0 < a -> 0 < b -> m mod (a * b) = 0 ->
                              m mod a = 0 /\ (m / a) mod b = 0).
  { intros m a b Ha Hb H. apply Z.mod_divide in H; [|nia]. destruct H as [c ->].
    split.
    - replace (c * (a * b)) with (c * b * a) by ring. apply Z.mod_mul. lia.
    - replace (c * (a * b)) with (c * b * a) by ring. rewrite Z.div_mul by lia.
      apply Z.mod_mul. lia. }
  induction n as [n IH|n IH|]; intros mrs Hm Hmod Hr Hs; simpl iter_pos.
  - pose proof (Hp n) as Hn. rewrite pow2_xI in Hmod.
    assert (E1 : Z.even (shr_m mrs) = true).
    { apply (Hev _ (2 ^ Zpos n * 2 ^ Zpos n)); [nia | exact Hmod]. }
    destruct (shr_1_flags mrs Hm E1 Hr Hs) as [R1 S1].
    pose proof (shr_1_nonneg mrs Hm) as N1.
    pose proof (shr_1_div2 mrs Hm) as D1.
    destruct (Hdv (shr_m mrs) 2 (2 ^ Zpos n * 2 ^ Zpos n) ltac:(lia) ltac:(nia) Hmod)
      as [_ M1].
    rewrite <- D1 in M1.
    destruct (Hdv _ _ _ Hn Hn M1) as [M2 M3].
    destruct (IH (shr_1 mrs) N1 M2 R1 S1) as [R2 S2].
    apply IH; try assumption.
    + apply iter_shr_1_nonneg, N1.
    + rewrite iter_shr_1_div by exact N1. exact M3.
  - pose proof (Hp n) as Hn. rewrite pow2_xO in Hmod.
    destruct (Hdv _ _ _ Hn Hn Hmod) as [M2 M3].
    destruct (IH mrs Hm M2 Hr Hs) as [R2 S2].
    apply IH; try assumption.
    + apply iter_shr_1_nonneg, Hm.
    + rewrite iter_shr_1_div by exact Hm. exact M3.
  - apply shr_1_flags; try assumption.
    apply (Hev _ 1); [lia | exact Hmod].
Qed.

(** Rounding to nearest even moves up by at most one, and only when the
    round bit is set. *)
Lemma round_nearest_even_cases mrs :
  let m1 := round_nearest_even (shr_m mrs) (loc_of_shr_record mrs) in
  m1 = shr_m mrs \/ (m1 = shr_m mrs + 1 /\ shr_r mrs = true).
Proof.
  destruct mrs as [m [|] [|]]; simpl; auto.
  destruct (Z.even m); auto.
Qed.

End Exactness.

Section Explicit.
Variables p emx : Z.
Hypothesis p_pos : 0 < p.

Local Abbreviation fexp := (SpecFloat.fexp p emx).
Local Abbreviation emin := (SpecFloat.emin p emx).

(** [binary_round_aux] on a positive mantissa whose exponent is not above
    the one of its format: the mantissa is divided by [2 ^ n], moved up by
    one or not, and renormalised when it reaches [2 ^ p]. *)
Lemma binary_round_aux_explicit sx M E :
  0 < M -> E <= fexp (Zdigits2 M + E) ->
  let e1 := fexp (Zdigits2 M + E) in
  let n := e1 - E in
  let q := M / 2 ^ n in
  q < 2 ^ p /\ (emin < e1 -> 2 ^ (p - 1) <= q) /\
  exists m1,
    (m1 = q \/ (m1 = q + 1 /\ M mod 2 ^ n <> 0)) /\
    binary_round_aux p emx sx M E loc_Exact =
      if m1 =? 0 then S754_zero sx
      else if m1 =? 2 ^ p
           then if e1 + 1 <=? emx - p
                then S754_finite sx (Z.to_pos (2 ^ (p - 1))) (e1 + 1)
                else S754_infinity sx
           else if e1 <=? emx - p
                then S754_finite sx (Z.to_pos m1) e1
                else S754_infinity sx.
Proof.
  intros HM Hal e1 n q.
  destruct M as [|M0|M0]; try lia.
  pose proof (digits2_pos_bounds M0) as [Dlo Dhi].
  change (Zpos (digits2_pos M0)) with (Zdigits2 (Zpos M0)) in Dlo, Dhi.
  set (M := Zpos M0) in *. set (d := Zdigits2 M) in *.
  assert (Hd : 1 <= d) by (unfold d, M; simpl; lia).
  assert (He1 : e1 = Z.max (d + E - p) emin) by (unfold e1, SpecFloat.fexp; f_equal; lia).
  assert (Hn0 : 0 <= n) by (unfold n; lia).
  assert (Hpn : 0 < 2 ^ n) by (apply Z.pow_pos_nonneg; lia).
  assert (Hpp : 0 < 2 ^ (p - 1)) by (apply Z.pow_pos_nonneg; lia).
  assert (Hp2 : 2 ^ p = 2 * 2 ^ (p - 1)).
  { replace p with (Z.succ (p - 1)) at 1 by lia. apply Z.pow_succ_r. lia. }
  (* bounds on the quotient *)
  assert (Hq0 : 0 <= q) by (apply Z.div_pos; lia).
  assert (Hqhi : q < 2 ^ p).
  { apply Z.div_lt_upper_bound; [exact Hpn|].
    apply Z.lt_le_trans with (2 ^ d); [exact Dhi|].
    rewrite <- Z.pow_add_r by lia. apply Z.pow_le_mono_r; lia. }
  assert (Hqlo : emin < e1 -> 2 ^ (p - 1) <= q).
  { intros H. assert (En : n = d - p) by lia.
    apply Z.div_le_lower_bound; [exact Hpn|].
    apply Z.le_trans with (2 ^ (d - 1)); [|exact Dlo].
    rewrite <- Z.pow_add_r by lia. apply Z.pow_le_mono_r; lia. }
  split; [exact Hqhi|]. split; [exact Hqlo|].
  (* the first shift *)
  unfold binary_round_aux.
  assert (S1 : exists mrs,
             shr_fexp p emx M E loc_Exact = (mrs, e1) /\ shr_m mrs = q /\
             (shr_r mrs = true -> M mod 2 ^ n <> 0)).
  { unfold shr_fexp, shr. fold d. fold e1. fold n.
    destruct n as [|k|k] eqn:En; try lia.
    - eexists. split; [f_equal; lia|]. split.
      + simpl shr_m. unfold q. rewrite Z.pow_0_r, Z.div_1_r. reflexivity.
      + simpl. discriminate.
    - eexists. split; [f_equal; lia|]. split.
      + rewrite iter_shr_1_div by (simpl; lia). reflexivity.
      + intros Hr Hmod.
        destruct (iter_shr_1_flags k (shr_record_of_loc M loc_Exact)
                    ltac:(simpl; lia) Hmod eq_refl eq_refl) as [R _].
        rewrite R in Hr. discriminate Hr. }
  destruct S1 as (mrs & -> & Hm & Hr).
  destruct (round_nearest_even_cases mrs) as [C | [C Cr]]; cbv zeta in C;
    rewrite C, Hm; clear C.
  - (* not moved *)
    exists q. split; [left; reflexivity|].
    destruct (Z.eqb_spec q 0) as [Q0|Q0].
    + rewrite Q0. unfold shr_fexp, shr. simpl Zdigits2.
      destruct (SpecFloat.fexp p emx (0 + e1) - e1) eqn:Ef; try reflexivity.
      exfalso. unfold SpecFloat.fexp in Ef. lia.
    + destruct (Z.eqb_spec q (2 ^ p)); [lia|].
      assert (Hdq : Zdigits2 q <= p) by (apply Zdigits2_le; lia).
      assert (Hdq' : emin < e1 -> p <= Zdigits2 q).
      { intros H. apply Zdigits2_ge; [apply Hqlo, H | lia]. }
      unfold shr_fexp, shr.
      destruct (SpecFloat.fexp p emx (Zdigits2 q + e1) - e1) eqn:Ef.
      * simpl shr_m. destruct q as [|q0|q0]; try lia. reflexivity.
      * exfalso. unfold SpecFloat.fexp in Ef. lia.
      * simpl shr_m. destruct q as [|q0|q0]; try lia. reflexivity.
  - (* moved up *)
    exists (q + 1). split; [right; split; [reflexivity | apply Hr, Cr]|].
    destruct (Z.eqb_spec (q + 1) 0); [lia|].
    destruct (Z.eqb_spec (q + 1) (2 ^ p)) as [Q2|Q2].
    + rewrite Q2.
      assert (Hdq : Zdigits2 (2 ^ p) = p + 1).
      { apply Zdigits2_eq; [lia|]. replace (p + 1 - 1) with p by lia.
        split; [lia|]. rewrite Z.pow_add_r by lia. lia. }
      assert (En1 : emin <= e1) by lia.
      unfold shr_fexp, shr. rewrite Hdq.
      replace (SpecFloat.fexp p emx (p + 1 + e1) - e1) with 1
        by (unfold SpecFloat.fexp; lia).
      cbn [iter_pos]. cbv beta iota.
      assert (Hs : shr_m (shr_1 (shr_record_of_loc (2 ^ p) loc_Exact)) = 2 ^ (p - 1)).
      { rewrite shr_1_div2 by (simpl; lia). simpl shr_m. rewrite Hp2.
        rewrite Z.mul_comm, Z.div_mul by lia. reflexivity. }
      rewrite Hs. destruct (2 ^ (p - 1)) as [|t|t] eqn:Et; try lia. reflexivity.
    + assert (Hq1 : 0 < q + 1 < 2 ^ p) by lia.
      assert (Hdq : Zdigits2 (q + 1) <= p) by (apply Zdigits2_le; lia).
      unfold shr_fexp, shr.
      destruct (SpecFloat.fexp p emx (Zdigits2 (q + 1) + e1) - e1) eqn:Ef.
      * simpl shr_m. destruct (q + 1) as [|q0|q0]; try lia. reflexivity.
      * exfalso. unfold SpecFloat.fexp in Ef. lia.
      * simpl shr_m. destruct (q + 1) as [|q0|q0]; try lia. reflexivity.
Qed.

End Explicit.

(** ** Order and rounding on values *)

Lemma pow2_pos k : 0 <= k -> 0 < 2 ^ k.
Proof. intros. apply Z.pow_pos_nonneg; lia. Qed.

Lemma pow2_split a b : 0 <= a -> 0 <= b -> 2 ^ (a + b) = 2 ^ a * 2 ^ b.
Proof. intros. apply Z.pow_add_r; assumption. Qed.

Lemma bounded_inv m e :
  bounded prec emax m e = true ->
  Zpos m < 2 ^ 24 /\ -149 <= e <= 104 /\ (-149 < e -> 2 ^ 23 <= Zpos m).
Proof.
  unfold bounded, canonical_mantissa, SpecFloat.fexp, SpecFloat.emin, prec, emax.
  intros H. apply andb_prop in H. destruct H as [H1 H2].
  apply Z.eqb_eq in H1. apply Z.leb_le in H2.
  pose proof (digits2_pos_bounds m) as [Dlo Dhi].
  set (d := Zpos (digits2_pos m)) in *.
  assert (Hd : d <= 24) by lia.
  split; [|split; [lia|]].
  - apply Z.lt_le_trans with (2 ^ d); [exact Dhi | apply Z.pow_le_mono_r; lia].
  - intros He. assert (d = 24) by lia.
    replace 23 with (d - 1) by lia. exact Dlo.
Qed.

Lemma bounded_intro m e :
  0 < m < 2 ^ 24 -> -149 <= e <= 104 -> (-149 < e -> 2 ^ 23 <= m) ->
  bounded prec emax (Z.to_pos m) e = true.
Proof.
  intros Hm He Hn.
  unfold bounded, canonical_mantissa, SpecFloat.fexp, SpecFloat.emin, prec, emax.
  apply andb_true_intro. split; [|apply Z.leb_le; lia].
  apply Z.eqb_eq.
  change (Zpos (digits2_pos (Z.to_pos m))) with (Zdigits2 (Zpos (Z.to_pos m))).
  rewrite Z2Pos.id by lia.
  pose proof (Zdigits2_le m 24 ltac:(lia) ltac:(lia)).
  destruct (Z.eq_dec e (-149)) as [->|Hne].
  - lia.
  - pose proof (Zdigits2_ge m 24 ltac:(change (24 - 1) with 23; apply Hn; lia) ltac:(lia)).
    lia.
Qed.

Lemma fval_opp x : fval (SFopp x) = - fval x.
Proof. destruct x as [s|s| |s m e]; try reflexivity. simpl. destruct s; simpl; lia. Qed.

Lemma good_opp x : good (SFopp x) = good x.
Proof. destruct x; reflexivity. Qed.

Lemma binary_round_aux_opp p emx M E l :
  binary_round_aux p emx true M E l = SFopp (binary_round_aux p emx false M E l).
Proof.
  unfold binary_round_aux.
  destruct (shr_fexp p emx M E l) as [mrs' e'].
  destruct (shr_fexp p emx _ e' loc_Exact) as [mrs'' e''].
  destruct (shr_m mrs''); try reflexivity.
  destruct (e'' <=? emx - p); reflexivity.
Qed.

(** A positive number of the format lies on every grid not finer than
    its own, and below the first normal number of every coarser one. *)
Lemma grid_step (h : float) (q e1 : Z) :
  good h = true -> 0 < fval h -> -149 <= e1 -> 0 <= q ->
  (-149 < e1 -> 2 ^ 23 <= q) ->
  let G := 2 ^ (e1 + 400) in
  (q * G < fval h -> (q + 1) * G <= fval h) /\
  (fval h < (q + 1) * G -> fval h <= q * G).
Proof.
  intros Hg Hpos He1 Hq Hn G.
  destruct h as [s|s| |s m e]; cbn [fval] in Hpos; try lia.
  cbn [good] in Hg. destruct (bounded_inv m e Hg) as (Hm & He & Hmn).
  pose proof (pow2_pos (e + 400) ltac:(lia)) as Hpe.
  unfold scaled in *.
  destruct s; cbn [cond_Zopp] in Hpos; [nia|].
  cbn [fval cond_Zopp]. unfold scaled.
  assert (HG : 0 < G) by (apply pow2_pos; lia).
  destruct (Z_le_gt_dec e1 e) as [Hc|Hc].
  - assert (E : 2 ^ (e + 400) = 2 ^ (e - e1) * G).
    { unfold G. rewrite <- pow2_split by lia. f_equal. lia. }
    rewrite E. pose proof (pow2_pos (e - e1) ltac:(lia)).
    set (k := Zpos m * 2 ^ (e - e1)).
    replace (Zpos m * (2 ^ (e - e1) * G)) with (k * G) by (unfold k; ring).
    split; intros H1.
    + apply Z.mul_lt_mono_pos_r in H1; [|exact HG].
      apply Z.mul_le_mono_nonneg_r; lia.
    + apply Z.mul_lt_mono_pos_r in H1; [|exact HG].
      apply Z.mul_le_mono_nonneg_r; lia.
  - assert (E : G = 2 ^ (e1 - e) * 2 ^ (e + 400)).
    { unfold G. rewrite <- pow2_split by lia. f_equal. lia. }
    assert (E2 : 2 ^ (e1 - e) = 2 * 2 ^ (e1 - e - 1)).
    { replace (e1 - e) with (Z.succ (e1 - e - 1)) at 1 by lia.
      apply Z.pow_succ_r. lia. }
    pose proof (pow2_pos (e1 - e - 1) ltac:(lia)).
    specialize (Hn ltac:(lia)).
    change (2 ^ 24) with (2 * 2 ^ 23) in Hm.
    assert (Hlt : Zpos m * 2 ^ (e + 400) < q * G).
    { rewrite E, E2.
      apply Z.lt_le_trans with (2 * 2 ^ 23 * 2 ^ (e + 400)); [nia|].
      assert (2 ^ 23 * 2 ^ (e + 400) <= q * 2 ^ (e1 - e - 1) * 2 ^ (e + 400)) by nia.
      nia. }
    split; intros H1; nia.
Qed.

Lemma good_pos_inv (h : float) :
  good h = true -> 0 < fval h ->
  exists m e, h = S754_finite false m e /\
    Zpos m < 2 ^ 24 /\ -149 <= e <= 104 /\ (-149 < e -> 2 ^ 23 <= Zpos m).
Proof.
  intros Hg Hpos. destruct h as [s|s| |s m e]; cbn [fval] in Hpos; try lia.
  cbn [good] in Hg. destruct (bounded_inv m e Hg) as (Hm & He & Hmn).
  pose proof (pow2_pos (e + 400) ltac:(lia)) as Hpe.
  unfold scaled in Hpos.
  destruct s; cbn [cond_Zopp] in Hpos; [nia|].
  exists m, e. auto.
Qed.

Lemma pow2_lt_inv x y : 0 <= y -> 2 ^ x < 2 ^ y -> x < y.
Proof. intros Hy H. apply (Z.pow_lt_mono_r_iff 2); [lia | exact Hy | exact H]. Qed.

(** Rounding a positive number never crosses a number of the format. *)
Lemma round_pos_sandwich M E (lo hi : float) :
  0 < M -> -400 <= E -> E <= SpecFloat.fexp prec emax (Zdigits2 M + E) ->
  good lo = true -> good hi = true ->
  fval lo <= scaled M E <= fval hi ->
  let r := binary_round_aux prec emax false M E loc_Exact in
  good r = true /\ fval lo <= fval r <= fval hi.
Proof.
  intros HM HE Hal Glo Ghi [Hlo Hhi].
  destruct (binary_round_aux_explicit prec emax eq_refl false M E HM Hal)
    as (Hq & Hqlo & m1 & Hm1 & Hr).
  cbv zeta in Hq, Hqlo, Hm1, Hr. cbv zeta. rewrite Hr. clear Hr.
  set (e1 := SpecFloat.fexp prec emax (Zdigits2 M + E)) in *.
  assert (He1 : -149 <= e1).
  { unfold e1, SpecFloat.fexp, SpecFloat.emin, prec, emax. lia. }
  change (SpecFloat.emin prec emax) with (-149) in Hqlo.
  change (prec - 1) with 23 in *. change (2 ^ prec) with (2 ^ 24) in *.
  change (emax - prec) with 104.
  set (n := e1 - E) in *. set (q := M / 2 ^ n) in *.
  assert (Hn : 0 <= n) by (unfold n; lia).
  pose proof (pow2_pos n Hn) as Ht.
  pose proof (pow2_pos (E + 400) ltac:(lia)) as Ha.
  set (t := 2 ^ n) in *. set (a := 2 ^ (E + 400)) in *.
  set (G := 2 ^ (e1 + 400)).
  assert (EG : G = t * a).
  { unfold G, t, a. rewrite <- pow2_split by lia. f_equal. unfold n. lia. }
  assert (HG : 0 < G) by nia.
  pose proof (Z.div_mod M t ltac:(lia)) as Hdm. fold q in Hdm.
  pose proof (Z.mod_pos_bound M t Ht) as Hrho.
  set (rho := M mod t) in *.
  assert (Hq0 : 0 <= q) by (unfold q; apply Z.div_pos; lia).
  assert (HV : scaled M E = q * G + rho * a).
  { unfold scaled. fold a. rewrite EG. rewrite Hdm at 1. ring. }
  assert (Hrg : rho * a < G) by (rewrite EG; nia).
  assert (Hpos : 0 < fval hi) by (unfold scaled in *; fold a in Hhi; nia).
  destruct (grid_step hi q e1 Ghi Hpos He1 Hq0 Hqlo) as [Gup _].
  fold G in Gup.
  (* the rounded value lies between the bounds *)
  assert (Hup : m1 * G <= fval hi).
  { destruct Hm1 as [-> | [-> Hne]]; [nia|].
    apply Gup. assert (0 < rho) by lia. nia. }
  assert (Hdn : fval lo <= m1 * G).
  { assert (q <= m1) by (destruct Hm1 as [-> | [-> _]]; lia).
    destruct (Z_le_gt_dec (fval lo) 0) as [Hc|Hc]; [nia|].
    destruct (grid_step lo q e1 Glo ltac:(lia) He1 Hq0 Hqlo) as [_ Gdn].
    fold G in Gdn. specialize (Gdn ltac:(nia)). nia. }
  assert (Hm1r : 0 <= m1 <= 2 ^ 24) by (destruct Hm1 as [-> | [-> _]]; lia).
  assert (Hm1n : -149 < e1 -> 2 ^ 23 <= m1).
  { intros H. specialize (Hqlo H). destruct Hm1 as [-> | [-> _]]; lia. }
  destruct (good_pos_inv hi Ghi Hpos) as (mh & eh & Eh & Hmh & Heh & _).
  assert (Hhv : fval hi = Zpos mh * 2 ^ (eh + 400)) by (rewrite Eh; reflexivity).
  pose proof (pow2_pos (eh + 400) ltac:(lia)) as Hph.
  destruct (Z.eqb_spec m1 0) as [Z0|Z0].
  - cbn [good fval]. split; [reflexivity|]. subst m1. lia.
  - destruct (Z.eqb_spec m1 (2 ^ 24)) as [Z1|Z1].
    + assert (He : e1 + 1 <= eh).
      { assert (G < 2 ^ (eh + 400)) by (rewrite Z1 in Hup; nia).
        pose proof (pow2_lt_inv (e1 + 400) (eh + 400) ltac:(lia) H). lia. }
      rewrite (proj2 (Z.leb_le (e1 + 1) 104)) by lia.
      cbn [good fval cond_Zopp]. split.
      * apply (bounded_intro (2 ^ 23) (e1 + 1)); [split; reflexivity | lia | reflexivity].
      * assert (EV : scaled (Zpos (Z.to_pos (2 ^ 23))) (e1 + 1) = m1 * G).
        { unfold scaled. rewrite Z2Pos.id by reflexivity. rewrite Z1.
          replace (e1 + 1 + 400) with (1 + (e1 + 400)) by lia.
          rewrite pow2_split by lia. fold G. change (2 ^ 24) with (2 ^ 23 * 2 ^ 1). ring. }
        rewrite EV. lia.
    + assert (He : e1 <= 104).
      { destruct (Z.eq_dec e1 (-149)) as [->|Hne]; [lia|].
        specialize (Hm1n ltac:(lia)).
        assert (2 ^ 23 * G < 2 ^ 24 * 2 ^ (eh + 400)) by nia.
        change (2 ^ 24) with (2 ^ 23 * 2) in H.
        assert (G < 2 ^ (eh + 401)).
        { replace (eh + 401) with (1 + (eh + 400)) by lia.
          rewrite pow2_split by lia. change (2 ^ 1) with 2. nia. }
        pose proof (pow2_lt_inv (e1 + 400) (eh + 401) ltac:(lia) H0). lia. }
      rewrite (proj2 (Z.leb_le e1 104)) by lia.
      cbn [good fval cond_Zopp]. split.
      * apply bounded_intro; [lia | lia | exact Hm1n].
      * unfold scaled. rewrite Z2Pos.id by lia. fold G. lia.
Qed.

(** ** Comparison is comparison of values *)

Lemma scaled_pos m e : -400 <= e -> 0 < scaled (Zpos m) e.
Proof. intros. unfold scaled. pose proof (pow2_pos (e + 400) ltac:(lia)). nia. Qed.

Lemma scaled_compare m1 e1 m2 e2 :
  bounded prec emax m1 e1 = true -> bounded prec emax m2 e2 = true ->
  match Z.compare e1 e2 with
  | Lt => Lt
  | Gt => Gt
  | Eq => Pos.compare_cont Eq m1 m2
  end = Z.compare (scaled (Zpos m1) e1) (scaled (Zpos m2) e2).
Proof.
  intros B1 B2.
  destruct (bounded_inv m1 e1 B1) as (M1 & E1 & N1).
  destruct (bounded_inv m2 e2 B2) as (M2 & E2 & N2).
  unfold scaled. symmetry.
  assert (Hlt : forall ma ea mb eb,
             Zpos ma < 2 ^ 24 -> -149 <= ea -> ea < eb -> 2 ^ 23 <= Zpos mb ->
             Zpos ma * 2 ^ (ea + 400) < Zpos mb * 2 ^ (eb + 400)).
  { intros ma ea mb eb Ha Hea Hlt Hb.
    pose proof (pow2_pos (ea + 400) ltac:(lia)).
    pose proof (pow2_pos (eb - ea - 1) ltac:(lia)).
    replace (eb + 400) with ((eb - ea - 1) + (1 + (ea + 400))) by lia.
    rewrite (pow2_split (eb - ea - 1) (1 + (ea + 400))) by lia.
    rewrite (pow2_split 1 (ea + 400)) by lia. change (2 ^ 1) with 2.
    change (2 ^ 24) with (2 * 2 ^ 23) in Ha.
    set (c := 2 ^ 23) in *. set (A := 2 ^ (ea + 400)) in *.
    set (P := 2 ^ (eb - ea - 1)) in *.
    assert (Hc : 0 < c) by reflexivity.
    assert (H1 : Zpos ma * A < 2 * c * A) by (apply Z.mul_lt_mono_pos_r; lia).
    assert (H2 : c <= Zpos mb * P) by nia.
    assert (H3 : c * (2 * A) <= Zpos mb * P * (2 * A))
      by (apply Z.mul_le_mono_nonneg_r; lia).
    replace (Zpos mb * (P * (2 * A))) with (Zpos mb * P * (2 * A)) by ring.
    lia. }
  destruct (Z.compare_spec e1 e2) as [He|He|He].
  - subst e2. pose proof (pow2_pos (e1 + 400) ltac:(lia)) as Hp.
    rewrite Pos.compare_cont_spec. cbn [Pos.switch_Eq].
    change (Pos.compare m1 m2) with (Z.compare (Zpos m1) (Zpos m2)).
    destruct (Z.compare_spec (Zpos m1) (Zpos m2)) as [C|C|C].
    + rewrite C. apply Z.compare_refl.
    + apply Z.compare_lt_iff. nia.
    + apply Z.compare_gt_iff. nia.
  - apply Z.compare_lt_iff. apply Hlt; lia.
  - apply Z.compare_gt_iff. apply Hlt; lia.
Qed.

Lemma SFcompare_fval (x y : float) :
  good x = true -> good y = true ->
  SFcompare x y = Some (Z.compare (fval x) (fval y)).
Proof.
  intros Gx Gy.
  destruct x as [sx|sx| |sx mx ex]; try discriminate;
    destruct y as [sy|sy| |sy my ey]; try discriminate; cbn [good] in *.
  - reflexivity.
  - destruct (bounded_inv my ey Gy) as (_ & E2 & _).
    pose proof (scaled_pos my ey ltac:(lia)).
    cbn [SFcompare fval]. f_equal. symmetry.
    destruct sy; cbn [cond_Zopp]; [apply Z.compare_gt_iff | apply Z.compare_lt_iff]; lia.
  - destruct (bounded_inv mx ex Gx) as (_ & E1 & _).
    pose proof (scaled_pos mx ex ltac:(lia)).
    cbn [SFcompare fval]. f_equal. symmetry.
    destruct sx; cbn [cond_Zopp]; [apply Z.compare_lt_iff | apply Z.compare_gt_iff]; lia.
  - destruct (bounded_inv mx ex Gx) as (_ & E1 & _).
    destruct (bounded_inv my ey Gy) as (_ & E2 & _).
    pose proof (scaled_pos mx ex ltac:(lia)).
    pose proof (scaled_pos my ey ltac:(lia)).
    cbn [SFcompare fval]. f_equal.
    destruct sx, sy; cbn [cond_Zopp].
    + rewrite Z.compare_opp. rewrite <- (scaled_compare my ey mx ex Gy Gx).
      rewrite (Z.compare_antisym ey ex).
      destruct (Z.compare ey ex); cbn [CompOpp]; try reflexivity.
      rewrite !Pos.compare_cont_spec.
      rewrite (Pos.compare_antisym my mx).
      destruct (Pos.compare my mx); reflexivity.
    + symmetry. apply Z.compare_lt_iff. lia.
    + symmetry. apply Z.compare_gt_iff. lia.
    + apply scaled_compare; assumption.
Qed.

Lemma SFleb_fval (x y : float) :
  good x = true -> good y = true -> SFleb x y = (fval x <=? fval y).
Proof.
  intros Gx Gy. unfold SFleb. rewrite (SFcompare_fval x y Gx Gy).
  unfold Z.leb. destruct (fval x ?= fval y); reflexivity.
Qed.

Lemma SFltb_fval (x y : float) :
  good x = true -> good y = true -> SFltb x y = (fval x <? fval y).
Proof.
  intros Gx Gy. unfold SFltb. rewrite (SFcompare_fval x y Gx Gy).
  unfold Z.ltb. destruct (fval x ?= fval y); reflexivity.
Qed.

(** ** The operations, on values *)

Lemma Zdigits2_shift m k :
  0 <= k -> Zdigits2 (Zpos m * 2 ^ k) = Zdigits2 (Zpos m) + k.
Proof.
  intros Hk. pose proof (digits2_pos_bounds m) as [Dlo Dhi].
  change (Zpos (digits2_pos m)) with (Zdigits2 (Zpos m)) in *.
  set (d := Zdigits2 (Zpos m)) in *.
  assert (Hd : 1 <= d) by (unfold d; simpl; lia).
  pose proof (pow2_pos k Hk).
  apply Zdigits2_eq; [lia|].
  replace (d + k - 1) with ((d - 1) + k) by lia.
  rewrite !pow2_split by lia. nia.
Qed.

Lemma binary_round_sandwich mx E (lo hi : float) :
  -400 <= E -> good lo = true -> good hi = true ->
  fval lo <= scaled (Zpos mx) E <= fval hi ->
  let r := binary_round prec emax false mx E in
  good r = true /\ fval lo <= fval r <= fval hi.
Proof.
  intros HE Glo Ghi Hv. cbv zeta. unfold binary_round, shl_align.
  change (Zpos (digits2_pos mx)) with (Zdigits2 (Zpos mx)).
  set (e0 := SpecFloat.fexp prec emax (Zdigits2 (Zpos mx) + E)).
  assert (He0 : -149 <= e0)
    by (unfold e0, SpecFloat.fexp, SpecFloat.emin, prec, emax; lia).
  destruct (e0 - E) as [|k|k] eqn:Ek;
    [ | | change (Zneg k) with (- Zpos k) in Ek ].
  - apply round_pos_sandwich; try assumption; try lia; fold e0; lia.
  - apply round_pos_sandwich; try assumption; try lia; fold e0; lia.
  - assert (Hz : Zpos (Pos.iter xO mx k) = Zpos mx * 2 ^ Zpos k) by apply Zpos_iter_xO.
    apply round_pos_sandwich; try assumption; try lia.
    + rewrite Hz, Zdigits2_shift by lia.
      replace (Zdigits2 (Zpos mx) + Zpos k + e0) with (Zdigits2 (Zpos mx) + E) by lia.
      fold e0. lia.
    + unfold scaled in *. rewrite Hz.
      replace (E + 400) with (Zpos k + (e0 + 400)) in Hv by lia.
      rewrite (pow2_split (Zpos k) (e0 + 400)) in Hv by lia.
      rewrite <- Z.mul_assoc. exact Hv.
Qed.

Lemma binary_round_opp p emx mx E :
  binary_round p emx true mx E = SFopp (binary_round p emx false mx E).
Proof.
  unfold binary_round. destruct (shl_align _ _ _) as [mz ez].
  apply binary_round_aux_opp.
Qed.

(** Rounding a number never crosses a number of the format. *)
Lemma binary_normalize_sandwich M E (lo hi : float) :
  -400 <= E -> good lo = true -> good hi = true ->
  fval lo <= scaled M E <= fval hi ->
  let r := binary_normalize prec emax M E false in
  good r = true /\ fval lo <= fval r <= fval hi.
Proof.
  intros HE Glo Ghi Hv. cbv zeta. destruct M as [|mx|mx]; cbn [binary_normalize].
  - unfold scaled in Hv. cbn [good fval]. split; [reflexivity | lia].
  - apply binary_round_sandwich; assumption.
  - rewrite binary_round_opp, good_opp, fval_opp.
    destruct (binary_round_sandwich mx E (SFopp hi) (SFopp lo) HE) as [G B].
    + rewrite good_opp. exact Ghi.
    + rewrite good_opp. exact Glo.
    + rewrite !fval_opp. unfold scaled in *.
      change (Zneg mx) with (- Zpos mx) in Hv. lia.
    + rewrite !fval_opp in B. split; [exact G | lia].
Qed.

Lemma fval_finite s m e : fval (S754_finite s m e) = scaled (cond_Zopp s (Zpos m)) e.
Proof. unfold scaled. destruct s; cbn [fval cond_Zopp]; unfold scaled; lia. Qed.

Lemma shl_align_value mx ex ez :
  -400 <= ez -> ez <= ex ->
  scaled (Zpos (fst (shl_align mx ex ez))) ez = scaled (Zpos mx) ex.
Proof.
  intros Hz Hle. unfold shl_align, scaled.
  destruct (ez - ex) as [|k|k] eqn:Ek; cbn [fst].
  - replace ez with ex by lia. reflexivity.
  - pose proof (Pos2Z.is_pos k). lia.
  - rewrite Zpos_iter_xO.
    assert (Hk : ex + 400 = Zpos k + (ez + 400))
      by (change (Zneg k) with (- Zpos k) in Ek; lia).
    rewrite Hk, (pow2_split (Zpos k) (ez + 400)) by lia. ring.
Qed.

Lemma aligned_sum sx mx ex sy my ey (sub : bool) :
  -400 <= ex -> -400 <= ey ->
  let ez := Z.min ex ey in
  scaled ((if sub then Z.sub else Z.add)
            (cond_Zopp sx (Zpos (fst (shl_align mx ex ez))))
            (cond_Zopp sy (Zpos (fst (shl_align my ey ez))))) ez
  = (if sub then Z.sub else Z.add)
      (fval (S754_finite sx mx ex)) (fval (S754_finite sy my ey)).
Proof.
  intros Hx Hy ez.
  pose proof (shl_align_value mx ex ez ltac:(unfold ez; lia) ltac:(unfold ez; lia)) as Vx.
  pose proof (shl_align_value my ey ez ltac:(unfold ez; lia) ltac:(unfold ez; lia)) as Vy.
  cbn [fval]. rewrite <- Vx, <- Vy. unfold scaled.
  destruct sub, sx, sy; cbn [cond_Zopp]; ring.
Qed.

Lemma good_exp (x : float) s m e :
  x = S754_finite s m e -> good x = true -> -149 <= e <= 104.
Proof. intros -> H. apply (bounded_inv m e H). Qed.

(** A sum whose exact value lies between two numbers of the format is a
    number of the format between them. *)
Lemma SFadd_sandwich (x y lo hi : float) :
  good x = true -> good y = true -> good lo = true -> good hi = true ->
  fval lo <= fval x + fval y <= fval hi ->
  good (SFadd prec emax x y) = true /\
  fval lo <= fval (SFadd prec emax x y) <= fval hi.
Proof.
  intros Gx Gy Glo Ghi Hv.
  destruct x as [sx|sx| |sx mx ex]; try discriminate;
    destruct y as [sy|sy| |sy my ey]; try discriminate.
  - cbn [fval] in Hv. destruct sx, sy; cbn [SFadd good fval]; split; auto.
  - cbn [SFadd]. cbn [fval] in Hv |- *. split; [exact Gy | lia].
  - cbn [SFadd]. cbn [fval] in Hv |- *. split; [exact Gx | lia].
  - pose proof (good_exp _ sx mx ex eq_refl Gx). pose proof (good_exp _ sy my ey eq_refl Gy).
    cbn [SFadd]. apply binary_normalize_sandwich; try assumption; try lia.
    rewrite (aligned_sum sx mx ex sy my ey false) by lia. exact Hv.
Qed.

Lemma SFsub_sandwich (x y lo hi : float) :
  good x = true -> good y = true -> good lo = true -> good hi = true ->
  fval lo <= fval x - fval y <= fval hi ->
  good (SFsub prec emax x y) = true /\
  fval lo <= fval (SFsub prec emax x y) <= fval hi.
Proof.
  intros Gx Gy Glo Ghi Hv.
  destruct x as [sx|sx| |sx mx ex]; try discriminate;
    destruct y as [sy|sy| |sy my ey]; try discriminate.
  - cbn [fval] in Hv. destruct sx, sy; cbn [SFsub good fval]; split; auto.
  - cbn [SFsub].
    change (S754_finite (negb sy) my ey) with (SFopp (S754_finite sy my ey)).
    rewrite good_opp, fval_opp. cbn [fval] in Hv |- *. split; [exact Gy | lia].
  - cbn [SFsub]. cbn [fval] in Hv |- *. split; [exact Gx | lia].
  - pose proof (good_exp _ sx mx ex eq_refl Gx). pose proof (good_exp _ sy my ey eq_refl Gy).
    cbn [SFsub]. apply binary_normalize_sandwich; try assumption; try lia.
    rewrite (aligned_sum sx mx ex sy my ey true) by lia. exact Hv.
Qed.

(** The exact product of two numbers of the format needs no left shift
    before it is rounded. *)
Lemma mul_aligned mx ex my ey :
  bounded prec emax mx ex = true -> bounded prec emax my ey = true ->
  ex + ey <= SpecFloat.fexp prec emax (Zdigits2 (Zpos (mx * my)) + (ex + ey)).
Proof.
  intros Gx Gy.
  destruct (bounded_inv mx ex Gx) as (Mx & Ex & Nx).
  destruct (bounded_inv my ey Gy) as (My & Ey & Ny).
  unfold SpecFloat.fexp, SpecFloat.emin, prec, emax.
  destruct (Z.eq_dec ex (-149)) as [E1|E1]; destruct (Z.eq_dec ey (-149)) as [E2|E2];
    try lia.
  - specialize (Ny ltac:(lia)).
    pose proof (Zdigits2_ge (Zpos (mx * my)) 24
                  ltac:(change (24 - 1) with 23; rewrite Pos2Z.inj_mul; nia) ltac:(lia)).
    lia.
  - specialize (Nx ltac:(lia)).
    pose proof (Zdigits2_ge (Zpos (mx * my)) 24
                  ltac:(change (24 - 1) with 23; rewrite Pos2Z.inj_mul; nia) ltac:(lia)).
    lia.
  - specialize (Nx ltac:(lia)).
    pose proof (Zdigits2_ge (Zpos (mx * my)) 24
                  ltac:(change (24 - 1) with 23; rewrite Pos2Z.inj_mul; nia) ltac:(lia)).
    lia.
Qed.

(** The same for a product; the product of two values is in units of
    [2 ^ -800]. *)
Lemma SFmul_sandwich (x y lo hi : float) :
  good x = true -> good y = true -> good lo = true -> good hi = true ->
  fval lo * 2 ^ 400 <= fval x * fval y <= fval hi * 2 ^ 400 ->
  good (SFmul prec emax x y) = true /\
  fval lo <= fval (SFmul prec emax x y) <= fval hi.
Proof.
  intros Gx Gy Glo Ghi Hv.
  assert (P400 : 0 < 2 ^ 400) by (apply pow2_pos; lia).
  destruct x as [sx|sx| |sx mx ex]; try discriminate;
    destruct y as [sy|sy| |sy my ey]; try discriminate;
    try (cbn [SFmul good fval] in *; split; [reflexivity | lia]).
  cbn [good] in Gx, Gy.
  destruct (bounded_inv mx ex Gx) as (Mx & Ex & Nx).
  destruct (bounded_inv my ey Gy) as (My & Ey & Ny).
  cbn [SFmul].
  assert (HV : scaled (Zpos (mx * my)) (ex + ey) * 2 ^ 400
               = scaled (Zpos mx) ex * scaled (Zpos my) ey).
  { assert (P : 2 ^ (ex + ey + 400) * 2 ^ 400 = 2 ^ (ex + 400) * 2 ^ (ey + 400)).
    { rewrite <- (pow2_split (ex + ey + 400) 400),
        <- (pow2_split (ex + 400) (ey + 400)) by lia. f_equal. lia. }
    unfold scaled. rewrite Pos2Z.inj_mul. rewrite <- Z.mul_assoc, P. ring. }
  pose proof (mul_aligned mx ex my ey Gx Gy) as Hal.
  cbn [fval] in Hv.
  destruct (xorb sx sy) eqn:Es.
  - rewrite binary_round_aux_opp, good_opp, fval_opp.
    destruct (round_pos_sandwich (Zpos (mx * my)) (ex + ey) (SFopp hi) (SFopp lo))
      as [G B]; try (rewrite good_opp; assumption); try lia; try exact Hal.
    + rewrite !fval_opp.
      destruct sx, sy; try discriminate; cbn [cond_Zopp] in Hv; nia.
    + rewrite !fval_opp in B. split; [exact G | lia].
  - apply round_pos_sandwich; try assumption; try lia.
    destruct sx, sy; try discriminate; cbn [cond_Zopp] in Hv; nia.
Qed.

(** ** A convergence step in binary32 *)

Lemma pow2f_spec j :
  -149 <= j <= 127 -> good (pow2f j) = true /\ fval (pow2f j) = 2 ^ (j + 400).
Proof.
  intros Hj. unfold pow2f. destruct (Z.ltb_spec j (-126)) as [Hc|Hc].
  - pose proof (pow2_pos (j + 149) ltac:(lia)) as Hp.
    assert (Hlt : 2 ^ (j + 149) < 2 ^ 24) by (apply Z.pow_lt_mono_r; lia).
    split.
    + cbn [good]. apply bounded_intro; lia.
    + cbn [fval cond_Zopp]. unfold scaled. rewrite Z2Pos.id by lia.
      change (-149 + 400) with 251.
      rewrite <- (pow2_split (j + 149) 251) by lia. f_equal. lia.
  - split.
    + cbn [good]. apply (bounded_intro 8388608 (j - 23)); [split; reflexivity | lia |].
      intros _. reflexivity.
    + cbn [fval cond_Zopp]. unfold scaled.
      change (Zpos 8388608) with (2 ^ 23).
      rewrite <- (pow2_split 23 (j - 23 + 400)) by lia. f_equal. lia.
Qed.

(** Every value is a multiple of the smallest positive one. *)
Lemma fval_multiple (x : float) :
  good x = true -> exists z, fval x = z * 2 ^ 251.
Proof.
  intros G. destruct x as [s|s| |s m e]; try discriminate.
  - exists 0. reflexivity.
  - cbn [good] in G. destruct (bounded_inv m e G) as (_ & He & _).
    exists (cond_Zopp s (Zpos m) * 2 ^ (e + 149)).
    rewrite fval_finite. unfold scaled.
    replace (e + 400) with ((e + 149) + 251) by lia.
    rewrite (pow2_split (e + 149) 251) by lia. ring.
Qed.

(** A positive difference of two moderate values lies between two
    consecutive powers of two that are numbers of the format. *)
Lemma bracket (D : Z) :
  0 < D -> (exists z, D = z * 2 ^ 251) -> D <= 2 ^ 526 ->
  exists j, -149 <= j <= 126 /\ 2 ^ (j + 400) <= D < 2 * 2 ^ (j + 400).
Proof.
  intros HD [z Hz] Hhi.
  assert (P251 : 0 < 2 ^ 251) by (apply pow2_pos; lia).
  assert (Hlo : 2 ^ 251 <= D) by nia.
  pose proof (Z.log2_spec D HD) as [L1 L2].
  assert (K1 : 251 <= Z.log2 D).
  { rewrite <- (Z.log2_pow2 251) by lia. apply Z.log2_le_mono. exact Hlo. }
  assert (K2 : Z.log2 D < 527).
  { apply Z.log2_lt_pow2; [exact HD|].
    apply Z.le_lt_trans with (2 ^ 526); [exact Hhi|].
    apply Z.pow_lt_mono_r; lia. }
  exists (Z.log2 D - 400).
  replace (Z.log2 D - 400 + 400) with (Z.log2 D) by lia.
  rewrite Z.pow_succ_r in L2 by lia. lia.
Qed.

Lemma smooth_factor_value :
  good (@SMOOTH_FACTOR float _) = true /\
  fval (@SMOOTH_FACTOR float _) = 10066330 * 2 ^ 375.
Proof. unfold SMOOTH_FACTOR. rewrite lit_3_10. split; reflexivity. Qed.

(** The new current level of [smoothVolumeTransition], computed in
    binary32 from moderate levels, lies between the old one and the
    target. *)
Lemma step_between32 (c t : float) :
  moderate c -> moderate t ->
  let c' := fadd c (fmul (fsub t c) SMOOTH_FACTOR) in
  good c' = true /\
  (fval c <= fval t -> fval c <= fval c' <= fval t) /\
  (fval t <= fval c -> fval t <= fval c' <= fval c).
Proof.
  intros [Gc Bc] [Gt Bt]. cbv zeta.
  change (@fadd float _) with (SFadd prec emax).
  change (@fmul float _) with (SFmul prec emax).
  change (@fsub float _) with (SFsub prec emax).
  destruct smooth_factor_value as [Gf Vf].
  set (f := @SMOOTH_FACTOR float _) in *.
  set (C := fval c) in *. set (T := fval t) in *.
  assert (P375 : 0 < 2 ^ 375) by (apply pow2_pos; lia).
  assert (E400 : 2 ^ 400 = 33554432 * 2 ^ 375).
  { change 400 with (25 + 375). rewrite (pow2_split 25 375) by lia. reflexivity. }
  assert (E526 : 2 ^ 526 = 2 * 2 ^ 525).
  { change 526 with (Z.succ 525). apply Z.pow_succ_r. lia. }
  assert (Gz : good (S754_zero false) = true) by reflexivity.
  destruct (fval_multiple c Gc) as [zc Hzc]. destruct (fval_multiple t Gt) as [zt Hzt].
  fold C in Hzc. fold T in Hzt.
  destruct (Z.compare_spec C T) as [Heq|Hlt|Hgt].
  - (* already there *)
    destruct (SFsub_sandwich t c (S754_zero false) (S754_zero false))
      as [Gd Bd]; try assumption; [cbn [fval]; fold C T; lia|].
    cbn [fval] in Bd.
    destruct (SFmul_sandwich (SFsub prec emax t c) f (S754_zero false) (S754_zero false))
      as [Ge Be]; try assumption; [cbn [fval]; nia|].
    cbn [fval] in Be.
    destruct (SFadd_sandwich c (SFmul prec emax (SFsub prec emax t c) f) c c)
      as [Gr Br]; try assumption; [fold C; lia|].
    fold C in Br. split; [exact Gr|]. split; intros; lia.
  - (* the target is above *)
    destruct (bracket (T - C)) as (j & Hj & Hb1 & Hb2);
      [lia | exists (zt - zc); lia | lia |].
    destruct (pow2f_spec j ltac:(lia)) as [Gg Vg].
    destruct (pow2f_spec (j + 1) ltac:(lia)) as [Gh Vh].
    replace (j + 1 + 400) with (Z.succ (j + 400)) in Vh by lia.
    rewrite Z.pow_succ_r in Vh by lia.
    set (P := 2 ^ (j + 400)) in *.
    destruct (SFsub_sandwich t c (S754_zero false) (pow2f (j + 1)))
      as [Gd Bd]; try assumption; [cbn [fval]; fold C T; lia|].
    cbn [fval] in Bd. rewrite Vh in Bd.
    set (d := SFsub prec emax t c) in *.
    destruct (SFmul_sandwich d f (S754_zero false) (pow2f j))
      as [Ge Be]; try assumption.
    { cbn [fval]. rewrite Vf, Vg, E400. fold P.
      assert (fval d * 10066330 <= P * 33554432) by lia.
      split; [nia|].
      replace (fval d * (10066330 * 2 ^ 375)) with (fval d * 10066330 * 2 ^ 375) by ring.
      replace (P * (33554432 * 2 ^ 375)) with (P * 33554432 * 2 ^ 375) by ring.
      apply Z.mul_le_mono_nonneg_r; lia. }
    cbn [fval] in Be. rewrite Vg in Be. fold P in Be.
    destruct (SFadd_sandwich c (SFmul prec emax d f) c t)
      as [Gr Br]; try assumption; [fold C T; lia|].
    fold C T in Br. split; [exact Gr|]. split; intros; lia.
  - (* the target is below *)
    destruct (bracket (C - T)) as (j & Hj & Hb1 & Hb2);
      [lia | exists (zc - zt); lia | lia |].
    destruct (pow2f_spec j ltac:(lia)) as [Gg Vg].
    destruct (pow2f_spec (j + 1) ltac:(lia)) as [Gh Vh].
    replace (j + 1 + 400) with (Z.succ (j + 400)) in Vh by lia.
    rewrite Z.pow_succ_r in Vh by lia.
    set (P := 2 ^ (j + 400)) in *.
    destruct (SFsub_sandwich t c (SFopp (pow2f (j + 1))) (S754_zero false))
      as [Gd Bd]; try assumption;
      [rewrite good_opp; exact Gh | rewrite fval_opp, Vh; cbn [fval]; fold C T; lia|].
    rewrite fval_opp, Vh in Bd. cbn [fval] in Bd.
    set (d := SFsub prec emax t c) in *.
    destruct (SFmul_sandwich d f (SFopp (pow2f j)) (S754_zero false))
      as [Ge Be]; try assumption; [rewrite good_opp; exact Gg | |].
    { rewrite fval_opp, Vg. cbn [fval]. rewrite Vf, E400. fold P.
      assert (- (P * 33554432) <= fval d * 10066330) by lia.
      split; [|nia].
      replace (fval d * (10066330 * 2 ^ 375)) with (fval d * 10066330 * 2 ^ 375) by ring.
      replace (- P * (33554432 * 2 ^ 375)) with (- (P * 33554432) * 2 ^ 375) by ring.
      apply Z.mul_le_mono_nonneg_r; lia. }
    rewrite fval_opp, Vg in Be. cbn [fval] in Be. fold P in Be.
    destruct (SFadd_sandwich c (SFmul prec emax d f) t c)
      as [Gr Br]; try assumption; [fold C T; lia|].
    fold C T in Br. split; [exact Gr|]. split; intros; lia.
Qed.

(** ** The operations return numbers of the format *)

Lemma binary_round_aux_valid sx M E :
  0 < M -> E <= SpecFloat.fexp prec emax (Zdigits2 M + E) ->
  valid (binary_round_aux prec emax sx M E loc_Exact) = true.
Proof.
  intros HM Hal.
  destruct (binary_round_aux_explicit prec emax eq_refl sx M E HM Hal)
    as (Hq & Hqlo & m1 & Hm1 & Hr).
  cbv zeta in Hq, Hqlo, Hm1, Hr. rewrite Hr. clear Hr.
  set (e1 := SpecFloat.fexp prec emax (Zdigits2 M + E)) in *.
  assert (He1 : -149 <= e1).
  { unfold e1, SpecFloat.fexp, SpecFloat.emin, prec, emax. lia. }
  change (SpecFloat.emin prec emax) with (-149) in Hqlo.
  change (prec - 1) with 23 in *. change (2 ^ prec) with (2 ^ 24) in *.
  change (emax - prec) with 104.
  set (q := M / 2 ^ (e1 - E)) in *.
  assert (Hq0 : 0 <= q).
  { unfold q. apply Z.div_pos; [lia | apply pow2_pos; lia]. }
  destruct (Z.eqb_spec m1 0); [reflexivity|].
  destruct (Z.eqb_spec m1 (2 ^ 24)).
  - destruct (Z.leb_spec (e1 + 1) 104); [|reflexivity].
    apply (bounded_intro (2 ^ 23) (e1 + 1)); [split; reflexivity | lia | reflexivity].
  - destruct (Z.leb_spec e1 104); [|reflexivity].
    apply bounded_intro; [destruct Hm1 as [-> | [-> _]]; lia | lia |].
    intros Hn. specialize (Hqlo Hn). destruct Hm1 as [-> | [-> _]]; lia.
Qed.

Lemma binary_round_valid sx mx E : valid (binary_round prec emax sx mx E) = true.
Proof.
  unfold binary_round, shl_align.
  change (Zpos (digits2_pos mx)) with (Zdigits2 (Zpos mx)).
  set (e0 := SpecFloat.fexp prec emax (Zdigits2 (Zpos mx) + E)).
  destruct (e0 - E) as [|k|k] eqn:Ek;
    [ | | change (Zneg k) with (- Zpos k) in Ek ].
  - apply binary_round_aux_valid; [lia | fold e0; lia].
  - apply binary_round_aux_valid; [lia | fold e0; lia].
  - apply binary_round_aux_valid; [lia|].
    rewrite Zpos_iter_xO, Zdigits2_shift by lia.
    replace (Zdigits2 (Zpos mx) + Zpos k + e0) with (Zdigits2 (Zpos mx) + E) by lia.
    fold e0. lia.
Qed.

Lemma binary_normalize_valid M E sz : valid (binary_normalize prec emax M E sz) = true.
Proof. destruct M; cbn [binary_normalize]; [reflexivity | apply binary_round_valid ..]. Qed.

Lemma conv_valid z : valid (conv z) = true.
Proof. apply binary_normalize_valid. Qed.

Lemma SFadd_valid (x y : float) :
  valid x = true -> valid y = true -> valid (SFadd prec emax x y) = true.
Proof.
  intros Vx Vy.
  destruct x as [sx|sx| |sx mx ex]; destruct y as [sy|sy| |sy my ey];
    cbn [SFadd]; try reflexivity; try assumption;
    try (destruct sx, sy; reflexivity).
  apply binary_normalize_valid.
Qed.

Lemma SFmul_valid (x y : float) :
  valid x = true -> valid y = true -> valid (SFmul prec emax x y) = true.
Proof.
  intros Vx Vy.
  destruct x as [sx|sx| |sx mx ex]; destruct y as [sy|sy| |sy my ey];
    cbn [SFmul]; try reflexivity.
  apply binary_round_aux_valid; [lia | apply mul_aligned; assumption].
Qed.

Lemma fmul_lit_valid (x : float) n d :
  valid (@lit float _ n d) = true -> valid x = true -> valid (fmul x (lit n d)) = true.
Proof. intros Hl Hx. apply SFmul_valid; assumption. Qed.

Lemma hornNavDucking_valid (s : AdaptiveVolumeControl float) x :
  valid x = true -> valid (hornNavDucking s x) = true.
Proof.
  intros Hx. unfold hornNavDucking, HORN_DUCK_MULTIPLIER.
  destruct (hornDuckActive s), (navSpeaking s);
    repeat first [ exact Hx | apply fmul_lit_valid; [reflexivity|] ].
Qed.

Lemma gearOrBraking_valid (s : AdaptiveVolumeControl float) x :
  valid x = true -> valid (gearOrBraking s x) = true.
Proof.
  intros Hx. unfold gearOrBraking.
  destruct (reverseGear s); cbn [negb].
  - apply fmul_lit_valid; [reflexivity | exact Hx].
  - destruct (10 <? _); [apply fmul_lit_valid; [reflexivity | exact Hx]|].
    destruct (speed s <? previousSpeed s);
      [apply fmul_lit_valid; [reflexivity | exact Hx] | exact Hx].
Qed.

Lemma baseVolumeOf_valid (s : AdaptiveVolumeControl float) :
  valid (baseVolumeOf s) = true.
Proof.
  unfold baseVolumeOf.
  assert (H : forall b, valid b = true ->
            valid (fadd b (fmul (of_int (cabinNoise s)) (lit 2 10))) = true).
  { intros b Hb. apply SFadd_valid; [exact Hb|].
    apply fmul_lit_valid; [reflexivity | apply conv_valid]. }
  assert (H' : valid
      (fadd (if 70 <? speed s then fadd (lit 25 1) (of_int 15)
             else if 30 <? speed s then fadd (lit 25 1) (of_int 10)
             else if 0 <? speed s then fadd (lit 25 1) (of_int 5) else lit 25 1)
         (fmul (of_int (cabinNoise s)) (lit 2 10))) = true).
  { apply H. destruct (70 <? speed s); [reflexivity|].
    destruct (30 <? speed s); [reflexivity|].
    destruct (0 <? speed s); reflexivity. }
  cbv zeta.
  destruct (mode s); [apply fmul_lit_valid; [reflexivity | exact H'] | exact H'
                     | apply fmul_lit_valid; [reflexivity | exact H']].
Qed.

(** The clamp of a number returns a number of the format between 0 and
    80. *)
Lemma clampAdaptive_good (x : float) :
  valid x = true -> is_nan x = false ->
  good (clampAdaptive x) = true /\ 0 <= fval (clampAdaptive x) <= 80 * 2 ^ 400.
Proof.
  intros Vx Nx. unfold clampAdaptive, MIN_VOLUME, MAX_ADAPTIVE_VOLUME.
  rewrite lit_0_1, lit_80_1. cbv [fltb Binary32.arith].
  assert (P : 0 < 2 ^ 400) by (apply pow2_pos; lia).
  assert (V80 : fval (S754_finite false 10485760 (-17)) = 80 * 2 ^ 400).
  { cbn [fval cond_Zopp]. unfold scaled. change (-17 + 400) with 383.
    change 400 with (17 + 383). rewrite (pow2_split 17 383) by lia.
    change (2 ^ 17) with 131072. lia. }
  assert (G80 : good (S754_finite false 10485760 (-17)) = true) by reflexivity.
  assert (G0 : good (S754_zero false) = true) by reflexivity.
  destruct x as [s|s| |s m e]; try discriminate.
  - destruct s; cbn [SFltb SFcompare]; cbn [good fval]; split; (reflexivity || lia).
  - destruct s; cbn [SFltb SFcompare].
    + cbn [good fval]. split; [reflexivity | lia].
    + rewrite V80. split; [exact G80 | lia].
  - assert (Gx : good (S754_finite s m e) = true) by exact Vx.
    rewrite (SFltb_fval _ _ Gx G0). change (fval (S754_zero false)) with 0.
    set (x := S754_finite s m e) in *.
    destruct (Z.ltb_spec (fval x) 0) as [H1|H1].
    + rewrite (SFltb_fval _ _ G80 G0), V80. change (fval (S754_zero false)) with 0.
      destruct (Z.ltb_spec (80 * 2 ^ 400) 0); [lia|].
      cbn [good fval]. split; [reflexivity | lia].
    + rewrite (SFltb_fval _ _ G80 Gx), V80.
      destruct (Z.ltb_spec (80 * 2 ^ 400) (fval x)) as [H2|H2].
      * rewrite V80. split; [exact G80 | lia].
      * split; [exact Gx | lia].
Qed.

(** ** The levels of the binary32 engine stay in range *)

Lemma scaled_mono a b e : -400 <= e -> a <= b -> scaled a e <= scaled b e.
Proof.
  intros He H. unfold scaled. pose proof (pow2_pos (e + 400) ltac:(lia)).
  apply Z.mul_le_mono_nonneg_r; lia.
Qed.

Lemma value_100 :
  good (S754_finite false 13107200 (-17)) = true /\
  fval (S754_finite false 13107200 (-17)) = 100 * 2 ^ 400.
Proof.
  split; [reflexivity|]. cbn [fval cond_Zopp]. unfold scaled.
  change (-17 + 400) with 383. change 400 with (17 + 383).
  rewrite (pow2_split 17 383) by lia. change (2 ^ 17) with 131072. lia.
Qed.

Lemma value_25 :
  good (@DEFAULT_VOLUME float _) = true /\
  fval (@DEFAULT_VOLUME float _) = 25 * 2 ^ 400.
Proof.
  unfold DEFAULT_VOLUME. rewrite lit_25_1.
  split; [reflexivity|]. cbn [fval cond_Zopp]. unfold scaled.
  change (-19 + 400) with 381. change 400 with (19 + 381).
  rewrite (pow2_split 19 381) by lia. change (2 ^ 19) with 524288. lia.
Qed.

(** The manual target: the conversion of [min m 100]. *)
Lemma manual_target_between (b : float) (lo m : Z) :
  good b = true -> fval b <= scaled lo 0 -> lo <= 0 -> lo <= m ->
  let t := fmin (of_int m) (@MAX_VOLUME float _) in
  good t = true /\ fval b <= fval t <= 100 * 2 ^ 400.
Proof.
  intros Gb Hb Hlo Hm. cbv zeta. rewrite fmin_binary32.
  destruct value_100 as [G100 V100]. rewrite <- V100.
  apply binary_normalize_sandwich; [lia | exact Gb | exact G100 |].
  rewrite V100. split.
  - apply Z.le_trans with (scaled lo 0); [exact Hb | apply scaled_mono; lia].
  - change (100 * 2 ^ 400) with (scaled 100 0). apply scaled_mono; lia.
Qed.

Section Invariant.
Variable b : float.
Variable lo : Z.
Hypothesis b_good : good b = true.
Hypothesis b_range : - 2 ^ 525 <= fval b <= 0.
Hypothesis b_below : fval b <= scaled lo 0.
Hypothesis lo_nonpos : lo <= 0.

Lemma levels_between_init now : levels_between b (init now).
Proof.
  destruct value_25 as [G V]. unfold levels_between. cbn [init currentVolume targetVolume controlType].
  rewrite V. assert (0 < 2 ^ 400) by (apply pow2_pos; lia).
  split; [exact G|]. split; [exact G|]. split; [lia|]. split; [lia|]. intros _. lia.
Qed.

Lemma levels_between_update s newSpeed newNoise rev horn nav md ct m now :
  levels_between b s -> (ct = MANUAL -> lo <= m) ->
  levels_between b (update s newSpeed newNoise rev horn nav md ct m now).
Proof.
  intros (Gc & Gt & Bc & Bt & Ba) Hm. unfold levels_between.
  destruct (update_fields s newSpeed newNoise rev horn nav md ct m now)
    as (_ & _ & _ & _ & _ & _ & _ & Ect & _ & Ecur).
  cbv zeta in Ect, Ecur. rewrite Ecur, Ect.
  assert (P : 0 < 2 ^ 400) by (apply pow2_pos; lia).
  destruct ct.
  - rewrite (update_before_clamp s newSpeed newNoise rev horn nav md m now).
    set (s' := update s newSpeed newNoise rev horn nav md ADAPTIVE m now).
    destruct (clampAdaptive_good (beforeClamp s')) as [G B].
    + apply gearOrBraking_valid, hornNavDucking_valid, baseVolumeOf_valid.
    + apply gearOrBraking_not_nan, hornNavDucking_not_nan, baseVolumeOf_not_nan.
    + split; [exact Gc|]. split; [exact G|]. split; [exact Bc|].
      split; [lia | intros _; exact B].
  - rewrite update_target_manual.
    destruct (manual_target_between b lo m b_good b_below lo_nonpos (Hm eq_refl))
      as [G B].
    split; [exact Gc|]. split; [exact G|]. split; [exact Bc|].
    split; [exact B | discriminate].
Qed.

Lemma levels_between_step s :
  levels_between b s -> levels_between b (smoothVolumeTransition s).
Proof.
  intros (Gc & Gt & Bc & Bt & Ba). unfold levels_between, smoothVolumeTransition.
  cbn [currentVolume targetVolume controlType set_currentVolume].
  assert (E525 : 100 * 2 ^ 400 <= 2 ^ 525).
  { change 525 with (125 + 400). rewrite (pow2_split 125 400) by lia.
    apply Z.mul_le_mono_nonneg_r; [apply Z.pow_nonneg; lia | apply Z.leb_le; reflexivity]. }
  destruct (step_between32 (currentVolume s) (targetVolume s)) as (G & U & D).
  - split; [exact Gc | lia].
  - split; [exact Gt | lia].
  - cbv zeta in G, U, D.
    split; [exact G|]. split; [exact Gt|].
    split; [|split; assumption].
    destruct (Z_le_gt_dec (fval (currentVolume s)) (fval (targetVolume s))) as [H|H].
    + specialize (U H). lia.
    + specialize (D ltac:(lia)). lia.
Qed.

Lemma levels_between_settle s :
  levels_between b s -> levels_between b (set_currentVolume s (targetVolume s)).
Proof.
  intros (Gc & Gt & Bc & Bt & Ba). unfold levels_between.
  cbn [currentVolume targetVolume controlType set_currentVolume].
  split; [exact Gt|]. split; [exact Gt|]. split; [exact Bt|]. split; assumption.
Qed.

Lemma levels_between_invariant s : reachable_above lo s -> levels_between b s.
Proof.
  induction 1 as [now | s sp no rv hn nv md ct m now _ IH Hm | s _ IH | fuel s s' _ IH Hp].
  - apply levels_between_init.
  - apply levels_between_update; assumption.
  - apply levels_between_step, IH.
  - rewrite (printAndSmooth_final _ _ _ Hp). apply levels_between_settle, IH.
Qed.

End Invariant.

Lemma good_not_nan (x : float) : good x = true -> is_nan x = false.
Proof. destruct x; (reflexivity || discriminate). Qed.

Lemma levels_between_bounded (b : float) (s : AdaptiveVolumeControl float) :
  levels_between b s -> levels_bounded_binary32 s.
Proof.
  intros (Gc & Gt & Bc & Bt & Ba).
  destruct value_100 as [G100 V100].
  assert (G80 : good (S754_finite false 10485760 (-17)) = true) by reflexivity.
  assert (V80 : fval (S754_finite false 10485760 (-17)) = 80 * 2 ^ 400).
  { cbn [fval cond_Zopp]. unfold scaled. change (-17 + 400) with 383.
    change 400 with (17 + 383). rewrite (pow2_split 17 383) by lia.
    change (2 ^ 17) with 131072. lia. }
  assert (G0 : good (S754_zero false) = true) by reflexivity.
  unfold levels_bounded_binary32, target_bounded_binary32, fleb,
    MIN_VOLUME, MAX_VOLUME, MAX_ADAPTIVE_VOLUME.
  rewrite lit_0_1, lit_80_1, lit_100_1.
  split; [split|split].
  - apply good_not_nan, Gt.
  - destruct (controlType s).
    + specialize (Ba eq_refl).
      rewrite (SFleb_fval _ _ G0 Gt), (SFleb_fval _ _ Gt G80), V80.
      change (fval (S754_zero false)) with 0.
      split; apply Z.leb_le; lia.
    + rewrite (SFleb_fval _ _ Gt G100), V100. apply Z.leb_le. lia.
  - apply good_not_nan, Gc.
  - rewrite (SFleb_fval _ _ Gc G100), V100. apply Z.leb_le. lia.
Qed.

Lemma levels_between_floor (lo : Z) (s : AdaptiveVolumeControl float) :
  good (conv lo) = true ->
  levels_between (conv lo) s -> levels_floor_binary32 lo s.
Proof.
  intros Gb (Gc & Gt & Bc & Bt & Ba).
  unfold levels_floor_binary32, fleb. cbv [of_int Binary32.arith].
  rewrite (SFleb_fval _ _ Gb Gt), (SFleb_fval _ _ Gb Gc).
  split; apply Z.leb_le; lia.
Qed.

Lemma min_int_value :
  good (conv Int32.min_int) = true /\
  fval (conv Int32.min_int) = scaled Int32.min_int 0.
Proof.
  assert (E : conv Int32.min_int = S754_finite true 8388608 8) by reflexivity.
  rewrite E. split; [reflexivity|].
  cbn [fval cond_Zopp]. unfold scaled, Int32.min_int.
  change (8 + 400) with 408. change (0 + 400) with 400.
  change 408 with (8 + 400). rewrite (pow2_split 8 400) by lia.
  change (Zpos 8388608) with (2 ^ 23). change (2 ^ 31) with (2 ^ 23 * 2 ^ 8). ring.
Qed.

Lemma levels_above_min_int (s : AdaptiveVolumeControl float) :
  reachable_above Int32.min_int s -> levels_between (conv Int32.min_int) s.
Proof.
  intros H. destruct min_int_value as [G V].
  apply (levels_between_invariant (conv Int32.min_int) Int32.min_int G);
    [ | rewrite V; lia | unfold Int32.min_int; lia | exact H ].
  rewrite V. unfold scaled, Int32.min_int. change (0 + 400) with 400.
  change 525 with (125 + 400). rewrite (pow2_split 125 400) by lia.
  assert (P : 0 < 2 ^ 400) by (apply pow2_pos; lia).
  split; [|nia].
  rewrite <- Z.mul_opp_l.
  apply Z.mul_le_mono_nonneg_r; [lia | apply Z.leb_le; reflexivity].
Qed.

Lemma levels_above_zero (s : AdaptiveVolumeControl float) :
  reachable_above 0 s -> levels_between (conv 0) s.
Proof.
  intros H.
  apply (levels_between_invariant (conv 0) 0 eq_refl);
    [ | change (fval (conv 0)) with 0; unfold scaled; lia | lia | exact H ].
  change (fval (conv 0)) with 0. pose proof (pow2_pos 525 ltac:(lia)). lia.
Qed.

(** These runs are runs of the engine. *)
Lemma reachable_above_reachable (lo : Z) (s : AdaptiveVolumeControl float) :
  reachable_above lo s -> reachable s.
Proof.
  induction 1 as [now | s sp no rv hn nv md ct m now _ IH _ | s _ IH | fuel s s' _ IH Hp].
  - apply reach_init.
  - apply reach_update, IH.
  - apply reach_step, IH.
  - apply (reach_smooth fuel s s' IH Hp).
Qed.

(** A higher bound on the manual levels allows fewer runs. *)
Lemma reachable_above_weaken (lo lo' : Z) (s : AdaptiveVolumeControl float) :
  lo' <= lo -> reachable_above lo s -> reachable_above lo' s.
Proof.
  intros Hl. induction 1 as [now | s sp no rv hn nv md ct m now _ IH Hm | s _ IH
                            | fuel s s' _ IH Hp].
  - apply above_init.
  - apply above_update; [exact IH | intros Hc; specialize (Hm Hc); lia].
  - apply above_step, IH.
  - apply (above_smooth lo' fuel s s' IH Hp).
Qed.

(** ** Scaling by a power of two *)

Section Rescale.
Variables p emx : Z.
Hypothesis p_pos : 0 < p.

Local Abbreviation emin := (SpecFloat.emin p emx).

(** Above the least exponent, the shift made by [shr_fexp] does not depend
    on the exponent. *)
Lemma shr_fexp_indep M E E' l :
  0 <= M -> emin <= E -> emin <= E' ->
  fst (shr_fexp p emx M E' l) = fst (shr_fexp p emx M E l) /\
  snd (shr_fexp p emx M E' l) = snd (shr_fexp p emx M E l) + (E' - E) /\
  E <= snd (shr_fexp p emx M E l).
Proof.
  intros HM HE HE'. unfold shr_fexp, shr, SpecFloat.fexp.
  set (d := Zdigits2 M).
  destruct (Z_le_gt_dec (d - p) 0) as [Hd|Hd].
  - destruct (Z.max (d + E - p) emin - E) as [|k|k] eqn:E1; try lia;
      destruct (Z.max (d + E' - p) emin - E') as [|k'|k'] eqn:E2; try lia;
      cbn [fst snd]; repeat split; lia.
  - replace (Z.max (d + E' - p) emin - E') with (d - p) by lia.
    replace (Z.max (d + E - p) emin - E) with (d - p) by lia.
    destruct (d - p) as [|k|k] eqn:E1; try lia.
    cbn [fst snd]. repeat split; lia.
Qed.

Lemma binary_round_aux_rescale sx M E E' l s m e :
  0 <= M -> emin <= E -> emin <= E' ->
  binary_round_aux p emx sx M E l = S754_finite s m e ->
  e + (E' - E) <= emx - p ->
  binary_round_aux p emx sx M E' l = S754_finite s m (e + (E' - E)).
Proof.
  intros HM HE HE'. unfold binary_round_aux.
  destruct (shr_fexp_indep M E E' l HM HE HE') as (F1 & S1 & L1).
  assert (Hn : 0 <= shr_m (fst (shr_fexp p emx M E l))).
  { unfold shr_fexp. apply shr_nonneg. rewrite shr_record_of_loc_m. exact HM. }
  destruct (shr_fexp p emx M E l) as [mrs1 e1].
  destruct (shr_fexp p emx M E' l) as [mrs1' e1'].
  cbn [fst snd] in F1, S1, L1, Hn. subst mrs1' e1'.
  set (m1 := round_nearest_even (shr_m mrs1) (loc_of_shr_record mrs1)).
  assert (Hm1 : 0 <= m1).
  { unfold m1. pose proof (round_nearest_even_ge (shr_m mrs1) (loc_of_shr_record mrs1)).
    lia. }
  destruct (shr_fexp_indep m1 e1 (e1 + (E' - E)) loc_Exact Hm1 ltac:(lia) ltac:(lia))
    as (F2 & S2 & L2).
  destruct (shr_fexp p emx m1 e1 loc_Exact) as [mrs2 e2].
  destruct (shr_fexp p emx m1 (e1 + (E' - E)) loc_Exact) as [mrs2' e2'].
  cbn [fst snd] in F2, S2, L2. subst mrs2' e2'.
  destruct (shr_m mrs2) as [|q|q]; try discriminate.
  destruct (Z.leb_spec e2 (emx - p)); [|discriminate].
  intros [= <- <- <-] Hle.
  replace (e2 + (e1 + (E' - E) - e1)) with (e2 + (E' - E)) by lia.
  rewrite (proj2 (Z.leb_le _ _) Hle). reflexivity.
Qed.

End Rescale.

Lemma digits_normal m : 2 ^ 23 <= Zpos m < 2 ^ 24 -> Zdigits2 (Zpos m) = 24.
Proof. intros H. apply Zdigits2_eq; [lia | exact H]. Qed.

(** Multiplying a normal number by [2 ^ -j] only moves its exponent. *)
Lemma SFmul_pow2 s m e j :
  2 ^ 23 <= Zpos m < 2 ^ 24 -> -149 <= e - j -> e - j <= 104 ->
  SFmul prec emax (S754_finite s m e) (S754_finite false 8388608 (-23 - j))
    = S754_finite s m (e - j).
Proof.
  intros Hm Hlo Hhi. cbn [SFmul]. rewrite xorb_false_r.
  set (M := Zpos (m * 8388608)). set (E := e + (-23 - j)).
  assert (EM : M = Zpos m * 2 ^ 23) by (unfold M; rewrite Pos2Z.inj_mul; reflexivity).
  assert (Hd : Zdigits2 M = 47).
  { rewrite EM, Zdigits2_shift by lia. rewrite digits_normal by exact Hm. reflexivity. }
  assert (Hf : SpecFloat.fexp prec emax (Zdigits2 M + E) = e - j).
  { rewrite Hd. unfold SpecFloat.fexp, SpecFloat.emin, prec, emax, E. lia. }
  destruct (binary_round_aux_explicit prec emax eq_refl s M E ltac:(unfold M; lia)
              ltac:(rewrite Hf; unfold E; lia))
    as (_ & _ & m1 & Hm1 & ->).
  cbv zeta in Hm1. rewrite Hf in *.
  replace (e - j - E) with 23 in Hm1 by (unfold E; lia).
  assert (Hq : M / 2 ^ 23 = Zpos m) by (rewrite EM; apply Z.div_mul; lia).
  assert (Hr : M mod 2 ^ 23 = 0) by (rewrite EM; apply Z.mod_mul; lia).
  rewrite Hq in Hm1. destruct Hm1 as [-> | [_ Hne]]; [|contradiction].
  change (2 ^ prec) with (2 ^ 24). change (emax - prec) with 104.
  destruct (Z.eqb_spec (Zpos m) 0); [lia|].
  destruct (Z.eqb_spec (Zpos m) (2 ^ 24)); [lia|].
  rewrite (proj2 (Z.leb_le _ _) Hhi). reflexivity.
Qed.

(** The product of two normal numbers, away from the ends of the exponent
    range, is a normal number. *)
Lemma SFmul_normal sx mx ex sc mc ec :
  2 ^ 23 <= Zpos mx < 2 ^ 24 -> 2 ^ 23 <= Zpos mc < 2 ^ 24 ->
  -149 <= ex + ec -> ex + ec + 25 <= 104 ->
  exists m e,
    SFmul prec emax (S754_finite sx mx ex) (S754_finite sc mc ec)
      = S754_finite (xorb sx sc) m e /\
    2 ^ 23 <= Zpos m < 2 ^ 24 /\ ex + ec + 23 <= e <= ex + ec + 25.
Proof.
  intros Hx Hc Hlo Hhi. cbn [SFmul].
  set (M := Zpos (mx * mc)). set (E := ex + ec).
  assert (EM : M = Zpos mx * Zpos mc) by (unfold M; apply Pos2Z.inj_mul).
  assert (HM : 2 ^ 46 <= M < 2 ^ 48).
  { change (2 ^ 46) with (2 ^ 23 * 2 ^ 23). change (2 ^ 48) with (2 ^ 24 * 2 ^ 24).
    rewrite EM. split; nia. }
  assert (Hd : 47 <= Zdigits2 M <= 48).
  { split; [apply Zdigits2_ge; [exact (proj1 HM) | lia]
           | apply Zdigits2_le; [lia | exact (proj2 HM)]]. }
  assert (Hf : SpecFloat.fexp prec emax (Zdigits2 M + E) = Zdigits2 M + E - 24).
  { unfold SpecFloat.fexp, SpecFloat.emin, prec, emax. lia. }
  destruct (binary_round_aux_explicit prec emax eq_refl (xorb sx sc) M E ltac:(lia)
              ltac:(rewrite Hf; lia))
    as (Hq & Hqlo & m1 & Hm1 & ->).
  cbv zeta in Hq, Hqlo, Hm1. rewrite Hf in *.
  change (SpecFloat.emin prec emax) with (-149) in Hqlo.
  change (prec - 1) with 23 in *. change (2 ^ prec) with (2 ^ 24) in *.
  change (emax - prec) with 104.
  specialize (Hqlo ltac:(lia)).
  set (q := M / 2 ^ (Zdigits2 M + E - 24 - E)) in *.
  assert (Hm1r : 2 ^ 23 <= m1 <= 2 ^ 24) by (destruct Hm1 as [-> | [-> _]]; lia).
  destruct (Z.eqb_spec m1 0); [lia|].
  destruct (Z.eqb_spec m1 (2 ^ 24)).
  - rewrite (proj2 (Z.leb_le (Zdigits2 M + E - 24 + 1) 104)) by lia.
    eexists _, _. split; [reflexivity|]. split; [|lia].
    rewrite Z2Pos.id by reflexivity. split; [lia | reflexivity].
  - rewrite (proj2 (Z.leb_le (Zdigits2 M + E - 24) 104)) by lia.
    eexists _, _. split; [reflexivity|]. split; [|lia].
    rewrite Z2Pos.id by lia. lia.
Qed.

(** Ducking by 0.6 and 0.5 commutes with a factor that is a power of two:
    the gear factor 0.25 and the strong braking factor 0.5. *)
Lemma duck_commutes_with_pow2 (x : float) (j : Z) :
  match x with
  | S754_zero _ => True
  | S754_finite _ m e => 2 ^ 23 <= Zpos m < 2 ^ 24 /\ -100 <= e <= 60
  | _ => False
  end ->
  1 <= j <= 2 ->
  let cj := S754_finite false 8388608 (-23 - j) in
  let c6 := S754_finite false 10066330 (-24) in
  let c5 := S754_finite false 8388608 (-24) in
  SFmul prec emax (SFmul prec emax (SFmul prec emax x c6) c5) cj
    = SFmul prec emax (SFmul prec emax (SFmul prec emax x cj) c6) c5.
Proof.
  intros Hx Hj cj c6 c5.
  destruct x as [s|s| |s m e]; try contradiction.
  - destruct s; reflexivity.
  - destruct Hx as [Hm He].
    assert (H6 : 2 ^ 23 <= Zpos 10066330 < 2 ^ 24) by (split; [discriminate | reflexivity]).
    destruct (SFmul_normal s m e false 10066330 (-24) Hm H6 ltac:(lia) ltac:(lia))
      as (my & ey & Ey & Hmy & Hey).
    rewrite xorb_false_r in Ey.
    (* left: duck, then scale *)
    unfold c6 at 1. rewrite Ey.
    unfold c5 at 1. change (-24) with (-23 - 1) at 1.
    rewrite (SFmul_pow2 s my ey 1 Hmy) by lia.
    unfold cj at 1. rewrite (SFmul_pow2 s my (ey - 1) j Hmy) by lia.
    (* right: scale, then duck *)
    unfold cj. rewrite (SFmul_pow2 s m e j Hm) by lia.
    assert (R : SFmul prec emax (S754_finite s m (e - j)) c6
                = S754_finite s my (ey - j)).
    { unfold c6. cbn [SFmul]. rewrite xorb_false_r.
      cbn [SFmul] in Ey. rewrite xorb_false_r in Ey.
      replace (ey - j) with (ey + ((e - j + -24) - (e + -24))) by lia.
      apply (binary_round_aux_rescale prec emax s _ (e + -24) (e - j + -24)
               loc_Exact s my ey);
        [ lia
        | unfold SpecFloat.emin, prec, emax; lia
        | unfold SpecFloat.emin, prec, emax; lia
        | exact Ey
        | unfold prec, emax; lia ]. }
    rewrite R. unfold c5. change (-24) with (-23 - 1).
    rewrite (SFmul_pow2 s my (ey - j) 1 Hmy) by lia.
    f_equal. lia.
Qed.

(** ** The magnitude of the base level *)

(** A result that no rounding moves across a number of the format is in
    the band of its exact value ([K] is the unit of the exact value). *)
Lemma band_of_rounding (r : float) (W K : Z) (L U : Z) :
  (forall lo hi : float, good lo = true -> good hi = true ->
     fval lo * K <= W <= fval hi * K ->
     good r = true /\ fval lo <= fval r <= fval hi) ->
  0 < K -> -149 <= L -> L <= U -> U <= 127 ->
  (W = 0 \/ 2 ^ (L + 400) * K <= Z.abs W <= 2 ^ (U + 400) * K) ->
  band L U r.
Proof.
  intros H HK HL HLU HU HW.
  destruct (pow2f_spec L ltac:(lia)) as [GL VL].
  destruct (pow2f_spec U ltac:(lia)) as [GU VU].
  pose proof (pow2_pos (L + 400) ltac:(lia)) as PL.
  assert (PLU : 2 ^ (L + 400) <= 2 ^ (U + 400)) by (apply Z.pow_le_mono_r; lia).
  unfold band.
  destruct (Z.compare_spec W 0) as [Hz|Hn|Hp].
  - destruct (H (S754_zero false) (S754_zero false) eq_refl eq_refl) as [G B];
      [cbn [fval]; lia|]. cbn [fval] in B. split; [exact G | left; lia].
  - destruct HW as [HW|HW]; [lia|]. rewrite Z.abs_neq in HW by lia.
    destruct (H (SFopp (pow2f U)) (SFopp (pow2f L))) as [G B];
      try (rewrite good_opp; assumption).
    + rewrite !fval_opp, VL, VU. lia.
    + rewrite !fval_opp, VL, VU in B. split; [exact G|]. right.
      rewrite Z.abs_neq by lia. lia.
  - destruct HW as [HW|HW]; [lia|]. rewrite Z.abs_eq in HW by lia.
    destruct (H (pow2f L) (pow2f U) GL GU) as [G B].
    + rewrite VL, VU. lia.
    + rewrite VL, VU in B. split; [exact G|]. right.
      rewrite Z.abs_eq by lia. lia.
Qed.

Lemma conv_band z : Int32.in_range z -> band 0 31 (conv z).
Proof.
  intros [Hlo Hhi]. unfold Int32.min_int, Int32.max_int in *.
  apply (band_of_rounding (conv z) (scaled z 0) 1); try lia.
  - intros lo hi Glo Ghi Hv. apply binary_normalize_sandwich; try assumption; lia.
  - unfold scaled. change (0 + 400) with 400.
    pose proof (pow2_pos 400 ltac:(lia)) as P.
    change (31 + 400) with (31 + 400). rewrite (pow2_split 31 400) by lia.
    destruct (Z.eq_dec z 0) as [->|Hz]; [left; reflexivity | right].
    rewrite Z.abs_mul, (Z.abs_eq (2 ^ 400)) by lia.
    rewrite !Z.mul_1_r. split.
    + assert (1 <= Z.abs z) by lia. nia.
    + apply Z.mul_le_mono_nonneg_r; lia.
Qed.

(** A number in a band is zero or normal, with a bounded exponent. *)
Lemma band_normal L U (x : float) :
  band L U x -> -125 <= L ->
  match x with
  | S754_zero _ => True
  | S754_finite _ m e => 2 ^ 23 <= Zpos m < 2 ^ 24 /\ L - 23 <= e <= U - 23
  | _ => False
  end.
Proof.
  intros [G B] HL. destruct x as [s|s| |s m e]; try discriminate; [exact I|].
  cbn [good] in G. destruct (bounded_inv m e G) as (Hm & He & Hn).
  assert (V : Z.abs (fval (S754_finite s m e)) = Zpos m * 2 ^ (e + 400)).
  { pose proof (scaled_pos m e ltac:(lia)) as Hp. cbn [fval].
    destruct s; cbn [cond_Zopp]; unfold scaled in *; lia. }
  pose proof (pow2_pos (e + 400) ltac:(lia)) as Pe.
  destruct B as [B|[B1 B2]]; [rewrite <- Z.abs_0_iff in B; lia|].
  rewrite V in B1, B2.
  assert (E1 : L - 23 <= e).
  { assert (2 ^ (L + 400) < 2 ^ (24 + (e + 400))).
    { rewrite (pow2_split 24 (e + 400)) by lia. nia. }
    pose proof (pow2_lt_inv (L + 400) (24 + (e + 400)) ltac:(lia) H). lia. }
  specialize (Hn ltac:(lia)).
  split; [lia|]. split; [exact E1|].
  assert (HU : 0 <= U + 400).
  { destruct (Z_lt_le_dec (U + 400) 0) as [Hc|Hc]; [|exact Hc].
    rewrite (Z.pow_neg_r 2 (U + 400)) in B2 by exact Hc. nia. }
  assert (2 ^ (23 + (e + 400)) < 2 ^ (U + 400 + 1)).
  { rewrite (pow2_split 23 (e + 400)) by lia.
    assert (0 < 2 ^ (U + 400)) by (apply pow2_pos; lia).
    replace (U + 400 + 1) with (Z.succ (U + 400)) by lia.
    rewrite Z.pow_succ_r by lia. nia. }
  pose proof (pow2_lt_inv (23 + (e + 400)) (U + 400 + 1) ltac:(lia) H). lia.
Qed.

Lemma band_multiple L U (x : float) :
  band L U x -> -125 <= L -> exists z, fval x = z * 2 ^ (L - 23 + 400).
Proof.
  intros B HL. pose proof (band_normal L U x B HL) as N.
  destruct x as [s|s| |s m e]; try contradiction.
  - exists 0. reflexivity.
  - destruct N as [_ [He _]].
    exists (cond_Zopp s (Zpos m) * 2 ^ (e - (L - 23))).
    rewrite fval_finite. unfold scaled.
    replace (e + 400) with ((e - (L - 23)) + (L - 23 + 400)) by lia.
    rewrite (pow2_split (e - (L - 23)) (L - 23 + 400)) by lia. ring.
Qed.

(** Multiplying by a positive constant of magnitude between [2 ^ Lc] and
    [2 ^ Uc]. *)
Lemma SFmul_band L U Lc Uc (x c : float) :
  band L U x -> good c = true ->
  2 ^ (Lc + 400) <= fval c <= 2 ^ (Uc + 400) ->
  -400 <= Lc -> -400 <= L -> L <= U -> Lc <= Uc ->
  -149 <= L + Lc -> U + Uc <= 127 ->
  band (L + Lc) (U + Uc) (SFmul prec emax x c).
Proof.
  intros [Gx Bx] Gc [C1 C2] HLc HL HLU HLcU Hlo Hhi.
  pose proof (pow2_pos 400 ltac:(lia)) as P.
  pose proof (pow2_pos (Lc + 400) ltac:(lia)) as PLc.
  pose proof (pow2_pos (L + 400) ltac:(lia)) as PL.
  apply (band_of_rounding _ (fval x * fval c) (2 ^ 400)); try lia.
  - intros lo hi Glo Ghi Hv. apply SFmul_sandwich; assumption.
  - destruct Bx as [Bx|[B1 B2]]; [left; rewrite Bx; reflexivity | right].
    rewrite Z.abs_mul, (Z.abs_eq (fval c)) by lia.
    replace (L + Lc + 400) with ((L + 400) + Lc) by lia.
    replace (U + Uc + 400) with ((U + 400) + Uc) by lia.
    assert (E1 : 2 ^ (L + 400 + Lc) * 2 ^ 400 = 2 ^ (L + 400) * 2 ^ (Lc + 400)).
    { rewrite <- !Z.pow_add_r by lia. f_equal. lia. }
    assert (E2 : 2 ^ (U + 400 + Uc) * 2 ^ 400 = 2 ^ (U + 400) * 2 ^ (Uc + 400)).
    { rewrite <- !Z.pow_add_r by lia. f_equal. lia. }
    rewrite E1, E2. split; apply Z.mul_le_mono_nonneg; lia.
Qed.

(** Adding two numbers that are multiples of [2 ^ a]. *)
Lemma SFadd_band a U (x y : float) :
  good x = true -> good y = true ->
  (exists z, fval x = z * 2 ^ (a + 400)) -> (exists z, fval y = z * 2 ^ (a + 400)) ->
  Z.abs (fval x) <= 2 ^ (U + 400) -> Z.abs (fval y) <= 2 ^ (U + 400) ->
  -149 <= a -> a <= U -> U + 1 <= 127 ->
  band a (U + 1) (SFadd prec emax x y).
Proof.
  intros Gx Gy [zx Hx] [zy Hy] Bx By Ha HaU HU.
  pose proof (pow2_pos (a + 400) ltac:(lia)) as Pa.
  apply (band_of_rounding _ (fval x + fval y) 1); try lia.
  - intros lo hi Glo Ghi Hv. apply SFadd_sandwich; try assumption. lia.
  - rewrite !Z.mul_1_r.
    replace (U + 1 + 400) with (Z.succ (U + 400)) by lia.
    rewrite Z.pow_succ_r by lia.
    destruct (Z.eq_dec (fval x + fval y) 0) as [E0|E0]; [left; exact E0 | right].
    split; [|lia].
    rewrite Hx, Hy in *. rewrite <- Z.mul_add_distr_r in *.
    rewrite Z.abs_mul, (Z.abs_eq (2 ^ (a + 400))) by lia.
    assert (1 <= Z.abs (zx + zy)) by nia. nia.
Qed.

Lemma band_weaken L U L' U' (x : float) :
  band L U x -> L' <= L -> U <= U' -> -400 <= L' -> band L' U' x.
Proof.
  intros [G B] HL HU HL'. split; [exact G|].
  destruct B as [B|[B1 B2]]; [left; exact B | right].
  assert (HU0 : 0 <= U + 400).
  { destruct (Z_lt_le_dec (U + 400) 0) as [Hc|Hc]; [|exact Hc].
    rewrite (Z.pow_neg_r 2 (U + 400)) in B2 by exact Hc.
    destruct (Z_lt_le_dec (L + 400) 0) as [Hd|Hd]; [lia|].
    pose proof (pow2_pos (L + 400) Hd). lia. }
  split.
  - apply Z.le_trans with (2 ^ (L + 400)); [apply Z.pow_le_mono_r; lia | exact B1].
  - apply Z.le_trans with (2 ^ (U + 400)); [exact B2 | apply Z.pow_le_mono_r; lia].
Qed.

Lemma finite_multiple s m e a :
  -400 <= a -> a <= e -> exists z, fval (S754_finite s m e) = z * 2 ^ (a + 400).
Proof.
  intros Ha He. exists (cond_Zopp s (Zpos m) * 2 ^ (e - a)).
  rewrite fval_finite. unfold scaled.
  replace (e + 400) with ((e - a) + (a + 400)) by lia.
  rewrite (pow2_split (e - a) (a + 400)) by lia. ring.
Qed.

Lemma finite_abs_le s m e U :
  Zpos m < 2 ^ 24 -> -400 <= e -> e + 24 <= U ->
  Z.abs (fval (S754_finite s m e)) <= 2 ^ (U + 400).
Proof.
  intros Hm He HU. pose proof (pow2_pos (e + 400) ltac:(lia)) as P.
  assert (V : Z.abs (fval (S754_finite s m e)) = Zpos m * 2 ^ (e + 400)).
  { cbn [fval]. destruct s; cbn [cond_Zopp]; unfold scaled; lia. }
  rewrite V. apply Z.le_trans with (2 ^ (24 + (e + 400))).
  - rewrite (pow2_split 24 (e + 400)) by lia. nia.
  - apply Z.pow_le_mono_r; lia.
Qed.

(** The speed part of the base level is 25, 30, 35 or 40. *)
Lemma speed_part_cases (v : Z) :
  let b := if 70 <? v then fadd (lit 25 1) (of_int 15)
           else if 30 <? v then fadd (lit 25 1) (of_int 10)
           else if 0 <? v then fadd (lit 25 1) (of_int 5) else @lit float _ 25 1 in
  exists m e, b = S754_finite false m e /\ Zpos m < 2 ^ 24 /\ -19 <= e <= -18 /\
              good b = true.
Proof.
  cbv zeta.
  destruct (70 <? v); [exists 10485760%positive, (-18); repeat split; try reflexivity; lia|].
  destruct (30 <? v); [exists 9175040%positive, (-18); repeat split; try reflexivity; lia|].
  destruct (0 <? v); [exists 15728640%positive, (-19); repeat split; try reflexivity; lia|].
  exists 13107200%positive, (-19); repeat split; try reflexivity; lia.
Qed.

(** With a cabin noise that is an [int], the base level is zero or a
    normal number far from both ends of the exponent range. *)
Lemma baseVolumeOf_band (s : AdaptiveVolumeControl float) :
  Int32.in_range (cabinNoise s) -> band (-27) 32 (baseVolumeOf s).
Proof.
  intros Hn. unfold baseVolumeOf. cbv zeta.
  destruct (speed_part_cases (speed s)) as (m0 & e0 & E0 & Hm0 & He0 & G0).
  cbv zeta in E0, G0. rewrite E0 in *. clear E0.
  assert (P374 : 0 < 2 ^ 374) by (apply pow2_pos; lia).
  (* the noise part *)
  assert (Bt : band (-3) 29 (fmul (of_int (cabinNoise s)) (lit 2 10))).
  { rewrite lit_2_10.
    apply (SFmul_band 0 31 (-3) (-2) (conv (cabinNoise s)));
      try lia; [apply conv_band, Hn | reflexivity |].
    cbn [fval cond_Zopp]. unfold scaled. change (-26 + 400) with 374.
    change (-3 + 400) with (23 + 374). change (-2 + 400) with (24 + 374).
    rewrite (pow2_split 23 374), (pow2_split 24 374) by lia.
    split; apply Z.mul_le_mono_nonneg_r; try lia; apply Z.leb_le; reflexivity. }
  set (t := fmul (of_int (cabinNoise s)) (lit 2 10)) in *.
  (* the sum *)
  assert (Bs : band (-26) 31 (fadd (S754_finite false m0 e0) t)).
  { apply (SFadd_band (-26) 30); try lia.
    - exact G0.
    - apply Bt.
    - apply finite_multiple; lia.
    - apply (band_multiple (-3) 29 t Bt). lia.
    - apply finite_abs_le; [exact Hm0 | lia | lia].
    - destruct Bt as [_ [Z0 | [_ B2]]].
      + rewrite Z0. apply Z.lt_le_incl, pow2_pos. lia.
      + apply Z.le_trans with (2 ^ (29 + 400)); [exact B2 | apply Z.pow_le_mono_r; lia]. }
  destruct (mode s).
  - apply (band_weaken (-26 + -1) (31 + 0)); try lia.
    rewrite lit_8_10. apply SFmul_band; try lia; [exact Bs | reflexivity |].
    cbn [fval cond_Zopp]. unfold scaled. change (-24 + 400) with 376.
    change (-1 + 400) with (23 + 376). change (0 + 400) with (24 + 376).
    rewrite (pow2_split 23 376), (pow2_split 24 376) by lia.
    assert (0 < 2 ^ 376) by (apply pow2_pos; lia).
    split; apply Z.mul_le_mono_nonneg_r; try lia; apply Z.leb_le; reflexivity.
  - apply (band_weaken (-26) 31); try lia. exact Bs.
  - apply (band_weaken (-26 + 0) (31 + 1)); try lia.
    rewrite lit_12_10. apply SFmul_band; try lia; [exact Bs | reflexivity |].
    cbn [fval cond_Zopp]. unfold scaled. change (-23 + 400) with 377.
    change (0 + 400) with (23 + 377). change (1 + 400) with (24 + 377).
    rewrite (pow2_split 23 377), (pow2_split 24 377) by lia.
    assert (0 < 2 ^ 377) by (apply pow2_pos; lia).
    split; apply Z.mul_le_mono_nonneg_r; try lia; apply Z.leb_le; reflexivity.
Qed.

Lemma baseVolumeOf_normal (s : AdaptiveVolumeControl float) :
  Int32.in_range (cabinNoise s) ->
  match baseVolumeOf s with
  | S754_zero _ => True
  | S754_finite _ m e => 2 ^ 23 <= Zpos m < 2 ^ 24 /\ -100 <= e <= 60
  | _ => False
  end.
Proof.
  intros Hn. pose proof (band_normal (-27) 32 _ (baseVolumeOf_band s Hn) ltac:(lia)) as N.
  destruct (baseVolumeOf s) as [z|z| |z m e]; try exact N.
  destruct N as [N1 N2]. split; [exact N1 | lia].
Qed.

(** ** Ducking and the gear or braking factor, binary32 *)

Lemma ducked_commutes (s : AdaptiveVolumeControl float) :
  Int32.in_range (cabinNoise s) -> mild_deceleration s = false ->
  gearOrBraking s (ducked (baseVolumeOf s)) = ducked (gearOrBraking s (baseVolumeOf s)).
Proof.
  intros Hn Hm. pose proof (baseVolumeOf_normal s Hn) as N.
  unfold mild_deceleration in Hm. unfold gearOrBraking, ducked, HORN_DUCK_MULTIPLIER.
  rewrite lit_6_10, lit_5_10, lit_25_100, lit_9_10.
  change (@fmul float _) with (SFmul prec emax).
  destruct (reverseGear s); cbn [negb andb] in *.
  - exact (duck_commutes_with_pow2 (baseVolumeOf s) 2 N ltac:(lia)).
  - destruct (10 <? Int32.wrap32 (previousSpeed s - speed s)); cbn [negb andb] in *.
    + exact (duck_commutes_with_pow2 (baseVolumeOf s) 1 N ltac:(lia)).
    + rewrite Hm. reflexivity.
Qed.

(** ** The convergence loop in binary32 *)

(** The multiples of [2 ^ -16] below 256 are numbers of the format. *)
Lemma grid_number (k : Z) :
  0 <= k < 2 ^ 24 -> exists h : float, good h = true /\ fval h = k * 2 ^ 384.
Proof.
  intros [K0 K1]. destruct (Z.eq_dec k 0) as [->|Kn].
  - exists (S754_zero false). split; reflexivity.
  - assert (Kp : 0 < k) by lia.
    pose proof (Z.log2_spec k Kp) as [L1 L2].
    assert (L0 : 0 <= Z.log2 k) by apply Z.log2_nonneg.
    assert (L24 : Z.log2 k < 24) by (apply Z.log2_lt_pow2; lia).
    set (a := 23 - Z.log2 k).
    assert (Pa : 0 < 2 ^ a) by (apply pow2_pos; unfold a; lia).
    assert (E23 : 2 ^ Z.log2 k * 2 ^ a = 2 ^ 23).
    { rewrite <- (pow2_split (Z.log2 k) a) by (unfold a; lia). f_equal. unfold a. lia. }
    assert (E24 : 2 ^ Z.succ (Z.log2 k) * 2 ^ a = 2 ^ 24).
    { rewrite Z.pow_succ_r by lia. change (2 ^ 24) with (2 * 2 ^ 23). rewrite <- E23. ring. }
    exists (S754_finite false (Z.to_pos (k * 2 ^ a)) (-16 - a)). split.
    + cbn [good]. apply bounded_intro; [split; nia | unfold a; lia | intros _; nia].
    + cbn [fval cond_Zopp]. unfold scaled. rewrite Z2Pos.id by nia.
      replace (2 ^ 384) with (2 ^ a * 2 ^ (-16 - a + 400)); [ring|].
      rewrite <- (pow2_split a (-16 - a + 400)) by (unfold a; lia). f_equal. lia.
Qed.

Lemma fval_abs (x : float) : fval (SFabs x) = Z.abs (fval x).
Proof.
  destruct x as [s|s| |s m e]; try reflexivity.
  cbn [SFabs fval cond_Zopp]. unfold scaled.
  pose proof (Z.pow_nonneg 2 (e + 400) ltac:(lia)).
  destruct s; cbn [cond_Zopp]; [rewrite Z.abs_opp|]; rewrite Z.abs_eq; nia.
Qed.

Lemma good_abs (x : float) : good x = true -> good (SFabs x) = true.
Proof. destruct x; intros H; try discriminate; exact H. Qed.

(** The loop condition of [printAndSmooth] on values: the gap exceeds 0.5. *)
Lemma far_from_target_value (s : AdaptiveVolumeControl float) :
  good (currentVolume s) = true -> good (targetVolume s) = true ->
  far_from_target s = true ->
  2 ^ 399 < Z.abs (fval (currentVolume s) - fval (targetVolume s)).
Proof.
  intros Gc Gt. unfold far_from_target. rewrite lit_5_10.
  change (@fltb float _) with SFltb. change (@fabs float _) with SFabs.
  change (@fsub float _) with (SFsub prec emax).
  set (C := fval (currentVolume s)) in *. set (T := fval (targetVolume s)) in *.
  intros Hf.
  destruct (Z_lt_le_dec (2 ^ 399) (Z.abs (C - T))) as [H|H]; [exact H | exfalso].
  destruct (pow2f_spec (-1) ltac:(lia)) as [Gh Vh]. change (-1 + 400) with 399 in Vh.
  assert (Go : good (SFopp (pow2f (-1))) = true) by (rewrite good_opp; exact Gh).
  destruct (SFsub_sandwich (currentVolume s) (targetVolume s)
              (SFopp (pow2f (-1))) (pow2f (-1)) Gc Gt Go Gh) as [Gd Bd].
  - rewrite fval_opp, Vh. fold C T. lia.
  - rewrite fval_opp, Vh in Bd.
    change (S754_finite false 8388608 (-24)) with (pow2f (-1)) in Hf.
    rewrite (SFltb_fval _ _ Gh (good_abs _ Gd)) in Hf.
    rewrite fval_abs, Vh in Hf. apply Z.ltb_lt in Hf. lia.
Qed.

Lemma units_374 :
  2 ^ 375 = 2 * 2 ^ 374 /\ 2 ^ 384 = 1024 * 2 ^ 374 /\
  2 ^ 396 = 4194304 * 2 ^ 374 /\ 2 ^ 399 = 33554432 * 2 ^ 374 /\
  2 ^ 400 = 67108864 * 2 ^ 374 /\ 2 ^ 406 = 4294967296 * 2 ^ 374 /\
  2 ^ 407 = 8589934592 * 2 ^ 374 /\ 2 ^ 408 = 17179869184 * 2 ^ 374 /\
  0 < 2 ^ 374.
Proof. repeat split. Qed.

Lemma half_smooth_factor_value :
  good (S754_finite false 10066330 (-26)) = true /\
  fval (S754_finite false 10066330 (-26)) = 10066330 * 2 ^ 374.
Proof. split; reflexivity. Qed.

(** While the gap exceeds 0.5, a convergence step between levels within
    [0, 100] moves the current level towards the target by at least
    [2 ^ -4], and not beyond it. *)
Lemma step_progress32 (c t : float) :
  good c = true -> good t = true ->
  0 <= fval c <= 100 * 2 ^ 400 -> 0 <= fval t <= 100 * 2 ^ 400 ->
  2 ^ 399 < Z.abs (fval c - fval t) ->
  let c' := fadd c (fmul (fsub t c) SMOOTH_FACTOR) in
  good c' = true /\
  (fval c <= fval t -> fval c + 2 ^ 396 <= fval c' <= fval t) /\
  (fval t <= fval c -> fval t <= fval c' <= fval c - 2 ^ 396).
Proof.
  intros Gc Gt Bc Bt Hgap.
  assert (E525 : 100 * 2 ^ 400 <= 2 ^ 525).
  { change 525 with (125 + 400). rewrite (pow2_split 125 400) by lia.
    apply Z.mul_le_mono_nonneg_r; [apply Z.pow_nonneg; lia | apply Z.leb_le; reflexivity]. }
  destruct (step_between32 c t) as (G & U & D);
    [split; [exact Gc | lia] | split; [exact Gt | lia] |].
  cbv zeta in G, U, D |- *. split; [exact G|].
  revert G U D.
  change (@fadd float _) with (SFadd prec emax).
  change (@fmul float _) with (SFmul prec emax).
  change (@fsub float _) with (SFsub prec emax).
  intros G U D.
  destruct smooth_factor_value as [Gf Vf].
  set (f := @SMOOTH_FACTOR float _) in *.
  destruct half_smooth_factor_value as [Gq Vq].
  set (q := S754_finite false 10066330 (-26)) in *.
  destruct (pow2f_spec (-1) ltac:(lia)) as [G1 V1]. change (-1 + 400) with 399 in V1.
  destruct (pow2f_spec 6 ltac:(lia)) as [G6 V6]. change (6 + 400) with 406 in V6.
  destruct (pow2f_spec 7 ltac:(lia)) as [G7 V7]. change (7 + 400) with 407 in V7.
  destruct (pow2f_spec 8 ltac:(lia)) as [G8 V8]. change (8 + 400) with 408 in V8.
  destruct units_374 as (E375 & E384 & E396 & E399 & E400 & E406 & E407 & E408 & PG).
  rewrite E375 in Vf.
  rewrite E399 in V1, Hgap. rewrite E400 in Bc, Bt. rewrite E406 in V6. rewrite E407 in V7. rewrite E408 in V8.
  rewrite E396.
  set (C := fval c) in *. set (T := fval t) in *.
  set (d := SFsub prec emax t c) in *.
  set (e := SFmul prec emax d f) in *.
  split; intros Hct.
  - (* the target is above *)
    specialize (U Hct). split; [|apply U].
    assert (Hd : 33554432 * 2 ^ 374 <= T - C) by lia.
    destruct (SFsub_sandwich t c (pow2f (-1)) (pow2f 7) Gt Gc G1 G7) as [Gd Bd];
      [rewrite V1, V7; fold C T; lia|].
    fold d in Gd, Bd. rewrite V1, V7 in Bd.
    destruct (SFmul_sandwich d f q (pow2f 6) Gd Gf Gq G6) as [Ge Be].
    { rewrite Vq, V6, Vf, E400. set (g := 2 ^ 374) in *. split.
      - replace (10066330 * g * (67108864 * g)) with (33554432 * g * (20132660 * g)) by ring.
        replace (2 * 10066330 * g) with (20132660 * g) by ring.
        apply Z.mul_le_mono_nonneg_r; lia.
      - replace (4294967296 * g * (67108864 * g))
          with (8589934592 * g * (33554432 * g)) by ring.
        apply Z.mul_le_mono_nonneg; lia. }
    fold e in Ge, Be. rewrite Vq, V6 in Be.
    set (k := (C + 4194304 * 2 ^ 374 + (2 ^ 384 - 1)) / 2 ^ 384).
    assert (P384 : 0 < 2 ^ 384) by (apply pow2_pos; lia).
    pose proof (Z.mul_div_le (C + 4194304 * 2 ^ 374 + (2 ^ 384 - 1)) (2 ^ 384) P384) as K1.
    pose proof (Z.mul_succ_div_gt (C + 4194304 * 2 ^ 374 + (2 ^ 384 - 1)) (2 ^ 384) P384) as K2.
    fold k in K1, K2. rewrite Z.mul_succ_r in K2.
    assert (K0 : 0 <= k) by (apply Z.div_pos; lia).
    assert (K24 : k < 2 ^ 24).
    { apply (Z.mul_lt_mono_pos_l (2 ^ 384)); [exact P384|].
      change (2 ^ 384 * 2 ^ 24) with (2 ^ 408). rewrite E408. rewrite E384 in K1 |- *. lia. }
    destruct (grid_number k (conj K0 K24)) as (h & Gh & Vh).
    rewrite Z.mul_comm in Vh.
    destruct (SFadd_sandwich c e h (pow2f 8) Gc Ge Gh G8) as [_ Br].
    { rewrite Vh, V8. fold C. rewrite E384 in K1, K2 |- *. lia. }
    rewrite Vh in Br. rewrite E384 in K1, K2, Br. lia.
  - (* the target is below *)
    specialize (D Hct). split; [apply D|].
    assert (Hd : 33554432 * 2 ^ 374 <= C - T) by lia.
    assert (Go1 : good (SFopp (pow2f (-1))) = true) by (rewrite good_opp; exact G1).
    assert (Go6 : good (SFopp (pow2f 6)) = true) by (rewrite good_opp; exact G6).
    assert (Go7 : good (SFopp (pow2f 7)) = true) by (rewrite good_opp; exact G7).
    assert (Goq : good (SFopp q) = true) by (rewrite good_opp; exact Gq).
    destruct (SFsub_sandwich t c (SFopp (pow2f 7)) (SFopp (pow2f (-1))) Gt Gc Go7 Go1)
      as [Gd Bd]; [rewrite !fval_opp, V1, V7; fold C T; lia|].
    fold d in Gd, Bd. rewrite !fval_opp, V1, V7 in Bd.
    destruct (SFmul_sandwich d f (SFopp (pow2f 6)) (SFopp q) Gd Gf Go6 Goq) as [Ge Be].
    { rewrite !fval_opp, Vq, V6, Vf, E400. set (g := 2 ^ 374) in *.
      assert (M1 : (- fval d) * (2 * 10066330 * g) <= 8589934592 * g * (33554432 * g))
        by (apply Z.mul_le_mono_nonneg; lia).
      assert (M2 : 33554432 * g * (20132660 * g) <= (- fval d) * (20132660 * g))
        by (apply Z.mul_le_mono_nonneg_r; lia).
      split; [|].
      - replace (- (4294967296 * g) * (67108864 * g))
          with (- (8589934592 * g * (33554432 * g))) by ring.
        replace (fval d * (2 * 10066330 * g)) with (- (- fval d * (2 * 10066330 * g))) by ring.
        lia.
      - replace (- (10066330 * g) * (67108864 * g))
          with (- (33554432 * g * (20132660 * g))) by ring.
        replace (fval d * (2 * 10066330 * g)) with (- (- fval d * (20132660 * g))) by ring.
        lia. }
    fold e in Ge, Be. rewrite !fval_opp, Vq, V6 in Be.
    set (k := (C - 4194304 * 2 ^ 374) / 2 ^ 384).
    assert (P384 : 0 < 2 ^ 384) by (apply pow2_pos; lia).
    pose proof (Z.mul_div_le (C - 4194304 * 2 ^ 374) (2 ^ 384) P384) as K1.
    pose proof (Z.mul_succ_div_gt (C - 4194304 * 2 ^ 374) (2 ^ 384) P384) as K2.
    fold k in K1, K2. rewrite Z.mul_succ_r in K2.
    assert (K0 : 0 <= k) by (apply Z.div_pos; lia).
    assert (K24 : k < 2 ^ 24).
    { apply (Z.mul_lt_mono_pos_l (2 ^ 384)); [exact P384|].
      change (2 ^ 384 * 2 ^ 24) with (2 ^ 408). rewrite E408. rewrite E384 in K1 |- *. lia. }
    destruct (grid_number k (conj K0 K24)) as (h & Gh & Vh).
    rewrite Z.mul_comm in Vh.
    destruct (SFadd_sandwich c e (SFopp (pow2f 7)) h Gc Ge Go7 Gh) as [_ Br].
    { rewrite Vh, fval_opp, V7. fold C. rewrite E384 in K1, K2 |- *. lia. }
    rewrite Vh in Br. rewrite E384 in K1, K2, Br. lia.
Qed.

(** From levels within [0, 100] the loop of [printAndSmooth] ends: with
    the gap at most [0.5 + n / 16], within [n] steps. *)
Lemma smooth_loop_ends32 (n : nat) : forall s : AdaptiveVolumeControl float,
  good (currentVolume s) = true -> good (targetVolume s) = true ->
  0 <= fval (currentVolume s) <= 100 * 2 ^ 400 ->
  0 <= fval (targetVolume s) <= 100 * 2 ^ 400 ->
  Z.abs (fval (currentVolume s) - fval (targetVolume s)) <= 2 ^ 399 + Z.of_nat n * 2 ^ 396 ->
  exists s', smooth_loop n s = Some s'.
Proof.
  induction n as [|n IH]; intros s Gc Gt Bc Bt Hg.
  - cbn [smooth_loop]. destruct (far_from_target s) eqn:Hf; [exfalso | eexists; reflexivity].
    pose proof (far_from_target_value s Gc Gt Hf). cbn [Z.of_nat] in Hg. lia.
  - cbn [smooth_loop]. destruct (far_from_target s) eqn:Hf; [|eexists; reflexivity].
    pose proof (far_from_target_value s Gc Gt Hf) as Hfar.
    destruct (step_progress32 (currentVolume s) (targetVolume s) Gc Gt Bc Bt Hfar)
      as (G & U & D).
    cbv zeta in G, U, D.
    apply IH; unfold smoothVolumeTransition;
      cbn [currentVolume targetVolume set_currentVolume]; try assumption.
    + destruct (Z_le_gt_dec (fval (currentVolume s)) (fval (targetVolume s))) as [H|H].
      * specialize (U H). pose proof (pow2_pos 396 ltac:(lia)). lia.
      * specialize (D ltac:(lia)). pose proof (pow2_pos 396 ltac:(lia)). lia.
    + rewrite Nat2Z.inj_succ, Z.mul_succ_l in Hg.
      destruct (Z_le_gt_dec (fval (currentVolume s)) (fval (targetVolume s))) as [H|H].
      * specialize (U H). lia.
      * specialize (D ltac:(lia)). lia.
Qed.

(** ** The loop of [main] in binary32 *)

Lemma timed_manual_nonneg clock es : forall k,
  (forall e, In e es -> ev_controlType e = MANUAL -> 0 <= ev_manualVolume e) ->
  forall i, In i (timed clock k es) -> manual_nonneg i.
Proof.
  induction es as [|e es IH]; intros k He i Hi; cbn [timed] in Hi; [destruct Hi|].
  destruct Hi as [<- | Hi].
  - unfold manual_nonneg, at_time. cbn [in_control in_manual]. apply He. left. reflexivity.
  - apply (IH (S k)); [|exact Hi]. intros e' He'. apply He. right. exact He'.
Qed.

Lemma printAndSmooth_ends32 (s : AdaptiveVolumeControl float) (fuel : nat) :
  reachable_above 0 s -> (1600 <= fuel)%nat ->
  printAndSmooth fuel s = Some (set_currentVolume s (targetVolume s)).
Proof.
  intros H Hfuel.
  destruct (levels_above_zero s H) as (Gc & Gt & Bc & Bt & _).
  change (fval (conv 0)) with 0 in Bc, Bt.
  destruct (smooth_loop_ends32 fuel s Gc Gt Bc Bt) as [s1 E].
  - assert (E400 : 2 ^ 400 = 16 * 2 ^ 396) by reflexivity.
    pose proof (pow2_pos 396 ltac:(lia)) as P. pose proof (pow2_pos 399 ltac:(lia)) as P9.
    assert (K : 1600 * 2 ^ 396 <= Z.of_nat fuel * 2 ^ 396)
      by (apply Z.mul_le_mono_nonneg_r; lia).
    rewrite E400 in Bc, Bt. lia.
  - assert (R : printAndSmooth fuel s = Some (set_currentVolume s1 (targetVolume s1)))
      by (unfold printAndSmooth; rewrite E; reflexivity).
    rewrite R. f_equal. exact (printAndSmooth_final _ _ _ R).
Qed.

Lemma main_loop_ends32 (fuel : nat) (l : list Inputs) :
  (1600 <= fuel)%nat -> forall s : AdaptiveVolumeControl float,
  reachable_above 0 s -> (forall i, In i l -> manual_nonneg i) ->
  exists s', main_loop fuel s l = Some s'.
Proof.
  intros Hfuel. induction l as [|i l IH]; intros s H Hl; cbn [main_loop].
  - eexists. reflexivity.
  - assert (H1 : reachable_above 0 (update_with s i)).
    { unfold update_with. apply above_update; [exact H|]. apply Hl. left. reflexivity. }
    rewrite (printAndSmooth_ends32 _ fuel H1 Hfuel).
    apply IH; [|intros j Hj; apply Hl; right; exact Hj].
    apply (above_smooth 0 fuel (update_with s i)); [exact H1|].
    apply printAndSmooth_ends32; assumption.
Qed.

(** ** Factors between 0 and 1, binary32 *)

Lemma factor_value (m : positive) (e : Z) :
  Zpos m <= 2 ^ 24 -> -400 <= e <= -24 ->
  0 <= fval (S754_finite false m e) <= 2 ^ 400.
Proof.
  intros Hm He. cbn [fval cond_Zopp]. unfold scaled.
  pose proof (pow2_pos (e + 400) ltac:(lia)) as P.
  split; [nia|].
  apply Z.le_trans with (2 ^ 24 * 2 ^ (e + 400)).
  - apply Z.mul_le_mono_nonneg_r; lia.
  - rewrite <- (pow2_split 24 (e + 400)) by lia. apply Z.pow_le_mono_r; lia.
Qed.

Lemma attenuated_refl (b : float) : good b = true -> attenuated b b.
Proof. intros G. split; [exact G|]. split; intros; lia. Qed.

Lemma attenuated_mul (b y c : float) :
  attenuated b y -> good c = true -> 0 <= fval c <= 2 ^ 400 ->
  attenuated b (fmul y c).
Proof.
  intros (Gy & P & N) Gc Bc. change (@fmul float _) with (SFmul prec emax).
  assert (G0 : good (S754_zero false) = true) by reflexivity.
  assert (P400 : 0 < 2 ^ 400) by (apply pow2_pos; lia).
  destruct (Z_le_gt_dec 0 (fval y)) as [Hy|Hy].
  - destruct (SFmul_sandwich y c (S754_zero false) y Gy Gc G0 Gy) as [Gr Br].
    { change (fval (S754_zero false)) with 0. split; [nia|].
      apply Z.mul_le_mono_nonneg_l; lia. }
    change (fval (S754_zero false)) with 0 in Br.
    split; [exact Gr|]. split; intros Hb.
    + specialize (P Hb). lia.
    + specialize (N Hb). lia.
  - destruct (SFmul_sandwich y c y (S754_zero false) Gy Gc Gy G0) as [Gr Br].
    { change (fval (S754_zero false)) with 0. split; [|nia].
      rewrite <- (Z.opp_involutive (fval y * 2 ^ 400)),
              <- (Z.opp_involutive (fval y * fval c)).
      apply (proj1 (Z.opp_le_mono _ _)).
      rewrite <- !Z.mul_opp_l. apply Z.mul_le_mono_nonneg_l; lia. }
    change (fval (S754_zero false)) with 0 in Br.
    split; [exact Gr|]. split; intros Hb.
    + specialize (P Hb). lia.
    + specialize (N Hb). lia.
Qed.

Lemma hornNavDucking_attenuated (s : AdaptiveVolumeControl float) (b y : float) :
  attenuated b y -> attenuated b (hornNavDucking s y).
Proof.
  intros H. unfold hornNavDucking, HORN_DUCK_MULTIPLIER. rewrite lit_6_10, lit_5_10.
  assert (H1 : attenuated b
                 (if hornDuckActive s
                  then fmul y (S754_finite false 10066330 (-24)) else y)).
  { destruct (hornDuckActive s); [|exact H].
    apply attenuated_mul; [exact H | reflexivity | apply factor_value; lia]. }
  cbv zeta. destruct (navSpeaking s); [|exact H1].
  apply attenuated_mul; [exact H1 | reflexivity | apply factor_value; lia].
Qed.

Lemma gearOrBraking_attenuated (s : AdaptiveVolumeControl float) (b y : float) :
  attenuated b y -> attenuated b (gearOrBraking s y).
Proof.
  intros H. unfold gearOrBraking. rewrite lit_25_100, lit_5_10, lit_9_10. cbv zeta.
  destruct (reverseGear s); cbn [negb].
  - apply attenuated_mul; [exact H | reflexivity | apply factor_value; lia].
  - destruct (10 <? Int32.wrap32 (previousSpeed s - speed s)).
    + apply attenuated_mul; [exact H | reflexivity | apply factor_value; lia].
    + destruct (speed s <? previousSpeed s); [|exact H].
      apply attenuated_mul; [exact H | reflexivity | apply factor_value; lia].
Qed.

(** The clamp, on values. *)
Lemma clampAdaptive_value (x : float) :
  good x = true ->
  good (clampAdaptive x) = true /\
  fval (clampAdaptive x) = Z.min (80 * 2 ^ 400) (Z.max 0 (fval x)).
Proof.
  intros Gx. unfold clampAdaptive, MIN_VOLUME, MAX_ADAPTIVE_VOLUME.
  rewrite lit_0_1, lit_80_1. cbv [fltb Binary32.arith].
  assert (P : 0 < 2 ^ 400) by (apply pow2_pos; lia).
  assert (V80 : fval (S754_finite false 10485760 (-17)) = 80 * 2 ^ 400).
  { cbn [fval cond_Zopp]. unfold scaled. change (-17 + 400) with 383.
    change 400 with (17 + 383). rewrite (pow2_split 17 383) by lia.
    change (2 ^ 17) with 131072. lia. }
  assert (G80 : good (S754_finite false 10485760 (-17)) = true) by reflexivity.
  assert (G0 : good (S754_zero false) = true) by reflexivity.
  rewrite (SFltb_fval _ _ Gx G0). change (fval (S754_zero false)) with 0.
  destruct (Z.ltb_spec (fval x) 0) as [H1|H1].
  - rewrite (SFltb_fval _ _ G80 G0), V80. change (fval (S754_zero false)) with 0.
    destruct (Z.ltb_spec (80 * 2 ^ 400) 0); [lia|].
    split; [reflexivity|]. change (fval (S754_zero false)) with 0. lia.
  - rewrite (SFltb_fval _ _ G80 Gx), V80.
    destruct (Z.ltb_spec (80 * 2 ^ 400) (fval x)) as [H2|H2].
    + rewrite V80. split; [exact G80 | lia].
    + split; [exact Gx | lia].
Qed.

(** * The claims *)

(** C1 (the code departs from the claim).  The claim: when the horn flag
    held by the object was true and the new flag is false, ducking is
    active after the call and the window starts at the time of the call.
    The code: [update] stores the new flag in [hornActive] before it calls
    [handleHornDucking], so the branch "horn was just released" is never
    taken: a call with the new flag false never moves the window start,
    and leaves ducking active only if it was active and the window has
    not expired.  Horn pressed at time 0 and released 600 ms later:
    ducking is inactive after the release and the window start is still
    0; released 100 ms later: ducking is still active, but the window
    still starts at 0. *)
Theorem horn_release_keeps_old_window :
  (forall (F : Type) (A : Arith F) (s : AdaptiveVolumeControl F)
          newSpeed newNoise rev nav md ct m now,
      let s' := update s newSpeed newNoise rev false nav md ct m now in
      hornDuckStartTime s' = hornDuckStartTime s /\
      hornDuckActive s' =
        hornDuckActive s && negb (Clock.expired (hornDuckStartTime s) now)) /\
  let pressed : AdaptiveVolumeControl float :=
    update (init 0) 50 50 false true false COMFORT ADAPTIVE 0 0 in
  let released_late :=
    update pressed 50 50 false false false COMFORT ADAPTIVE 0 (Clock.ms 600) in
  let released_soon :=
    update pressed 50 50 false false false COMFORT ADAPTIVE 0 (Clock.ms 100) in
  hornActive pressed = true /\
  hornDuckActive released_late = false /\
  hornDuckStartTime released_late = 0 /\
  hornDuckActive released_soon = true /\
  hornDuckStartTime released_soon = 0.
Proof.
  split.
  - intros F A s newSpeed newNoise rev nav md ct m now. cbv zeta.
    split; [apply update_horn_false_start | apply update_horn_false_active].
  - vm_compute. repeat split.
Qed.

(** C2, counterexample.  Under manual policy a manual level of -5 gives a
    target of -5, below the floor; and after the current level has settled
    on a manual target of 100, an update under automatic policy leaves the
    current level at 100, above the automatic ceiling 80. *)
Lemma levels_outside_policy_range :
  let below : AdaptiveVolumeControl float :=
    update (init 0) 0 30 false false false COMFORT MANUAL (-5) 0 in
  let loud : AdaptiveVolumeControl float :=
    update (init 0) 0 30 false false false COMFORT MANUAL 100 0 in
  (reachable below /\ controlType below = MANUAL /\
   targetVolume below = of_int (-5) /\
   fltb (targetVolume below) MIN_VOLUME = true) /\
  (exists settled,
     printAndSmooth 20 loud = Some settled /\
     let back := update settled 50 50 false false false COMFORT ADAPTIVE 0 0 in
     reachable back /\ controlType back = ADAPTIVE /\
     currentVolume back = of_int 100 /\
     fltb MAX_ADAPTIVE_VOLUME (currentVolume back) = true).
Proof.
  cbv zeta. split.
  - split; [apply reach_update, reach_init | repeat split; vm_compute; reflexivity].
  - eexists. split; [vm_compute; reflexivity|].
    split; [|repeat split; vm_compute; reflexivity].
    apply reach_update.
    apply (reach_smooth 20 (update (init 0) 0 30 false false false COMFORT MANUAL 100 0));
      [apply reach_update, reach_init | vm_compute; reflexivity].
Qed.

(** C2, as amended.  Binary32.  In every state the engine reaches when the
    manual levels passed are [int] values, the target is a number within the
    range of the policy in force except for the floor under manual policy
    (at most 80 and at least 0 under automatic policy, at most 100 under
    manual policy), and the current level is a number at most the manual
    ceiling 100; neither level is below the least [int].  When no manual
    level passed was negative, neither level is below the floor 0. *)
Theorem levels_stay_in_range :
  (forall s, reachable_above Int32.min_int s ->
             levels_bounded_binary32 s /\ levels_floor_binary32 Int32.min_int s) /\
  (forall s, reachable_above 0 s ->
             levels_bounded_binary32 s /\ levels_floor_binary32 0 s).
Proof.
  split; intros s H.
  - pose proof (levels_above_min_int s H) as I.
    split; [apply (levels_between_bounded _ _ I)
           | apply levels_between_floor; [apply min_int_value | exact I]].
  - pose proof (levels_above_zero s H) as I.
    split; [apply (levels_between_bounded _ _ I)
           | apply levels_between_floor; [reflexivity | exact I]].
Qed.

(** C2, witness: the state of test 6 of [test.cpp]. *)
Lemma levels_stay_in_range_witness :
  reachable_above 0 UnitTests.avc6 /\
  levels_bounded_binary32 UnitTests.avc6 /\ levels_floor_binary32 0 UnitTests.avc6.
Proof.
  assert (H : reachable_above 0 UnitTests.avc6).
  { repeat (apply above_update; [|intros _; lia]). apply above_init. }
  split; [exact H | exact (proj2 levels_stay_in_range _ H)].
Defined.

(** C3.  Every update under automatic policy, from any state and with any
    integers and flags, computes a target that is a number between 0 and
    80 inclusive: in binary32 (never NaN) and in exact arithmetic. *)
Theorem adaptive_target_clamped :
  (forall (s : AdaptiveVolumeControl float) newSpeed newNoise rev horn nav md m now,
      let t := targetVolume (update s newSpeed newNoise rev horn nav md ADAPTIVE m now) in
      is_nan t = false /\
      fleb MIN_VOLUME t = true /\ fleb t MAX_ADAPTIVE_VOLUME = true) /\
  (forall (s : AdaptiveVolumeControl Q) newSpeed newNoise rev horn nav md m now,
      let t := targetVolume (update s newSpeed newNoise rev horn nav md ADAPTIVE m now) in
      (0 <= t <= 80)%Q).
Proof.
  split; intros s newSpeed newNoise rev horn nav md m now; cbv zeta;
    rewrite (update_target_adaptive s newSpeed newNoise rev horn nav md m now).
  - apply adaptive_target_bounds.
  - rewrite applyVolumeModifiers_stages. apply clampAdaptive_exact.
Qed.

(** C4.  Every update under manual policy with manual level [m] sets the
    target to [std::min<float>(m, MAX_VOLUME)], whatever the state, the
    other inputs and the ducking state; in binary32 and in exact arithmetic
    alike this is the integer [min m 100], converted. *)
Theorem manual_target_is_min :
  (forall (F : Type) (A : Arith F) (s : AdaptiveVolumeControl F)
          newSpeed newNoise rev horn nav md m now,
      targetVolume (update s newSpeed newNoise rev horn nav md MANUAL m now)
        = fmin (of_int m) MAX_VOLUME) /\
  (forall (s : AdaptiveVolumeControl float) newSpeed newNoise rev horn nav md m now,
      targetVolume (update s newSpeed newNoise rev horn nav md MANUAL m now)
        = of_int (Z.min m 100)) /\
  (forall (s : AdaptiveVolumeControl Q) newSpeed newNoise rev horn nav md m now,
      targetVolume (update s newSpeed newNoise rev horn nav md MANUAL m now)
        = of_int (Z.min m 100)).
Proof.
  split; [|split].
  - intros. apply update_target_manual.
  - intros. rewrite update_target_manual. apply fmin_binary32.
  - intros. rewrite update_target_manual. apply fmin_exact.
Qed.

(** C5 (the code departs from the claim).  The claim: from every starting
    pair the steps strictly reduce the gap, and once the gap is at most
    0.5 the loop sets current to target.  The code, in binary32: after one
    manual update with level -10000000 on the constructed engine, the loop
    of [printAndSmooth] never ends.  Sixty convergence steps later current
    is -9999999, target is -10000000, the gap 1 exceeds 0.5, and the step
    leaves the state unchanged: at that magnitude neighbouring [float]
    values are 1 apart and the step of 0.3 is rounded away, so the gap is
    not reduced and never falls to 0.5.  Also, in the constructed state
    (current = target) a step changes nothing. *)
Lemma convergence_stalls :
  (forall fuel, printAndSmooth fuel far_manual = None) /\
  reachable stalled /\
  currentVolume stalled = of_int (-9999999) /\
  targetVolume stalled = of_int (-10000000) /\
  far_from_target stalled = true /\
  smoothVolumeTransition stalled = stalled /\
  smoothVolumeTransition (init 0 : AdaptiveVolumeControl float) = init 0.
Proof.
  split; [intros fuel; unfold printAndSmooth; rewrite far_manual_loop; reflexivity|].
  split; [apply steps_reachable, reach_update, reach_init|].
  split; [vm_compute; reflexivity|].
  split; [vm_compute; reflexivity|].
  split; [exact stalled_far|].
  split; [exact stalled_fixed|].
  vm_compute; reflexivity.
Qed.

(** C6.  Under automatic policy with the reverse-gear flag true, the target
    is the clamp of the ducked base level times the one factor 0.25, and
    it does not depend on the speed remembered from the previous call: no
    braking factor is applied, however large the drop. *)
Theorem reverse_gear_skips_braking {F} {A : Arith F} (s : AdaptiveVolumeControl F)
    newSpeed newNoise horn nav md m now :
  let s' := update s newSpeed newNoise true horn nav md ADAPTIVE m now in
  targetVolume s' =
    clampAdaptive (fmul (hornNavDucking s' (baseVolumeOf s')) (lit 25 100)) /\
  forall v,
    targetVolume (update (with_speed s v) newSpeed newNoise true horn nav md ADAPTIVE m now)
      = targetVolume s'.
Proof.
  cbv zeta. split.
  - rewrite update_before_clamp. unfold beforeClamp. rewrite gearOrBraking_reverse; [reflexivity|].
    apply (update_fields s newSpeed newNoise true horn nav md ADAPTIVE m now).
  - intros v. rewrite !update_before_clamp. unfold beforeClamp.
    pose proof (update_fields s newSpeed newNoise true horn nav md ADAPTIVE m now) as H1.
    pose proof (update_fields (with_speed s v) newSpeed newNoise true horn nav md
                  ADAPTIVE m now) as H2.
    cbv zeta in H1, H2.
    destruct H1 as (S1 & _ & N1 & R1 & _ & V1 & M1 & _).
    destruct H2 as (S2 & _ & N2 & R2 & _ & V2 & M2 & _).
    rewrite !gearOrBraking_reverse by assumption. f_equal. f_equal.
    rewrite (baseVolumeOf_ext _ _ (eq_trans S2 (eq_sym S1)) (eq_trans N2 (eq_sym N1))
               (eq_trans M2 (eq_sym M1))).
    apply hornNavDucking_ext; [|congruence].
    rewrite !update_duck_active. reflexivity.
Qed.

(** C7.  The code departs from the claim where [previousSpeed - speed]
    does not fit an [int].  Whenever the difference fits, the three cases
    are as the claim says: above 10 the running value is multiplied by 0.5,
    from 1 to 10 by 0.9, at 0 or below by nothing.  With the stored speed
    [INT_MAX] and the new speed -1 the difference 2^31 exceeds 10, but the
    subtraction wraps to [INT_MIN] and the mild factor 0.9 is applied; with
    the stored speed [INT_MIN] and the new speed 1 the speed has risen,
    but the subtraction wraps to [INT_MAX] and the factor 0.5 is applied. *)
Theorem braking_factor_wraps_beyond_int :
  (forall (F : Type) (A : Arith F) (s : AdaptiveVolumeControl F)
          newSpeed newNoise horn nav md m now,
      Int32.in_range (speed s - newSpeed) ->
      let s' := update s newSpeed newNoise false horn nav md ADAPTIVE m now in
      let delta := speed s - newSpeed in
      let v := hornNavDucking s' (baseVolumeOf s') in
      (10 < delta -> targetVolume s' = clampAdaptive (fmul v (lit 5 10))) /\
      (1 <= delta <= 10 -> targetVolume s' = clampAdaptive (fmul v (lit 9 10))) /\
      (delta <= 0 -> targetVolume s' = clampAdaptive v)) /\
  (let s' := update fastest (-1) 30 false false false COMFORT ADAPTIVE 0 0 in
   let v := hornNavDucking s' (baseVolumeOf s') in
   10 < speed fastest - (-1) /\
   Int32.wrap32 (speed fastest - (-1)) = Int32.min_int /\
   targetVolume s' = clampAdaptive (fmul v (lit 9 10)) /\
   targetVolume s' <> clampAdaptive (fmul v (lit 5 10))) /\
  (let s' := update slowest 1 30 false false false COMFORT ADAPTIVE 0 0 in
   let v := hornNavDucking s' (baseVolumeOf s') in
   speed slowest - 1 <= 0 /\
   Int32.wrap32 (speed slowest - 1) = Int32.max_int /\
   targetVolume s' = clampAdaptive (fmul v (lit 5 10)) /\
   targetVolume s' <> clampAdaptive v).
Proof.
  split; [|split].
  - intros F A s newSpeed newNoise horn nav md m now Hr. cbv zeta.
    rewrite update_before_clamp. unfold beforeClamp.
    pose proof (update_fields s newSpeed newNoise false horn nav md ADAPTIVE m now) as Hf.
    cbv zeta in Hf. destruct Hf as (Hs & Hp & _ & Hrev & _).
    rewrite gearOrBraking_forward; rewrite ?Hs, ?Hp; auto.
    repeat split; intros Hd.
    + rewrite (proj2 (Z.ltb_lt _ _)) by lia. reflexivity.
    + rewrite (proj2 (Z.ltb_ge _ _)) by lia. rewrite (proj2 (Z.ltb_lt _ _)) by lia.
      reflexivity.
    + rewrite (proj2 (Z.ltb_ge _ _)) by lia. rewrite (proj2 (Z.ltb_ge _ _)) by lia.
      reflexivity.
  - cbv zeta. split; [vm_compute; reflexivity|]. split; [vm_compute; reflexivity|].
    split; [vm_compute; reflexivity | vm_compute; discriminate].
  - cbv zeta. split; [vm_compute; discriminate|]. split; [vm_compute; reflexivity|].
    split; [vm_compute; reflexivity | vm_compute; discriminate].
Qed.

(** C7, witness: test 15 of [test.cpp], a drop from 50 to 5. *)
Lemma braking_factor_wraps_beyond_int_witness :
  let s : AdaptiveVolumeControl float :=
    update (init 0) 50 30 false false false COMFORT ADAPTIVE 0 0 in
  Int32.in_range (speed s - 5) /\
  targetVolume (update s 5 30 false false false COMFORT ADAPTIVE 0 0)
    = clampAdaptive (fmul (lit 36 1) (lit 5 10)).
Proof.
  cbv zeta.
  assert (H : Int32.in_range
                (speed (update (init 0 : AdaptiveVolumeControl float) 50 30 false false
                          false COMFORT ADAPTIVE 0 0) - 5)).
  { vm_compute. split; discriminate. }
  split; [exact H|].
  etransitivity;
    [ apply (proj1 (proj1 braking_factor_wraps_beyond_int float Binary32.arith
                      (update (init 0 : AdaptiveVolumeControl float) 50 30 false false
                         false COMFORT ADAPTIVE 0 0)
                      5 30 false false COMFORT 0 0 H));
      vm_compute; reflexivity
    | vm_compute; reflexivity ].
Defined.

(** C8, counterexample.  Binary32: a drop from speed 55 to 50 (the mild
    deceleration factor 0.9) with horn ducking and navigation, cabin noise
    1.  The target is 9965666 * 2^-20; the target without the two
    conditions, multiplied by 0.6 and by 0.5, is 9965667 * 2^-20.  Neither
    value is near the clamp. *)
Lemma ducked_target_differs_in_last_place :
  let s' := slowing_with_horn in
  hornDuckActive s' = true /\ navSpeaking s' = true /\
  controlType s' = ADAPTIVE /\
  targetVolume s' = S754_finite false 9965666 (-20) /\
  ducked (targetVolume (calculateTargetVolume (quiet s')))
    = S754_finite false 9965667 (-20) /\
  clampAdaptive (ducked (targetVolume (calculateTargetVolume (quiet s'))))
    = S754_finite false 9965667 (-20) /\
  targetVolume s' <> ducked (targetVolume (calculateTargetVolume (quiet s'))).
Proof.
  cbv zeta. repeat split; try (vm_compute; reflexivity).
  vm_compute. discriminate.
Qed.

(** C8, as amended.  Binary32, cabin noise an [int].  Under automatic
    policy with ducking active and navigation speaking the target is the
    clamp of the value before the clamp, as is the target without the two
    conditions.  Unless the mild deceleration factor 0.9 applies, the first
    value before the clamp is the second multiplied by 0.6 and by 0.5
    (each product rounded), also under reverse gear and under strong
    braking; with the mild factor the code multiplies the base level by
    0.6, by 0.5 and then by 0.9, where the value without the two
    conditions is the base level multiplied by 0.9. *)
Theorem ducking_compounds_before_the_clamp (s : AdaptiveVolumeControl float)
    newSpeed newNoise rev horn md m now :
  Int32.in_range newNoise ->
  let s' := update s newSpeed newNoise rev horn true md ADAPTIVE m now in
  hornDuckActive s' = true ->
  targetVolume s' = clampAdaptive (beforeClamp s') /\
  targetVolume (calculateTargetVolume (quiet s'))
    = clampAdaptive (beforeClamp (quiet s')) /\
  (mild_deceleration s' = false ->
   beforeClamp s' = ducked (beforeClamp (quiet s'))) /\
  (mild_deceleration s' = true ->
   beforeClamp s' = fmul (ducked (baseVolumeOf s')) (lit 9 10) /\
   beforeClamp (quiet s') = fmul (baseVolumeOf s') (lit 9 10)).
Proof.
  intros Hn s' Hd.
  pose proof (update_fields s newSpeed newNoise rev horn true md ADAPTIVE m now) as Hf.
  cbv zeta in Hf. fold s' in Hf.
  destruct Hf as (Hs & Hp & Hno & Hrev & _ & Hnav & _ & Hct & _).
  assert (Hb : beforeClamp s' = gearOrBraking s' (ducked (baseVolumeOf s')))
    by (apply beforeClamp_ducked; assumption).
  split; [apply update_before_clamp|].
  split; [apply calculateTargetVolume_adaptive; exact Hct|].
  rewrite Hb, beforeClamp_quiet. split.
  - intros Hm. apply ducked_commutes; [rewrite Hno; exact Hn | exact Hm].
  - unfold mild_deceleration, gearOrBraking. intros Hm.
    destruct (reverseGear s'); cbn [negb andb] in *; [discriminate|].
    destruct (10 <? Int32.wrap32 (previousSpeed s' - speed s')); cbn [negb andb] in *;
      [discriminate|].
    rewrite Hm. split; reflexivity.
Qed.

(** C8, witness: reverse gear with horn and navigation. *)
Lemma ducking_compounds_before_the_clamp_witness :
  hornDuckActive reversing_with_horn = true /\
  mild_deceleration reversing_with_horn = false /\
  beforeClamp reversing_with_horn = ducked (beforeClamp (quiet reversing_with_horn)).
Proof.
  assert (H1 : Int32.in_range 50) by (vm_compute; split; discriminate).
  assert (H2 : hornDuckActive reversing_with_horn = true) by (vm_compute; reflexivity).
  assert (H3 : mild_deceleration reversing_with_horn = false) by (vm_compute; reflexivity).
  split; [exact H2|]. split; [exact H3|].
  exact (proj1 (proj2 (proj2 (ducking_compounds_before_the_clamp
                                (init 0) 50 50 true true COMFORT 0 0 H1 H2))) H3).
Defined.

(** C9, counterexample.  The constructor sets the manual level to 25, not
    to 0. *)
Lemma initial_manual_level_is_not_zero :
  manualVolume (init 0 : AdaptiveVolumeControl float) = 25 /\
  manualVolume (init 0 : AdaptiveVolumeControl float) <> 0.
Proof. split; [reflexivity | discriminate]. Qed.

(** C9, as amended.  The constructed engine has previous speed 0, speed 0,
    cabin noise 30, the three flags false, mode comfort, policy automatic,
    manual level 25, ducking inactive with the window start at the time of
    construction, and current level = target level = 25. *)
Theorem initial_state :
  (forall (F : Type) (A : Arith F) (now : Clock.time_point),
      let s : AdaptiveVolumeControl F := init now in
      previousSpeed s = 0 /\ speed s = 0 /\ cabinNoise s = 30 /\
      reverseGear s = false /\ hornActive s = false /\ navSpeaking s = false /\
      mode s = COMFORT /\ controlType s = ADAPTIVE /\ manualVolume s = 25 /\
      hornDuckActive s = false /\ hornDuckStartTime s = now /\
      getCurrentVolume s = DEFAULT_VOLUME /\ getTargetVolume s = DEFAULT_VOLUME) /\
  @DEFAULT_VOLUME float _ = of_int 25 /\
  @DEFAULT_VOLUME Q _ = inject_Z 25.
Proof.
  split; [intros; repeat split | split; reflexivity].
Qed.

(** C10, counterexample.  After a manual update with level 50, an update
    under automatic policy that passes manual level 0 leaves the stored
    manual level at 50. *)
Lemma manual_level_survives_adaptive_update :
  let s : AdaptiveVolumeControl float :=
    update (init 0) 0 30 false false false ECO MANUAL 50 0 in
  let s' := update s 50 50 false false false COMFORT ADAPTIVE 0 0 in
  manualVolume s = 50 /\ manualVolume s' = 50 /\ manualVolume s' <> 0.
Proof. vm_compute. repeat split. discriminate. Qed.

(** C10, as amended.  Every update overwrites speed, noise, the three
    flags, mode and policy with the new inputs and the previous speed with
    the old speed; the manual level is overwritten only when the new policy
    is manual, and kept otherwise. *)
Theorem update_overwrites_context {F} {A : Arith F} (s : AdaptiveVolumeControl F)
    newSpeed newNoise newReverseGear newHornActive newNavSpeaking newMode
    newControlType newManualVolume now :
  let s' := update s newSpeed newNoise newReverseGear newHornActive newNavSpeaking
              newMode newControlType newManualVolume now in
  speed s' = newSpeed /\ previousSpeed s' = speed s /\
  cabinNoise s' = newNoise /\ reverseGear s' = newReverseGear /\
  hornActive s' = newHornActive /\ navSpeaking s' = newNavSpeaking /\
  mode s' = newMode /\ controlType s' = newControlType /\
  manualVolume s' =
    match newControlType with
    | MANUAL => newManualVolume
    | ADAPTIVE => manualVolume s
    end.
Proof.
  cbv zeta.
  pose proof (update_fields s newSpeed newNoise newReverseGear newHornActive
                newNavSpeaking newMode newControlType newManualVolume now) as H.
  cbv zeta in H. tauto.
Qed.

(** * Further properties *)

(** ** The ducking window *)

(** X1.  The expiry test of the ducking window, which the source makes on
    [double] seconds ([elapsed.count() >= 0.5] with the elapsed time the
    tick difference divided by 10^9), is exact: for every pair of clock
    readings it holds exactly when at least 500 000 000 ticks have passed.
    Hence an update with the horn flag false leaves ducking active exactly
    when it was active and fewer than 500 000 000 ticks have passed since
    the window started. *)
Theorem ducking_window_is_half_a_second :
  (forall start now : Clock.time_point,
      Clock.expired start now = (500000000 <=? now - start)) /\
  (forall (F : Type) (A : Arith F) (s : AdaptiveVolumeControl F)
          newSpeed newNoise rev nav md ct m now,
      hornDuckActive (update s newSpeed newNoise rev false nav md ct m now)
        = hornDuckActive s && (now - hornDuckStartTime s <? 500000000)).
Proof.
  split; [exact expired_iff|].
  intros. rewrite update_horn_false_active, expired_iff. f_equal.
  rewrite Z.leb_antisym. apply negb_involutive.
Qed.

(** X2.  After any sequence of updates that ends with a horn press followed
    by updates without the horn, the ducking window starts at the clock
    reading of the press, and ducking is active exactly when every later
    update came less than 500 000 000 ticks after the press: once an update
    finds the window expired, ducking stays off until the next press. *)
Theorem ducking_after_run {F} {A : Arith F} (s : AdaptiveVolumeControl F)
    (before : list Inputs) (press : Inputs) (after : list Inputs) :
  in_horn press = true ->
  (forall j, In j after -> in_horn j = false) ->
  let s' := run s (before ++ press :: after) in
  hornDuckStartTime s' = in_now press /\
  hornDuckActive s' = within_window (in_now press) after.
Proof.
  intros Hp Ha. cbv zeta.
  rewrite run_app. change (run ?x (press :: after)) with (run (update_with x press) after).
  destruct (run_without_horn after (update_with (run s before) press) Ha) as [H1 H2].
  rewrite H1, H2. unfold update_with at 1 2 3. rewrite Hp.
  destruct (update_horn_true (run s before) (in_speed press) (in_noise press)
              (in_reverse press) (in_nav press) (in_mode press) (in_control press)
              (in_manual press) (in_now press)) as [H3 H4].
  rewrite H3, H4. auto.
Qed.

(** X2, witness: a press at 100 ms followed by updates at 300 ms and 599 ms. *)
Lemma ducking_after_run_witness :
  let s' : AdaptiveVolumeControl float := run (init 0) sample_run in
  hornDuckStartTime s' = Clock.ms 100 /\ hornDuckActive s' = true.
Proof.
  assert (H : forall j, In j no_horn_run -> in_horn j = false)
    by (intros j [<-|[<-|[]]]; reflexivity).
  exact (ducking_after_run (init 0 : AdaptiveVolumeControl float)
           [mkInputs 50 50 false false false COMFORT ADAPTIVE 0 (Clock.ms 0)]
           horn_press no_horn_run eq_refl H).
Defined.

(** X3.  Updates without the horn never start ducking and never move the
    window: over any sequence of such updates the window start is unchanged,
    ducking is active afterwards exactly when it was active before and all
    the updates fell inside the window, and from a state without ducking it
    stays off. *)
Theorem ducking_needs_the_horn {F} {A : Arith F} (s : AdaptiveVolumeControl F)
    (l : list Inputs) :
  (forall j, In j l -> in_horn j = false) ->
  hornDuckStartTime (run s l) = hornDuckStartTime s /\
  hornDuckActive (run s l) = hornDuckActive s && within_window (hornDuckStartTime s) l /\
  (hornDuckActive s = false -> hornDuckActive (run s l) = false).
Proof.
  intros H. destruct (run_without_horn l s H) as [H1 H2].
  split; [exact H1|]. split; [exact H2|].
  intros Hs. rewrite H2, Hs. reflexivity.
Qed.

(** X3, witness: two updates without the horn on a fresh engine. *)
Lemma ducking_needs_the_horn_witness :
  hornDuckActive (run (init 0 : AdaptiveVolumeControl float) no_horn_run) = false.
Proof.
  assert (H : forall j, In j no_horn_run -> in_horn j = false)
    by (intros j [<-|[<-|[]]]; reflexivity).
  exact (proj2 (proj2 (ducking_needs_the_horn
                         (init 0 : AdaptiveVolumeControl float) no_horn_run H))
           eq_refl).
Defined.

(** ** Convergence *)

(** X4.  Whenever [printAndSmooth] returns, the state it leaves is the
    state it was called on with the current level replaced by the target:
    no other field is touched, whatever the number of steps taken. *)
Theorem smoothing_ends_on_the_target {F} {A : Arith F} (fuel : nat)
    (s s' : AdaptiveVolumeControl F) :
  printAndSmooth fuel s = Some s' ->
  s' = set_currentVolume s (targetVolume s).
Proof. apply printAndSmooth_final. Qed.

(** X4, witness: from level 25 to the manual target 50, binary32. *)
Lemma smoothing_ends_on_the_target_witness :
  exists s', printAndSmooth 15 raised32 = Some s' /\
             s' = set_currentVolume raised32 (targetVolume raised32).
Proof.
  destruct (printAndSmooth 15 raised32) as [s'|] eqn:E.
  - exists s'. split; [reflexivity|].
    exact (smoothing_ends_on_the_target 15 raised32 s' E).
  - vm_compute in E. discriminate E.
Defined.

(** X5.  No sequence of updates changes the current level: only the
    convergence step and the end of [printAndSmooth] write it. *)
Theorem updates_never_move_the_current_level {F} {A : Arith F}
    (s : AdaptiveVolumeControl F) (l : list Inputs) :
  currentVolume (run s l) = currentVolume s.
Proof. apply run_current. Qed.

(** X6.  [printAndSmooth] is idempotent: called again on the state it
    returned, it returns at once (with any fuel, also none) and changes
    nothing.  Binary32 and exact arithmetic. *)
Theorem smoothing_twice_changes_nothing :
  (forall fuel fuel' (s s' : AdaptiveVolumeControl float),
      printAndSmooth fuel s = Some s' -> printAndSmooth fuel' s' = Some s') /\
  (forall fuel fuel' (s s' : AdaptiveVolumeControl Q),
      printAndSmooth fuel s = Some s' -> printAndSmooth fuel' s' = Some s').
Proof.
  split; intros fuel fuel' s s' H;
    pose proof (printAndSmooth_final _ _ _ H) as E;
    rewrite printAndSmooth_close.
  - rewrite E. reflexivity.
  - apply settled_not_far_binary32. rewrite E. reflexivity.
  - rewrite E. reflexivity.
  - apply settled_not_far_exact. rewrite E. reflexivity.
Qed.

(** X6, witness: the state reached from level 25 and manual target 50. *)
Lemma smoothing_twice_changes_nothing_witness :
  exists s', printAndSmooth 15 raised32 = Some s' /\
             printAndSmooth 0 s' = Some s'.
Proof.
  destruct (printAndSmooth 15 raised32) as [s'|] eqn:E.
  - exists s'. split; [reflexivity|].
    exact (proj1 smoothing_twice_changes_nothing 15%nat 0%nat raised32 s' E).
  - vm_compute in E. discriminate E.
Defined.

(** ** The automatic target *)

(** X12.  The target an update computes depends, of the state it is
    called on, only on the stored speed and on the ducking window: two
    states that agree on these get the same target from the same call,
    whatever their levels, modes, flags and manual levels were. *)
Theorem target_forgets_history {F} {A : Arith F} (s1 s2 : AdaptiveVolumeControl F)
    newSpeed newNoise rev horn nav md ct m now :
  speed s1 = speed s2 ->
  hornDuckActive s1 = hornDuckActive s2 ->
  hornDuckStartTime s1 = hornDuckStartTime s2 ->
  targetVolume (update s1 newSpeed newNoise rev horn nav md ct m now)
    = targetVolume (update s2 newSpeed newNoise rev horn nav md ct m now).
Proof.
  destruct s1 as [sp1 ps1 cn1 rg1 ha1 ns1 mo1 co1 mv1 tv1 cv1 st1 act1].
  destruct s2 as [sp2 ps2 cn2 rg2 ha2 ns2 mo2 co2 mv2 tv2 cv2 st2 act2].
  cbn [speed hornDuckActive hornDuckStartTime].
  intros -> -> ->. open_update.
  destruct ct, horn, act2, (Clock.expired st2 now); reflexivity.
Qed.

(** X12, witness: a fresh engine and one that settled on a manual level. *)
Lemma target_forgets_history_witness :
  targetVolume (update (init 0 : AdaptiveVolumeControl float) 50 55 false false false
                  COMFORT ADAPTIVE 0 (Clock.ms 100))
    = targetVolume (update raised32 50 55 false false false
                      COMFORT ADAPTIVE 0 (Clock.ms 100)).
Proof.
  apply (target_forgets_history (init 0 : AdaptiveVolumeControl float) raised32);
    reflexivity.
Defined.

(** ** The driver loop of [main] *)

(** X13.  Whenever the loop of [main] (an update followed by
    [printAndSmooth] for every event) completes on a non-empty list of
    events, the state it ends in is the state after the updates alone with
    the current level set to the last target: the convergence loops leave no
    other trace. *)
Theorem demo_loop_is_updates_then_settle {F} {A : Arith F} (fuel : nat)
    (s : AdaptiveVolumeControl F) (i : Inputs) (l : list Inputs)
    (s' : AdaptiveVolumeControl F) :
  main_loop fuel s (i :: l) = Some s' ->
  s' = set_currentVolume (run s (i :: l)) (targetVolume (run s (i :: l))).
Proof. apply main_loop_run. Qed.

(** X13, witness: four calls on the binary32 engine. *)
Lemma demo_loop_is_updates_then_settle_witness :
  exists s' : AdaptiveVolumeControl float,
    main_loop 15 (init 0) sample_run = Some s' /\
    s' = set_currentVolume (run (init 0) sample_run)
           (targetVolume (run (init 0) sample_run)).
Proof.
  destruct (main_loop 15 (init 0 : AdaptiveVolumeControl float) sample_run)
    as [s'|] eqn:E.
  - exists s'. split; [reflexivity|].
    exact (demo_loop_is_updates_then_settle 15 (init 0) _ _ s' E).
  - vm_compute in E. discriminate E.
Defined.

(** X14.  When the engine starts without ducking and every event comes at
    least 500 000 000 ticks after the one before (as the one-second sleep
    of the loop of [main] gives while the system clock is not set back),
    ducking is active after an event exactly when
    that event has the horn flag set: it never outlasts the press.  This
    holds after the updates alone and at the end of the loop of [main]. *)
Theorem spaced_events_duck_only_while_horn {F} {A : Arith F}
    (s : AdaptiveVolumeControl F) (i : Inputs) (l : list Inputs) :
  hornDuckActive s = false ->
  spaced (in_now i) l = true ->
  hornDuckActive (run s (i :: l)) = in_horn (last l i) /\
  forall fuel s', main_loop fuel s (i :: l) = Some s' ->
                  hornDuckActive s' = in_horn (last l i).
Proof.
  intros Hs Hl. pose proof (run_spaced_first l s i Hs Hl) as H.
  split; [exact H|]. intros fuel s' E.
  rewrite (main_loop_run _ _ _ _ _ E). exact H.
Qed.

(** X14, witness: the events of the demo, four seconds apart. *)
Lemma spaced_events_duck_only_while_horn_witness :
  hornDuckActive (run (init 0 : AdaptiveVolumeControl float) demo_inputs) = false.
Proof.
  exact (proj1 (spaced_events_duck_only_while_horn
                  (init 0 : AdaptiveVolumeControl float) engine_started later_calls
                  eq_refl eq_refl)).
Defined.

(** X15.  Binary32: whenever the loop of [main] completes on a non-empty
    list of events, the current level equals the target, is a number and is
    at most 100; it lies in [0, 80] when the last event was under automatic
    policy, and is at least 0 when the last event was a manual request that
    was not negative. *)
Theorem levels_after_every_event (fuel : nat) (s : AdaptiveVolumeControl float)
    (i : Inputs) (l : list Inputs) (s' : AdaptiveVolumeControl float) :
  main_loop fuel s (i :: l) = Some s' ->
  currentVolume s' = targetVolume s' /\
  is_nan (currentVolume s') = false /\
  fleb (currentVolume s') MAX_VOLUME = true /\
  (in_control (last l i) = ADAPTIVE ->
   fleb MIN_VOLUME (currentVolume s') = true /\
   fleb (currentVolume s') MAX_ADAPTIVE_VOLUME = true) /\
  (in_control (last l i) = MANUAL -> 0 <= in_manual (last l i) ->
   fleb MIN_VOLUME (currentVolume s') = true).
Proof.
  intros E. rewrite (main_loop_run _ _ _ _ _ E).
  destruct (run_last l s i) as [s0 ->].
  cbn [currentVolume targetVolume set_currentVolume].
  split; [reflexivity|]. apply update_with_bounded.
Qed.

(** X15, witness: the events of the demo, four seconds apart. *)
Lemma levels_after_every_event_witness :
  exists s' : AdaptiveVolumeControl float,
    main_loop 15 (init 0) (engine_started :: later_calls) = Some s' /\
    currentVolume s' = targetVolume s' /\
    is_nan (currentVolume s') = false /\
    fleb (currentVolume s') MAX_VOLUME = true.
Proof.
  destruct (main_loop 15 (init 0 : AdaptiveVolumeControl float)
              (engine_started :: later_calls)) as [s'|] eqn:E.
  - exists s'. split; [reflexivity|].
    destruct (levels_after_every_event 15 (init 0) engine_started later_calls s' E)
      as (H1 & H2 & H3 & _).
    repeat split; assumption.
  - vm_compute in E. discriminate E.
Defined.

(** ** The binary32 engine *)

(** X19.  Binary32: in every state the engine reaches when the manual
    levels passed are [int] values, a convergence step leaves the target
    as it is and moves the current level to a number between its old value
    and the target, both included: it never passes the target and never
    moves away from it. *)
Theorem step_never_overshoots (s : AdaptiveVolumeControl float) :
  reachable_above Int32.min_int s ->
  let s' := smoothVolumeTransition s in
  targetVolume s' = targetVolume s /\
  is_nan (currentVolume s') = false /\
  (fleb (currentVolume s) (targetVolume s) = true ->
   fleb (currentVolume s) (currentVolume s') = true /\
   fleb (currentVolume s') (targetVolume s) = true) /\
  (fleb (targetVolume s) (currentVolume s) = true ->
   fleb (targetVolume s) (currentVolume s') = true /\
   fleb (currentVolume s') (currentVolume s) = true).
Proof.
  intros H. cbv zeta.
  destruct (levels_above_min_int s H) as (Gc & Gt & Bc & Bt & _).
  destruct min_int_value as [_ V]. rewrite V in Bc, Bt.
  assert (L : - 2 ^ 525 <= scaled Int32.min_int 0).
  { unfold scaled, Int32.min_int. change (0 + 400) with 400.
    change 525 with (125 + 400). rewrite (pow2_split 125 400) by lia.
    rewrite <- Z.mul_opp_l.
    apply Z.mul_le_mono_nonneg_r; [apply Z.pow_nonneg; lia | apply Z.leb_le; reflexivity]. }
  assert (E525 : 100 * 2 ^ 400 <= 2 ^ 525).
  { change 525 with (125 + 400). rewrite (pow2_split 125 400) by lia.
    apply Z.mul_le_mono_nonneg_r; [apply Z.pow_nonneg; lia | apply Z.leb_le; reflexivity]. }
  destruct (step_between32 (currentVolume s) (targetVolume s)) as (G & U & D);
    [split; [exact Gc | lia] | split; [exact Gt | lia] |].
  cbv zeta in G, U, D.
  unfold smoothVolumeTransition. cbn [currentVolume targetVolume set_currentVolume].
  split; [reflexivity|]. split; [apply good_not_nan; exact G|].
  unfold fleb. rewrite !SFleb_fval by assumption.
  split; intros Hc; apply Z.leb_le in Hc.
  - specialize (U Hc). split; apply Z.leb_le; lia.
  - specialize (D Hc). split; apply Z.leb_le; lia.
Qed.

(** X19, witness: the first step towards a manual level of 50. *)
Lemma step_never_overshoots_witness :
  reachable_above Int32.min_int raised32 /\
  fleb (currentVolume raised32) (currentVolume (smoothVolumeTransition raised32)) = true /\
  fleb (currentVolume (smoothVolumeTransition raised32)) (targetVolume raised32) = true.
Proof.
  assert (H : reachable_above Int32.min_int raised32).
  { apply above_update; [apply above_init | intros _; unfold Int32.min_int; lia]. }
  split; [exact H|].
  exact (proj1 (proj2 (proj2 (step_never_overshoots raised32 H))) eq_refl).
Defined.

(** X20.  Binary32: in every state the engine reaches when no manual level
    passed was negative, the loop of [printAndSmooth] ends within 1600
    convergence steps, and [printAndSmooth] leaves the current level equal
    to the target and every other field as it was. *)
Theorem convergence_loop_ends (s : AdaptiveVolumeControl float) (fuel : nat) :
  reachable_above 0 s -> (1600 <= fuel)%nat ->
  printAndSmooth fuel s = Some (set_currentVolume s (targetVolume s)).
Proof. apply printAndSmooth_ends32. Qed.

(** X20, witness: the state of test 6 of [test.cpp]. *)
Lemma convergence_loop_ends_witness :
  reachable_above 0 UnitTests.avc6 /\
  printAndSmooth 1600 UnitTests.avc6
    = Some (set_currentVolume UnitTests.avc6 (targetVolume UnitTests.avc6)).
Proof.
  assert (H : reachable_above 0 UnitTests.avc6).
  { repeat (apply above_update; [|intros _; lia]). apply above_init. }
  split; [exact H|].
  exact (convergence_loop_ends UnitTests.avc6 1600 H (le_n 1600)).
Defined.

(** X21.  Binary32: [main] runs to completion whatever the clock reads at
    construction and at the twelve events of its table: every convergence
    loop ends within 1600 steps, and at the end the current level equals
    the target. *)
Theorem main_runs_to_completion (fuel : nat) (c0 : Clock.time_point)
    (clock : nat -> Clock.time_point) :
  (1600 <= fuel)%nat ->
  exists s' : AdaptiveVolumeControl float,
    main fuel c0 clock = Some s' /\ currentVolume s' = targetVolume s'.
Proof.
  intros Hfuel. unfold main.
  destruct (main_loop_ends32 fuel (timed clock 0 events) Hfuel (init c0)) as [s' E].
  - apply above_init.
  - apply timed_manual_nonneg. intros e He.
    repeat (destruct He as [<- | He]; [cbn; intros; (lia || discriminate)|]). destruct He.
  - exists s'. split; [exact E|].
    unfold events in E. cbn [timed] in E. rewrite (main_loop_run _ _ _ _ _ E).
    set (r := run _ _). clearbody r. destruct r; reflexivity.
Qed.

(** X21, witness: constructed at the epoch, the events four seconds apart. *)
Lemma main_runs_to_completion_witness :
  exists s' : AdaptiveVolumeControl float,
    main 1600 0 every_four_seconds = Some s' /\ currentVolume s' = targetVolume s'.
Proof. exact (main_runs_to_completion 1600 0 every_four_seconds (le_n 1600)). Defined.

(** X22.  Binary32, cabin noise an [int]: horn ducking, navigation speech,
    reverse gear and braking never raise the automatic target.  The target
    an update computes under automatic policy is at most the clamp of the
    base level of speed, noise and mode. *)
Theorem events_never_raise_the_target (s : AdaptiveVolumeControl float)
    newSpeed newNoise rev horn nav md m now :
  Int32.in_range newNoise ->
  let s' := update s newSpeed newNoise rev horn nav md ADAPTIVE m now in
  fleb (targetVolume s') (clampAdaptive (baseVolumeOf s')) = true.
Proof.
  intros Hn. cbv zeta.
  rewrite (update_before_clamp s newSpeed newNoise rev horn nav md m now).
  set (s' := update s newSpeed newNoise rev horn nav md ADAPTIVE m now).
  assert (Hno : cabinNoise s' = newNoise)
    by apply (update_fields s newSpeed newNoise rev horn nav md ADAPTIVE m now).
  assert (Gb : good (baseVolumeOf s') = true).
  { apply (baseVolumeOf_band s'). rewrite Hno. exact Hn. }
  unfold beforeClamp.
  destruct (gearOrBraking_attenuated s' _ _
              (hornNavDucking_attenuated s' _ _ (attenuated_refl _ Gb))) as (Gy & P & N).
  set (y := gearOrBraking s' (hornNavDucking s' (baseVolumeOf s'))) in *.
  destruct (clampAdaptive_value y Gy) as [G1 V1].
  destruct (clampAdaptive_value (baseVolumeOf s') Gb) as [G2 V2].
  unfold fleb. rewrite (SFleb_fval _ _ G1 G2), V1, V2. apply Z.leb_le.
  destruct (Z_le_gt_dec 0 (fval (baseVolumeOf s'))) as [H|H].
  - specialize (P H). lia.
  - specialize (N ltac:(lia)). lia.
Qed.

(** X22, witness: reverse gear with horn and navigation. *)
Lemma events_never_raise_the_target_witness :
  Int32.in_range 50 /\
  fleb (targetVolume reversing_with_horn)
       (clampAdaptive (baseVolumeOf reversing_with_horn)) = true.
Proof.
  assert (H : Int32.in_range 50) by (vm_compute; split; discriminate).
  split; [exact H|].
  exact (events_never_raise_the_target (init 0) 50 50 true true true COMFORT 0 0 H).
Defined.
